(** * The chunked extraction-and-merge pipeline of [src/lib/reportProcessing.ts]

    A shallow embedding of the chunker ([splitTextIntoChunks]), the merger
    ([mergeResults]), the per-chunk oracle loop ([processLargePdfWithClaudeAI],
    [callClaudeAPI]) and the orchestrator ([processReportWithAI]), followed by
    the properties the specification states about them, and by further
    properties of the code: the sizes of the chunks and their round trip
    through the split, the shape of what a merge returns, how a run ends
    and what it leaves alone, and the API route that awaits the
    orchestrator.

    Modelling conventions.
    - A JavaScript string is the list of its UTF-16 code units; [length] is
      the [.length] of the source.  Strings that the code only compares
      (property keys, entry names, findings, messages) are Rocq [string]s.
    - The lengths and token budgets of the chunker are integers of [Z]:
      they are lengths of strings and their quotients by four, far below
      [2^53], where the arithmetic of the source is exact.  The numbers
      that the merger adds come out of [JSON.parse] and are any doubles:
      they are the binary64 values of [SpecFloat], added as IEEE 754 adds
      them.
    - A property read follows the prototype chain: a key that an object
      does not own is looked up in [Object.prototype].
    - Objects that the code reaches through references (the entries of the
      category arrays, the scalar groups) live in an explicit heap and are
      named by their location, so that aliasing and in-place updates are
      visible.
    - A function that can throw returns a [completion]; the externals
      (Firestore, [fetch], [pdfParse], [JSON.parse]) are parameters.  What
      [JSON.parse] returns is not checked by the source: it is a record of
      the expected shape, [null], or some other value. *)

From Stdlib Require Import Floats.SpecFloat.
From Equations Require Import Equations.
From stdpp Require Import gmap strings list fin_maps pretty.

(** ** JavaScript strings and the paragraph separator [/\n\s*\n/] *)

Abbreviation jsstring := (list N).

Section chunker_definitions.
Local Open Scope Z_scope.

Definition LF : N := 10.

Definition is_line_feed (c : N) : bool := bool_decide (c = LF).

(** The class [\s] of a regular expression without the [u] flag: WhiteSpace
    and LineTerminator code units of ECMAScript. *)
Definition is_js_space (c : N) : bool :=
  bool_decide (c ∈ [9; 10; 11; 12; 13; 32; 160; 5760; 8232; 8233; 8239; 8287;
                    12288; 65279]%N)
  || bool_decide (8192 ≤ c ≤ 8202)%N.

(** [\s*\n] at the head of [s]: the star is greedy and backtracks, so a
    code unit is first given to [\s*]; only when the rest cannot be matched
    does the star stop and the code unit have to be the final [\n].  The
    result is the input left after the match. *)
Fixpoint match_space_star_lf (s : jsstring) : option jsstring :=
  match s with
  | [] => None
  | c :: s' =>
      let stop := if is_line_feed c then Some s' else None in
      if is_js_space c then
        match match_space_star_lf s' with
        | Some r => Some r
        | None => stop
        end
      else stop
  end.

(** [/\n\s*\n/] anchored at the head of [s]. *)
Definition match_separator (s : jsstring) : option jsstring :=
  match s with
  | [] => None
  | c :: s' => if is_line_feed c then match_space_star_lf s' else None
  end.

Definition inspect {A} (a : A) : {b : A | a = b} := exist _ a eq_refl.

(** Termination of the loops below: a match consumes at least one code
    unit, so what is left after it is shorter. *)
Ltac separator_consumes H :=
  simpl in H;
  match type of H with
  | (if is_line_feed ?c then _ else _) = _ =>
      destruct (is_line_feed c); [|done]
  end;
  let Hlen := fresh "Hlen" in
  assert (∀ s r, match_space_star_lf s = Some r →
    (length r < length s)%nat) as Hlen by
    (clear; intros s; induction s as [|d s IH]; intros r; simpl; [done|];
     destruct (is_js_space d), (match_space_star_lf s) as [r'|],
       (is_line_feed d); intros [= <-];
       try specialize (IH _ eq_refl); lia);
  apply Hlen in H; simpl; lia.

(** The loop of [String.prototype.split] with a regular expression: [piece]
    is the text between the end [p] of the last match and the position [q]
    under examination, [s] is the text from [q] on.  A failed match advances
    [q] by one code unit; a match closes the piece and resumes after it (the
    separator is never empty, so the [e = p] case of the algorithm cannot
    arise).  At the end of the text the last piece is pushed. *)
Equations split_loop (piece s : jsstring) : list jsstring
  by wf (length s) lt :=
  split_loop piece [] := [piece];
  split_loop piece (c :: s') with inspect (match_separator (c :: s')) := {
    | exist _ (Some r) _ => piece :: split_loop [] r
    | exist _ None _ => split_loop (piece ++ [c]) s' }.
Next Obligation. intros _ c s' r H _. separator_consumes H. Qed.
Next Obligation. intros. simpl. lia. Qed.

(** [text.split(/\n\s*\n/)] *)
Definition split_paragraphs (text : jsstring) : list jsstring :=
  split_loop [] text.

(** ** The chunker: [splitTextIntoChunks] (lines 179-205) *)

Definition charsPerToken : Z := 4.

(** The joiner ['\n\n'] *)
Definition blank_line : jsstring := [LF; LF].

(** Truthiness of a string: the empty string is falsy. *)
Definition truthy_string (s : jsstring) : bool :=
  match s with [] => false | _ => true end.

Definition string_length (s : jsstring) : Z := Z.of_nat (length s).

(** One iteration of [for (const paragraph of paragraphs)] on the pair
    [(chunks, currentChunk)]. *)
Definition chunk_step (maxChars : Z) (st : list jsstring * jsstring)
    (paragraph : jsstring) : list jsstring * jsstring :=
  let '(chunks, currentChunk) := st in
  if bool_decide (string_length currentChunk + string_length paragraph
                  > maxChars)
     && bool_decide (string_length currentChunk > 0)
  then (chunks ++ [currentChunk], paragraph)
  else (chunks,
        currentChunk
          ++ (if truthy_string currentChunk then blank_line else [])
          ++ paragraph).

Definition combine_paragraphs (maxChars : Z) (paragraphs : list jsstring)
  : list jsstring :=
  let '(chunks, currentChunk) :=
    foldl (chunk_step maxChars) ([], []) paragraphs in
  if truthy_string currentChunk then chunks ++ [currentChunk] else chunks.

Definition splitTextIntoChunks (text : jsstring) (maxTokens : Z)
  : list jsstring :=
  let maxChars := maxTokens * charsPerToken in
  let paragraphs := split_paragraphs text in
  combine_paragraphs maxChars paragraphs.

(** The code units of an ASCII literal, to write texts in examples. *)
Definition js (s : string) : jsstring :=
  Ascii.N_of_ascii <$> String.list_ascii_of_string s.

(** *** Vocabulary for the chunker's properties *)

(** [paragraphs.join('\n\n')]: how the loop assembles a chunk from the
    paragraphs it receives. *)
Fixpoint join_paragraphs (g : list jsstring) : jsstring :=
  match g with
  | [] => []
  | [p] => p
  | p :: g' => p ++ blank_line ++ join_paragraphs g'
  end.

(** [weave [p1; ...; pn] [j1; ...; jn-1]] is [p1 ++ j1 ++ p2 ++ ... ++ pn]. *)
Fixpoint weave (ps js : list jsstring) : jsstring :=
  match ps with
  | [] => []
  | p :: ps' =>
      match js with
      | [] => p ++ concat ps'
      | j :: js' => p ++ j ++ weave ps' js'
      end
  end.

(** A paragraph separator: a line feed, white space, a line feed. *)
Definition is_separator (sep : jsstring) : Prop :=
  ∃ w, sep = LF :: w ++ [LF] ∧ Forall (λ c, is_js_space c = true) w.

(** What the chunker leaves of a separator: ['\n\n'] or nothing. *)
Definition is_joiner (j : jsstring) : Prop := j = blank_line ∨ j = [].

(** The substrings that [/\n\s*\n/] matches during [split], in order
    (ghost twin of [split_loop], which drops them). *)
Equations split_separators (s : jsstring) : list jsstring
  by wf (length s) lt :=
  split_separators [] := [];
  split_separators (c :: s') with inspect (match_separator (c :: s')) := {
    | exist _ (Some r) _ =>
        take (length (c :: s') - length r) (c :: s') :: split_separators r
    | exist _ None _ => split_separators s' }.
Next Obligation. intros c s' r H _. separator_consumes H. Qed.
Next Obligation. intros. simpl. lia. Qed.

Definition nonblank (l : list jsstring) : list jsstring :=
  filter (λ p : jsstring, p ≠ []) l.

End chunker_definitions.

(** ** Values of Firestore documents *)

(** The scalar fields that the code reads from and writes to the documents
    of Firestore: strings, and numbers and times as integers. *)
Inductive jsval :=
  | JNum (n : Z)
  | JStr (s : string).

Global Instance jsval_eq_dec : EqDecision jsval.
Proof. solve_decision. Defined.

Definition jsval_to_sum (v : jsval) : Z + string :=
  match v with JNum n => inl n | JStr s => inr s end.

Definition jsval_of_sum (x : Z + string) : jsval :=
  match x with inl n => JNum n | inr s => JStr s end.

Global Instance jsval_countable : Countable jsval :=
  inj_countable' jsval_to_sum jsval_of_sum
    (λ v, match v with JNum _ => eq_refl | JStr _ => eq_refl end).

(** ** Numbers, JSON values, objects and the heap *)

(** A number of the parsed answers is an IEEE 754 double: a [spec_float]
    read at the precision 53 and the exponent bound 1024 of binary64, with
    one NaN and two zeros.  [js_add] is the [+] of two numbers, rounded to
    nearest, ties to even. *)
Abbreviation number := spec_float.

Definition js_add (x y : number) : number := SFadd 53 1024 x y.

(** The double of an integer literal. *)
Definition number_of_Z (z : Z) : number := binary_normalize 53 1024 z 0 false.

(** The numbers that are falsy: [0], [-0] and [NaN]. *)
Definition falsy_number (x : number) : bool :=
  match x with
  | S754_zero _ | S754_nan => true
  | _ => false
  end.

Global Instance number_eq_dec : EqDecision number.
Proof. solve_decision. Defined.

Definition number_to_sum (x : number)
  : bool + bool + unit + bool * positive * Z :=
  match x with
  | S754_zero s => inl (inl (inl s))
  | S754_infinity s => inl (inl (inr s))
  | S754_nan => inl (inr ())
  | S754_finite s m e => inr (s, m, e)
  end.

Definition number_of_sum (x : bool + bool + unit + bool * positive * Z)
  : number :=
  match x with
  | inl (inl (inl s)) => S754_zero s
  | inl (inl (inr s)) => S754_infinity s
  | inl (inr _) => S754_nan
  | inr (s, m, e) => S754_finite s m e
  end.

Global Instance number_countable : Countable number :=
  inj_countable' number_to_sum number_of_sum
    (λ x, match x with
          | S754_zero _ | S754_infinity _ | S754_nan | S754_finite _ _ _ =>
              eq_refl
          end).

(** The text at the head of a string that the merger builds with [+]: a
    string of the input, or the source text that [toString] gives for the
    method [Object.prototype[key]], which depends on the engine. *)
Inductive text_head :=
  | Text (s : string)
  | MethodSource (key : string).

Global Instance text_head_eq_dec : EqDecision text_head.
Proof. solve_decision. Defined.

(** The values of the fields of an entry: a number, a string, or the
    string that [+] makes of a text followed by numbers, [Cat head [n1; ...;
    nk]] being [head + n1 + ... + nk], each number in its decimal form.  An
    answer parsed from JSON holds [Num] and [Str] only; [Cat] arises in
    merged entries, and never as a name. *)
Inductive json :=
  | Num (x : number)
  | Str (s : string)
  | Cat (head : text_head) (numbers : list number).

Global Instance json_eq_dec : EqDecision json.
Proof. solve_decision. Defined.

Definition json_to_sum (v : json)
  : number + string + (string + string) * list number :=
  match v with
  | Num x => inl (inl x)
  | Str s => inl (inr s)
  | Cat (Text s) ns => inr (inl s, ns)
  | Cat (MethodSource key) ns => inr (inr key, ns)
  end.

Definition json_of_sum (x : number + string + (string + string) * list number)
  : json :=
  match x with
  | inl (inl x) => Num x
  | inl (inr s) => Str s
  | inr (inl s, ns) => Cat (Text s) ns
  | inr (inr key, ns) => Cat (MethodSource key) ns
  end.

Global Instance json_countable : Countable json :=
  inj_countable' json_to_sum json_of_sum
    (λ v, match v with
          | Num _ | Str _ | Cat (Text _) _ | Cat (MethodSource _) _ => eq_refl
          end).

(** An object is the finite map of its own properties. *)
Abbreviation jsobject := (gmap string json).

(** Objects reached through references are stored in a heap; a location is
    an index, and allocation appends. *)
Abbreviation loc := nat.
Abbreviation heap := (list jsobject).

(** Reading through a reference. *)
Definition deref (h : heap) (l : loc) : jsobject := h !!! l.

Definition entries (h : heap) (arr : list loc) : list jsobject :=
  deref h <$> arr.

(** The methods that an object parsed from JSON, or copied with
    [{...item}], inherits from [Object.prototype]; it also inherits the
    accessor [__proto__]. *)
Definition object_prototype_methods : list string :=
  ["constructor"; "hasOwnProperty"; "isPrototypeOf"; "propertyIsEnumerable";
   "toLocaleString"; "toString"; "valueOf"; "__defineGetter__";
   "__defineSetter__"; "__lookupGetter__"; "__lookupSetter__"].

(** What [o[key]] reads: an own property, or else what the prototype has
    under that key, or else [undefined]. *)
Inductive js_read :=
  | Own (v : json)
  | Method (key : string)
  | Prototype
  | Undefined.

Definition js_get (o : jsobject) (key : string) : js_read :=
  match o !! key with
  | Some v => Own v
  | None =>
      if decide (key = "__proto__") then Prototype
      else if decide (key ∈ object_prototype_methods) then Method key
      else Undefined
  end.

(** [v || 0]: [undefined], the falsy numbers and the empty string give 0;
    objects, functions and the other strings are truthy. *)
Definition js_or_zero (v : js_read) : js_read :=
  match v with
  | Undefined => Own (Num (S754_zero false))
  | Own (Num x) => if falsy_number x then Own (Num (S754_zero false)) else v
  | Own (Str s) =>
      if decide (s = EmptyString) then Own (Num (S754_zero false)) else v
  | _ => v
  end.

(** [a + n] for a number [n]: the sum of two numbers; for a string, an
    object or a function, the concatenation of its string form with the
    decimal form of [n]. *)
Definition js_plus_number (a : js_read) (n : number) : json :=
  match a with
  | Own (Num m) => Num (js_add m n)
  | Own (Str s) => Cat (Text s) [n]
  | Own (Cat head numbers) => Cat head (numbers ++ [n])
  | Method key => Cat (MethodSource key) [n]
  | Prototype => Cat (Text "[object Object]") [n]
  | Undefined => Num S754_nan
  end.

(** [o[key] = v] for a number or a string [v]: the property becomes an own
    property of [o], except that an assignment to [__proto__], when [o] has
    no own property of that name, goes to the setter of the prototype,
    which ignores a value that is not an object. *)
Definition js_set (o : jsobject) (key : string) (v : json) : jsobject :=
  if decide (key = "__proto__" ∧ o !! key = None) then o
  else <[key := v]> o.

(** ** Partial records: [Partial<ReportData>] (lines 6-41) *)

Record KeyFindings := {
  strengths : option (list string);
  areasForDevelopment : option (list string) }.

Record PartialReportData := {
  libraryOverview : option loc;
  collectionOverview : option loc;
  usageStatistics : option loc;
  collectionData : option (list loc);
  circulationData : option (list loc);
  revenueData : option (list loc);
  expenseData : option (list loc);
  programData : option (list loc);
  venueData : option (list loc);
  summerReadingData : option (list loc);
  keyFindings : option KeyFindings }.

(** The object [{}]. *)
Definition empty_record : PartialReportData :=
  {| libraryOverview := None; collectionOverview := None;
     usageStatistics := None; collectionData := None;
     circulationData := None; revenueData := None; expenseData := None;
     programData := None; venueData := None; summerReadingData := None;
     keyFindings := None |}.

(** The keys of the category-breakdown arrays. *)
Inductive array_prop :=
  | CollectionData | CirculationData | RevenueData | ExpenseData
  | ProgramData | VenueData | SummerReadingData.

Global Instance array_prop_eq_dec : EqDecision array_prop.
Proof. solve_decision. Defined.

Definition arrayProps : list array_prop :=
  [CollectionData; CirculationData; RevenueData; ExpenseData;
   ProgramData; VenueData; SummerReadingData].

(** [result[prop]] *)
Definition get_array (prop : array_prop) (r : PartialReportData)
  : option (list loc) :=
  match prop with
  | CollectionData => collectionData r
  | CirculationData => circulationData r
  | RevenueData => revenueData r
  | ExpenseData => expenseData r
  | ProgramData => programData r
  | VenueData => venueData r
  | SummerReadingData => summerReadingData r
  end.

(** [merged[prop] = items] *)
Definition set_array (prop : array_prop) (items : list loc)
    (r : PartialReportData) : PartialReportData :=
  let upd p := if decide (p = prop) then Some items else get_array p r in
  {| libraryOverview := libraryOverview r;
     collectionOverview := collectionOverview r;
     usageStatistics := usageStatistics r;
     collectionData := upd CollectionData;
     circulationData := upd CirculationData;
     revenueData := upd RevenueData;
     expenseData := upd ExpenseData;
     programData := upd ProgramData;
     venueData := upd VenueData;
     summerReadingData := upd SummerReadingData;
     keyFindings := keyFindings r |}.

Definition set_libraryOverview (v : loc) (r : PartialReportData) :=
  {| libraryOverview := Some v;
     collectionOverview := collectionOverview r;
     usageStatistics := usageStatistics r;
     collectionData := collectionData r;
     circulationData := circulationData r;
     revenueData := revenueData r; expenseData := expenseData r;
     programData := programData r; venueData := venueData r;
     summerReadingData := summerReadingData r;
     keyFindings := keyFindings r |}.

Definition set_collectionOverview (v : loc) (r : PartialReportData) :=
  {| libraryOverview := libraryOverview r;
     collectionOverview := Some v;
     usageStatistics := usageStatistics r;
     collectionData := collectionData r;
     circulationData := circulationData r;
     revenueData := revenueData r; expenseData := expenseData r;
     programData := programData r; venueData := venueData r;
     summerReadingData := summerReadingData r;
     keyFindings := keyFindings r |}.

Definition set_usageStatistics (v : loc) (r : PartialReportData) :=
  {| libraryOverview := libraryOverview r;
     collectionOverview := collectionOverview r;
     usageStatistics := Some v;
     collectionData := collectionData r;
     circulationData := circulationData r;
     revenueData := revenueData r; expenseData := expenseData r;
     programData := programData r; venueData := venueData r;
     summerReadingData := summerReadingData r;
     keyFindings := keyFindings r |}.

Definition set_keyFindings (v : KeyFindings) (r : PartialReportData) :=
  {| libraryOverview := libraryOverview r;
     collectionOverview := collectionOverview r;
     usageStatistics := usageStatistics r;
     collectionData := collectionData r;
     circulationData := circulationData r;
     revenueData := revenueData r; expenseData := expenseData r;
     programData := programData r; venueData := venueData r;
     summerReadingData := summerReadingData r;
     keyFindings := Some v |}.

(** ** The merger: [mergeResults] (lines 212-292) *)

(** Lines 216-226: one iteration of the first loop.  An object is truthy, a
    missing section is not. *)
Definition merge_scalars (merged result : PartialReportData)
  : PartialReportData :=
  let merged :=
    match libraryOverview result, libraryOverview merged with
    | Some o, None => set_libraryOverview o merged
    | _, _ => merged
    end in
  let merged :=
    match collectionOverview result, collectionOverview merged with
    | Some o, None => set_collectionOverview o merged
    | _, _ => merged
    end in
  match usageStatistics result, usageStatistics merged with
  | Some o, None => set_usageStatistics o merged
  | _, _ => merged
  end.

(** Lines 249-253: [for (const key of Object.keys(item))], on the object
    [existingItem]. *)
Definition merge_numeric_properties (item existingItem : jsobject)
  : jsobject :=
  map_fold (λ key v existing,
      match v with
      | Num n =>
          if decide (key ≠ "name")
          then js_set existing key
                 (js_plus_number (js_or_zero (js_get existing key)) n)
          else existing
      | _ => existing
      end)
    existingItem item.

(** The key that a [Map] makes of a value: it compares keys with
    SameValueZero, for which [-0] is [0] (and [NaN] is [NaN]). *)
Definition map_key (v : json) : json :=
  match v with
  | Num (S754_zero _) => Num (S754_zero false)
  | _ => v
  end.

(** The name of an entry as a key of [nameMap]: [item.name], [None] when
    there is none ([Object.prototype] has no property [name]). *)
Definition entry_name (e : jsobject) : option json :=
  map_key <$> e !! "name".

(** The locals [items] and [nameMap] of one pass of the loop over
    [arrayProps]. *)
Record merge_acc := {
  items : list loc;
  nameMap : gmap (option json) nat }.

(** Lines 242-259: the body of [for (const item of arr)], where [l] is the
    reference held by the array.  A name seen before updates the object at
    [items[index]] in place; a new name allocates the copy [{...item}].
    [nameMap] only ever holds indices of [items], so [items[index]] is
    always there; the branch without it leaves the state as it is. *)
Definition merge_item (st : merge_acc * heap) (l : loc) : merge_acc * heap :=
  let '(acc, h) := st in
  let item := deref h l in
  match nameMap acc !! entry_name item with
  | Some index =>
      match items acc !! index with
      | Some existingItem =>
          (acc, <[existingItem :=
                    merge_numeric_properties item (deref h existingItem)]> h)
      | None => (acc, h)
      end
  | None =>
      ({| items := items acc ++ [length h];
          nameMap := <[entry_name item := length (items acc)]>
                       (nameMap acc) |},
       h ++ [item])
  end.

(** Lines 238-260: the body of [for (const result of results)]. *)
Definition merge_array (prop : array_prop) (st : merge_acc * heap)
    (result : PartialReportData) : merge_acc * heap :=
  match get_array prop result with
  | None => st
  | Some arr => foldl merge_item st arr
  end.

(** Lines 234-265: the body of [for (const prop of arrayProps)]. *)
Definition merge_prop (results : list PartialReportData)
    (st : PartialReportData * heap) (prop : array_prop)
  : PartialReportData * heap :=
  let '(merged, h) := st in
  let '(acc, h') :=
    foldl (merge_array prop) ({| items := []; nameMap := ∅ |}, h) results in
  (if bool_decide (0 < length (items acc))%nat
   then set_array prop (items acc) merged
   else merged,
   h').

(** [Set.prototype.add] on a set of strings, kept in insertion order. *)
Definition set_add (s : list string) (x : string) : list string :=
  if decide (x ∈ s) then s else s ++ [x].

(** Lines 272-283: the body of the loop that fills the two sets. *)
Definition collect_findings (st : list string * list string)
    (result : PartialReportData) : list string * list string :=
  let '(strengthSet, areaSet) := st in
  let strengthSet :=
    match keyFindings result with
    | Some {| strengths := Some l |} => foldl set_add strengthSet l
    | _ => strengthSet
    end in
  let areaSet :=
    match keyFindings result with
    | Some {| areasForDevelopment := Some l |} => foldl set_add areaSet l
    | _ => areaSet
    end in
  (strengthSet, areaSet).

(** Lines 268-289. *)
Definition merge_findings (results : list PartialReportData)
    (merged : PartialReportData) : PartialReportData :=
  if existsb (λ r, bool_decide (is_Some (keyFindings r))) results then
    let '(strengthSet, areaSet) := foldl collect_findings ([], []) results in
    set_keyFindings
      {| strengths := Some (take 5 strengthSet);
         areasForDevelopment := Some (take 5 areaSet) |} merged
  else merged.

Definition mergeResults (results : list PartialReportData) (h : heap)
  : PartialReportData * heap :=
  let merged := foldl merge_scalars empty_record results in
  let '(merged, h) := foldl (merge_prop results) (merged, h) arrayProps in
  (merge_findings results merged, h).

(** *** Vocabulary for the merger's properties *)

Definition is_number (v : json) : Prop :=
  match v with Num _ => True | _ => False end.

Global Instance is_number_dec v : Decision (is_number v).
Proof. destruct v; apply _. Defined.

(** An entry typed as [ReportData] declares it: every property other than
    [name] is a number. *)
Definition numeric_fields (e : jsobject) : Prop :=
  map_Forall (λ key v, key ≠ "name" → is_number v) e.

Global Instance numeric_fields_dec e : Decision (numeric_fields e).
Proof. unfold numeric_fields. apply _. Defined.

(** *** The category-breakdown rule in the words of the specification

    The three definitions prefixed by [spec_] are written from section 4.4
    of the specification, not from the code; the loops of [mergeResults]
    are compared with them. *)

(** A field read as a number, an absent field being 0. *)
Definition field_or_zero (v : option json) : number :=
  match v with Some (Num n) => n | _ => S754_zero false end.

(** "Add its numeric fields into the existing entry's numeric fields
    (element-wise sum over every field that is numeric and not the name)":
    every numeric field of the new entry that is not the name is added into
    the field of the same key of the existing entry, an absent field
    counting as 0; the other fields of the existing entry stay. *)
Definition spec_add_numeric_fields (existing item : jsobject) : jsobject :=
  merge (λ e i,
      match i with
      | Some (Num n) => Some (Num (js_add (field_or_zero e) n))
      | _ => e
      end)
    existing (delete "name" item).

(** "If an entry with the same name has already been seen in this section,
    add its numeric fields into the existing entry; otherwise append it as
    a new entry, preserving first-seen order." *)
Fixpoint spec_add_entry (item : jsobject) (seen : list jsobject)
  : list jsobject :=
  match seen with
  | [] => [item]
  | e :: seen' =>
      if decide (entry_name e = entry_name item)
      then spec_add_numeric_fields e item :: seen'
      else e :: spec_add_entry item seen'
  end.

(** "Process chunks in order; within each chunk's list, for every
    entry ...": the section merged from the lists of the chunks. *)
Definition spec_merge_section (chunks : list (list jsobject))
  : list jsobject :=
  foldl (λ seen item, spec_add_entry item seen) [] (concat chunks).

(** The lists that the records contribute to the section [prop]. *)
Definition section_input (h : heap) (prop : array_prop)
    (results : list PartialReportData) : list (list jsobject) :=
  entries h <$> omap (get_array prop) results.


(** The entries of a section of a record, read in the heap [h]; none when
    the section is absent. *)
Definition section_entries (h : heap) (prop : array_prop)
    (r : PartialReportData) : list jsobject :=
  from_option (entries h) [] (get_array prop r).

(** All the references that the arrays of a record hold. *)
Definition array_entries (r : PartialReportData) : list loc :=
  arrayProps ≫= λ prop, default [] (get_array prop r).

(** Every reference held by an input array points into the heap. *)
Definition valid_results (h : heap) (results : list PartialReportData)
  : Prop :=
  Forall (λ r, Forall (λ l, l < length h) (array_entries r)) results.

Global Instance valid_results_dec h results :
  Decision (valid_results h results).
Proof. unfold valid_results. apply _. Defined.

(** Every entry of an input array is typed as [ReportData] declares it. *)
Definition typed_results (h : heap) (results : list PartialReportData)
  : Prop :=
  Forall (λ r, Forall (λ l, numeric_fields (deref h l)) (array_entries r))
    results.

Global Instance typed_results_dec h results :
  Decision (typed_results h results).
Proof. unfold typed_results. apply _. Defined.

(** The keys under which [Object.prototype] has a property. *)
Definition inherited_keys : list string :=
  "__proto__" :: object_prototype_methods.

(** An entry none of whose properties is named like a property of
    [Object.prototype]. *)
Definition own_keys (e : jsobject) : Prop :=
  map_Forall (λ key _, key ∉ inherited_keys) e.

Global Instance own_keys_dec e : Decision (own_keys e).
Proof. unfold own_keys. apply _. Defined.

(** No entry of an input array has a property named like a property of
    [Object.prototype]. *)
Definition own_keys_results (h : heap) (results : list PartialReportData)
  : Prop :=
  Forall (λ r, Forall (λ l, own_keys (deref h l)) (array_entries r)) results.

Global Instance own_keys_results_dec h results :
  Decision (own_keys_results h results).
Proof. unfold own_keys_results. apply _. Defined.

(** A number that [|| 0] leaves as it is: neither [NaN] nor [-0]. *)
Definition plain_number (x : number) : Prop :=
  x ≠ S754_nan ∧ x ≠ S754_zero true.

(** An entry whose numeric fields, the name apart, are plain. *)
Definition plain_fields (e : jsobject) : Prop :=
  map_Forall (λ key v,
    key ≠ "name" → match v with Num x => plain_number x | _ => True end) e.

Global Instance plain_fields_dec e : Decision (plain_fields e).
Proof.
  unfold plain_fields. apply map_Forall_dec. intros key v.
  destruct v; unfold plain_number; apply _.
Defined.

(** The running sums of the rule are plain: whenever an entry is about to
    be added to the entries [seen] so far, these have plain fields. *)
Fixpoint plain_run (seen items : list jsobject) : Prop :=
  match items with
  | [] => True
  | item :: items' =>
      Forall plain_fields seen ∧ plain_run (spec_add_entry item seen) items'
  end.

Global Instance plain_run_dec seen items : Decision (plain_run seen items).
Proof.
  revert seen. induction items as [|item items IH]; intros seen; simpl;
    apply _.
Defined.

(** No running sum of the section [prop] is [NaN] or [-0]. *)
Definition plain_sums (h : heap) (prop : array_prop)
    (results : list PartialReportData) : Prop :=
  plain_run [] (concat (section_input h prop results)).

(** The inputs on which the loops for the section [prop] add as the rule
    says. *)
Definition summable (h : heap) (prop : array_prop)
    (results : list PartialReportData) : Prop :=
  typed_results h results ∧ own_keys_results h results
  ∧ plain_sums h prop results.

(** *** The findings rule in the words of the specification *)

(** "The union of the strings into a set, order of first appearance
    preserved": the distinct elements of a list, each at the place of its
    first occurrence. *)
Fixpoint first_occurrences (l : list string) : list string :=
  match l with
  | [] => []
  | x :: l' => x :: filter (λ y, y ≠ x) (first_occurrences l')
  end.

(** All the strengths, and all the areas for development, that the records
    contribute, in record order. *)
Definition all_strengths (results : list PartialReportData) : list string :=
  results ≫= λ r,
    match keyFindings r with
    | Some {| strengths := Some l |} => l
    | _ => []
    end.

Definition all_areas (results : list PartialReportData) : list string :=
  results ≫= λ r,
    match keyFindings r with
    | Some {| areasForDevelopment := Some l |} => l
    | _ => []
    end.

(** *** Invariants of the merger's loops *)

(** [h0] is the heap when the pass over one key of [arrayProps] starts. *)
Record merge_inv (h0 : heap) (acc : merge_acc) (h : heap) : Prop := {
  inv_length : length h0 ≤ length h;
  inv_frame : ∀ l, l < length h0 → h !! l = h0 !! l;
  inv_fresh : ∀ l, l ∈ items acc → length h0 ≤ l < length h;
  inv_nodup : NoDup (items acc);
  inv_names : ∀ name i,
    nameMap acc !! name = Some i
    ↔ ∃ l, items acc !! i = Some l ∧ entry_name (deref h l) = name }.

(** The heap [h'] extends [h]: it is at least as long and agrees with it on
    every location of [h]. *)
Definition heap_extends (h h' : heap) : Prop :=
  length h ≤ length h' ∧ ∀ l, l < length h → h' !! l = h !! l.

(** What the pass over the key [prop] leaves in the merged record, for the
    merge of [results] started on the heap [h], seen on a later heap [h']. *)
Definition section_ok (h : heap) (results : list PartialReportData)
    (prop : array_prop) (section : option (list loc)) (h' : heap) : Prop :=
  match section with
  | Some arr =>
      arr ≠ []
      ∧ (∀ l, l ∈ arr → length h ≤ l < length h')
      ∧ NoDup (entry_name <$> entries h' arr)
      ∧ (valid_results h results → summable h prop results →
         entries h' arr = spec_merge_section (section_input h prop results))
  | None =>
      valid_results h results → summable h prop results →
      spec_merge_section (section_input h prop results) = []
  end.

(** Two records with the same scalar groups and findings. *)
Definition same_sections (m m' : PartialReportData) : Prop :=
  libraryOverview m = libraryOverview m'
  ∧ collectionOverview m = collectionOverview m'
  ∧ usageStatistics m = usageStatistics m'
  ∧ keyFindings m = keyFindings m'.

(** *** Sample inputs *)

(** The entry [{ name, value }] of a category breakdown. *)
Definition category (name : string) (value : Z) : jsobject :=
  {[ "name" := Str name; "value" := Num (number_of_Z value) ]}.

(** A record that only has the section [collectionData]. *)
Definition collection_record (arr : list loc) : PartialReportData :=
  set_array CollectionData arr empty_record.

(** A record that only has the section [libraryOverview]. *)
Definition overview_record (o : loc) : PartialReportData :=
  set_libraryOverview o empty_record.

(** A record that only has strengths. *)
Definition strengths_record (l : list string) : PartialReportData :=
  set_keyFindings {| strengths := Some l; areasForDevelopment := None |}
    empty_record.

(** ** Effects: completions, the world, and the externals *)

(** The outcome of a call that may throw; an [Error] is its message. *)
Inductive completion (A : Type) : Type :=
  | Normal (a : A)
  | Throw (message : string).
Arguments Normal {A} a.
Arguments Throw {A} message.

(** A Firestore document: its fields. *)
Abbreviation document := (gmap string jsval).

(** The document written to the collection [reportData] (lines 101-118):
    the merged sections as the run holds them, with the objects they refer
    to as they are when the document is serialised. *)
Record ReportData := {
  rd_reportId : string;
  rd_libraryName : jsval;
  rd_year : option jsval;
  rd_sections : PartialReportData;
  rd_objects : heap;
  rd_createdAt : Z;
  rd_updatedAt : Z }.

(** The instruction template filled with the metadata of the document, and
    the prompt of one chunk (lines 308-433). *)
Record system_prompt := {
  sp_libraryName : jsval;
  sp_year : option jsval }.

Record user_prompt := {
  up_index : nat;
  up_count : nat;
  up_year : option jsval;
  up_libraryName : jsval;
  up_text : jsstring }.

(** The POST request to the messages endpoint (lines 465-486). *)
Record api_request := {
  rq_apiKey : string;
  rq_system : system_prompt;
  rq_user : user_prompt }.

Record http_response := {
  ok : bool;
  status : Z;
  statusText : string;
  body : list N }.

(** [ClaudeResponse], reduced to the texts of its content blocks;
    [content] may be missing. *)
Record ClaudeResponse := {
  content : option (list string) }.

(** What [JSON.parse(jsonString) as Partial<ReportData>] can return: the
    cast checks nothing.  [WellShaped r] is an object that is as [r]
    describes it: a section that is absent or falsy is [None]; a scalar
    group is an object; an array holds objects whose fields are numbers and
    strings; the findings are arrays of strings.  [JsonNull] is [null].
    [IllShaped text] is any other value that the text parses to. *)
Inductive parsed :=
  | WellShaped (r : PartialReportData)
  | JsonNull
  | IllShaped (text : string).

Global Instance KeyFindings_eq_dec : EqDecision KeyFindings.
Proof. solve_decision. Defined.

Global Instance PartialReportData_eq_dec : EqDecision PartialReportData.
Proof. solve_decision. Defined.

Global Instance parsed_eq_dec : EqDecision parsed.
Proof. solve_decision. Defined.

Inductive firestore_op :=
  | FsUpdate (collection id : string)
  | FsGet (collection id : string)
  | FsSet (collection id : string).

(** What the code calls and does not define.  [E] is the state of the
    outside world (network, services); every awaited call may throw and may
    change it.  [firestore_fault] says whether a Firestore operation is
    refused by the service or the network.  [type_error_null] is the
    message of the [TypeError] that the engine throws when a property of
    [null] is read.  [merge_ill_shaped] is what [mergeResults] makes of
    parsed answers that are not all well-shaped and of which none is
    [null]: it may throw (an entry that is [null], a section that cannot be
    iterated) or return a record, of which only the sections that are
    defined matter afterwards. *)
Record externals (E : Type) := {
  env : string → option string;
  firestore_fault : firestore_op → E → option string * E;
  fetch_get : option jsval → E → completion http_response * E;
  response_arrayBuffer : http_response → E → completion (list N) * E;
  pdfParse : list N → E → completion jsstring * E;
  fetch_post : api_request → E → completion http_response * E;
  response_text : http_response → E → completion string * E;
  response_json : http_response → E → completion ClaudeResponse * E;
  extract_json : string → string;
  JSON_parse : string → heap → completion (parsed * heap);
  type_error_null : string;
  merge_ill_shaped :
    list parsed → heap → completion (PartialReportData * heap) }.
Arguments env {E} _ _.
Arguments firestore_fault {E} _ _ _.
Arguments fetch_get {E} _ _ _.
Arguments response_arrayBuffer {E} _ _ _.
Arguments pdfParse {E} _ _ _.
Arguments fetch_post {E} _ _ _.
Arguments response_text {E} _ _ _.
Arguments response_json {E} _ _ _.
Arguments extract_json {E} _ _.
Arguments JSON_parse {E} _ _ _.
Arguments type_error_null {E} _.
Arguments merge_ill_shaped {E} _ _ _.

Record world (E : Type) := {
  w_heap : heap;
  w_log : list string;
  w_reports : gmap string document;
  w_libraries : gmap string document;
  w_reportData : gmap string ReportData;
  w_clock : Z;
  w_ext : E }.
Arguments w_heap {E} _.
Arguments w_log {E} _.
Arguments w_reports {E} _.
Arguments w_libraries {E} _.
Arguments w_reportData {E} _.
Arguments w_clock {E} _.
Arguments w_ext {E} _.

(** An asynchronous computation, run to its end: it changes the world and
    completes normally or throws. *)
Definition M (E A : Type) : Type := world E → completion A * world E.

Section effects.
Context {E : Type}.

Definition set_heap (h : heap) (w : world E) : world E :=
  {| w_heap := h; w_log := w_log w; w_reports := w_reports w;
     w_libraries := w_libraries w; w_reportData := w_reportData w;
     w_clock := w_clock w; w_ext := w_ext w |}.

Definition set_log (l : list string) (w : world E) : world E :=
  {| w_heap := w_heap w; w_log := l; w_reports := w_reports w;
     w_libraries := w_libraries w; w_reportData := w_reportData w;
     w_clock := w_clock w; w_ext := w_ext w |}.

Definition set_reports (r : gmap string document) (w : world E) : world E :=
  {| w_heap := w_heap w; w_log := w_log w; w_reports := r;
     w_libraries := w_libraries w; w_reportData := w_reportData w;
     w_clock := w_clock w; w_ext := w_ext w |}.

Definition set_reportData (r : gmap string ReportData) (w : world E)
  : world E :=
  {| w_heap := w_heap w; w_log := w_log w; w_reports := w_reports w;
     w_libraries := w_libraries w; w_reportData := r;
     w_clock := w_clock w; w_ext := w_ext w |}.

Definition set_clock (t : Z) (w : world E) : world E :=
  {| w_heap := w_heap w; w_log := w_log w; w_reports := w_reports w;
     w_libraries := w_libraries w; w_reportData := w_reportData w;
     w_clock := t; w_ext := w_ext w |}.

Definition set_ext (e : E) (w : world E) : world E :=
  {| w_heap := w_heap w; w_log := w_log w; w_reports := w_reports w;
     w_libraries := w_libraries w; w_reportData := w_reportData w;
     w_clock := w_clock w; w_ext := e |}.

Definition ret {A} (a : A) : M E A := λ w, (Normal a, w).

Definition bind {A B} (m : M E A) (k : A → M E B) : M E B := λ w,
  match m w with
  | (Normal a, w') => k a w'
  | (Throw e, w') => (Throw e, w')
  end.

Definition throw {A} (message : string) : M E A := λ w, (Throw message, w).

(** [try { m } catch (error) { handler(error) }] *)
Definition try_catch {A} (m : M E A) (handler : string → M E A) : M E A :=
  λ w,
  match m w with
  | (Normal a, w') => (Normal a, w')
  | (Throw e, w') => handler e w'
  end.

(** Reading and changing the state of the run. *)
Definition gets {A} (f : world E → A) : M E A := λ w, (Normal (f w), w).

Definition modify (f : world E → world E) : M E unit :=
  λ w, (Normal (), f w).

(** [console.log] and [console.error] *)
Definition console (line : string) : M E unit :=
  modify (λ w, set_log (w_log w ++ [line]) w).

(** An awaited call to the outside world. *)
Definition await {A} (call : E → completion A * E) : M E A := λ w,
  let '(c, e) := call (w_ext w) in (c, set_ext e w).

(** [new Date()] *)
Definition new_Date : M E Z := λ w,
  (Normal (w_clock w), set_clock (w_clock w + 1)%Z w).
End effects.

Global Instance M_ret {E} : MRet (M E) := λ A, ret.
Global Instance M_bind {E} : MBind (M E) := λ A B k m, bind m k.

(** ** Firestore *)

Section firestore.
Context {E : Type} (X : externals E).

Definition firestore_call (op : firestore_op) : M E unit := λ w,
  match firestore_fault X op (w_ext w) with
  | (Some message, e) => (Throw message, set_ext e w)
  | (None, e) => (Normal (), set_ext e w)
  end.

(** [updateDoc(doc(db, 'reports', id), fields)]: the document must exist;
    the fields given replace those of the same name. *)
Definition updateDoc_reports (id : string) (fields : document) : M E unit :=
  firestore_call (FsUpdate "reports" id);;
  reports ← gets w_reports;
  match reports !! id with
  | Some d => modify (set_reports (<[id := fields ∪ d]> reports))
  | None => throw "No document to update"
  end.

(** [getDoc(doc(db, 'reports', id))]: [None] when [exists()] is false. *)
Definition getDoc_reports (id : string) : M E (option document) :=
  firestore_call (FsGet "reports" id);;
  gets (λ w, w_reports w !! id).

(** [getDoc(doc(db, 'libraries', libraryId))]; a reference cannot be made
    from anything but a non-empty string. *)
Definition getDoc_libraries (libraryId : option jsval)
  : M E (option document) :=
  match libraryId with
  | Some (JStr id) =>
      if decide (id = EmptyString) then throw "Invalid document reference"
      else
        firestore_call (FsGet "libraries" id);;
        gets (λ w, w_libraries w !! id)
  | _ => throw "Invalid document reference"
  end.

(** The first field of the document, in the order of the object literal
    of lines 101-118, whose value is [undefined]; the other fields are
    always defined. *)
Definition undefined_field (data : ReportData) : option string :=
  let r := rd_sections data in
  head (omap (λ field : string * bool, if field.2 then None else Some field.1)
    [("year", bool_decide (is_Some (rd_year data)));
     ("libraryOverview", bool_decide (is_Some (libraryOverview r)));
     ("collectionOverview", bool_decide (is_Some (collectionOverview r)));
     ("usageStatistics", bool_decide (is_Some (usageStatistics r)));
     ("collectionData", bool_decide (is_Some (collectionData r)));
     ("circulationData", bool_decide (is_Some (circulationData r)));
     ("revenueData", bool_decide (is_Some (revenueData r)));
     ("expenseData", bool_decide (is_Some (expenseData r)));
     ("programData", bool_decide (is_Some (programData r)));
     ("venueData", bool_decide (is_Some (venueData r)));
     ("summerReadingData", bool_decide (is_Some (summerReadingData r)));
     ("keyFindings", bool_decide (is_Some (keyFindings r)))]).

(** [setDoc(doc(db, 'reportData', id), data)], on a Firestore instance with
    the default settings: the SDK checks the data before it sends anything,
    and throws when a field is [undefined]. *)
Definition setDoc_reportData (id : string) (data : ReportData) : M E unit :=
  match undefined_field data with
  | Some field =>
      throw ("Function setDoc() called with invalid data. "
             +:+ "Unsupported field value: undefined (found in field "
             +:+ field +:+ " in document reportData/" +:+ id +:+ ")")
  | None =>
      firestore_call (FsSet "reportData" id);;
      modify (λ w, set_reportData (<[id := data]> (w_reportData w)) w)
  end.
End firestore.

(** ** The pipeline *)

Section pipeline.
Context {E : Type} (X : externals E).

(** Lines 152-170. *)
Definition downloadAndExtractPdfText (pdfUrl : option jsval) : M E jsstring :=
  try_catch
    (response ← await (fetch_get X pdfUrl);
     (if ok response then mret ()
      else throw ("Failed to download PDF: " +:+ statusText response));;
     pdfBuffer ← await (response_arrayBuffer X response);
     await (pdfParse X pdfBuffer))
    (λ error,
       console ("Error extracting PDF text: " +:+ error);;
       throw error).

(** [process.env.CLAUDE_API_KEY || process.env.NEXT_PUBLIC_CLAUDE_API_KEY];
    the empty string is falsy. *)
Definition env_truthy (v : option string) : option string :=
  match v with
  | Some s => if decide (s = EmptyString) then None else Some s
  | None => None
  end.

Definition claude_api_key : option string :=
  match env_truthy (env X "CLAUDE_API_KEY") with
  | Some key => Some key
  | None => env_truthy (env X "NEXT_PUBLIC_CLAUDE_API_KEY")
  end.

(** [JSON.parse], which allocates the objects it builds. *)
Definition parse_json (jsonString : string) : M E parsed := λ w,
  match JSON_parse X jsonString (w_heap w) with
  | Normal (r, h) => (Normal r, set_heap h w)
  | Throw e => (Throw e, w)
  end.

(** Lines 458-518. *)
Definition callClaudeAPI (systemPrompt : system_prompt)
    (userPrompt : user_prompt) : M E parsed :=
  try_catch
    (apiKey ← match claude_api_key with
              | Some key => mret key
              | None => throw "Claude API key not found"
              end;
     response ← await (fetch_post X
                 {| rq_apiKey := apiKey; rq_system := systemPrompt;
                    rq_user := userPrompt |});
     (if ok response then mret ()
      else
        errorText ← await (response_text X response);
        throw ("Claude API error: " +:+ pretty (status response) +:+ " "
               +:+ statusText response +:+ " - " +:+ errorText));;
     data ← await (response_json X response);
     text ← match content data with
            | Some (text :: _) => mret text
            | _ => throw "Empty response from Claude API"
            end;
     try_catch (parse_json (extract_json X text))
       (λ parseError,
          console ("Error parsing Claude response as JSON: " +:+ parseError);;
          console ("Raw response: " +:+ text);;
          throw "Failed to parse Claude response as JSON"))
    (λ error,
       console ("Error calling Claude API: " +:+ error);;
       throw error).

(** Lines 422-442: the rest of the loop from the chunk of index [i]
    (counted from 0), with the array [results] filled so far. *)
Fixpoint process_chunks (systemPrompt : system_prompt)
    (year : option jsval) (libraryName : jsval) (count i : nat)
    (chunks : list jsstring) (results : list parsed)
  : M E (list parsed) :=
  match chunks with
  | [] => mret results
  | chunk :: chunks' =>
      console ("Processing chunk " +:+ pretty (S i) +:+ " of "
               +:+ pretty count);;
      results' ←
        try_catch
          (chunkResult ← callClaudeAPI systemPrompt
             {| up_index := S i; up_count := count; up_year := year;
                up_libraryName := libraryName; up_text := chunk |};
           mret (results ++ [chunkResult]))
          (λ error,
             console ("Error processing chunk " +:+ pretty (S i) +:+ ": "
                      +:+ error);;
             mret results);
      process_chunks systemPrompt year libraryName count (S i) chunks'
        results'
  end.

(** The records of parsed answers that are all well-shaped. *)
Definition well_shaped (results : list parsed)
  : option (list PartialReportData) :=
  mapM (λ result,
      match result with
      | WellShaped r => Some r
      | _ => None
      end)
    results.

(** [mergeResults(results)] on the heap of the run.  The first loop reads
    [result.libraryOverview] of every element, which throws when the
    element is [null] and at no other value that JSON can give; so a
    [null] among the answers is a [TypeError] before anything is allocated.
    On well-shaped answers the function is [mergeResults]. *)
Definition merge_in_heap (results : list parsed)
  : M E PartialReportData := λ w,
  if bool_decide (JsonNull ∈ results) then (Throw (type_error_null X), w)
  else
    match well_shaped results with
    | Some records =>
        let '(merged, h) := mergeResults records (w_heap w) in
        (Normal merged, set_heap h w)
    | None =>
        match merge_ill_shaped X results (w_heap w) with
        | Normal (merged, h) => (Normal merged, set_heap h w)
        | Throw e => (Throw e, w)
        end
    end.

(** Lines 301-450. *)
Definition processLargePdfWithClaudeAI (pdfText : jsstring)
    (year : option jsval) (libraryName : jsval) : M E PartialReportData :=
  try_catch
    (let chunks := splitTextIntoChunks pdfText 50000 in
     let systemPrompt :=
       {| sp_libraryName := libraryName; sp_year := year |} in
     results ← process_chunks systemPrompt year libraryName
                 (length chunks) 0 chunks [];
     merge_in_heap results)
    (λ error,
       console ("Error processing with Claude AI: " +:+ error);;
       throw error).

(** [libraryData.name || 'Unknown Library'] *)
Definition library_name (libraryData : document) : jsval :=
  match libraryData !! "name" with
  | Some (JStr s) =>
      if decide (s = EmptyString) then JStr "Unknown Library" else JStr s
  | Some (JNum n) =>
      if decide (n = 0%Z) then JStr "Unknown Library" else JNum n
  | None => JStr "Unknown Library"
  end.

Definition status_update (status : string) (updatedAt : Z) : document :=
  {[ "status" := JStr status; "updatedAt" := JNum updatedAt ]}.

(** Lines 66-145. *)
Definition processReportWithAI (reportId : string) : M E bool :=
  try_catch
    (now ← new_Date;
     updateDoc_reports X reportId (status_update "Processing" now);;
     reportDoc ← getDoc_reports X reportId;
     reportData ← match reportDoc with
                  | Some d => mret d
                  | None => throw "Report not found"
                  end;
     let pdfUrl := reportData !! "pdfPath" in
     let libraryId := reportData !! "libraryId" in
     let year := reportData !! "year" in
     libraryDoc ← getDoc_libraries X libraryId;
     libraryData ← match libraryDoc with
                   | Some d => mret d
                   | None => throw "Library not found"
                   end;
     let libraryName := library_name libraryData in
     pdfText ← downloadAndExtractPdfText pdfUrl;
     processedData ← processLargePdfWithClaudeAI pdfText year libraryName;
     createdAt ← new_Date;
     updatedAt ← new_Date;
     objects ← gets w_heap;
     setDoc_reportData X reportId
       {| rd_reportId := reportId; rd_libraryName := libraryName;
          rd_year := year; rd_sections := processedData;
          rd_objects := objects; rd_createdAt := createdAt;
          rd_updatedAt := updatedAt |};;
     now ← new_Date;
     updateDoc_reports X reportId (status_update "Completed" now);;
     mret true)
    (λ error,
       console ("Error processing report: " +:+ error);;
       try_catch
         (now ← new_Date;
          updateDoc_reports X reportId (status_update "Failed" now))
         (λ updateError,
            console ("Error updating report status: " +:+ updateError));;
       mret false).
End pipeline.

(** *** Vocabulary for the pipeline's properties *)

Section pipeline_vocabulary.
Context {E : Type} (X : externals E).

End pipeline_vocabulary.

(** A computation that completes normally in every world. *)
Definition never_throws {E A} (m : M E A) : Prop :=
  ∀ w, ∃ a w', m w = (Normal a, w').

(** Two states of the collection [reports] whose documents differ at most
    in the fields [status] and [updatedAt]. *)
Definition same_but_status (r r' : gmap string document) : Prop :=
  ∀ id key, key ≠ "status" → key ≠ "updatedAt" →
    (r' !! id) ≫= (λ d, d !! key) = (r !! id) ≫= (λ d, d !! key).

(** A computation that writes nothing else to the collection [reports]. *)
Definition keeps_reports {E A} (m : M E A) : Prop :=
  ∀ w, same_but_status (w_reports w) (w_reports (m w).2).



(** *** Sample worlds *)

(** A world without outside state in which the network is down: every
    request throws, Firestore accepts every operation, and no API key is
    set. *)
Definition offline_externals : externals unit :=
  {| env := λ _, None;
     firestore_fault := λ _ e, (None, e);
     fetch_get := λ _ e, (Throw "Network request failed", e);
     response_arrayBuffer := λ _ e, (Throw "Network request failed", e);
     pdfParse := λ _ e, (Throw "Invalid PDF structure", e);
     fetch_post := λ _ e, (Throw "Network request failed", e);
     response_text := λ _ e, (Throw "Network request failed", e);
     response_json := λ _ e, (Throw "Network request failed", e);
     extract_json := λ s, s;
     JSON_parse := λ _ _, Throw "Unexpected token";
     type_error_null :=
       "Cannot read properties of null (reading 'libraryOverview')";
     merge_ill_shaped := λ _ _, Throw "arr is not iterable" |}.

Definition empty_world : world unit :=
  {| w_heap := []; w_log := []; w_reports := ∅; w_libraries := ∅;
     w_reportData := ∅; w_clock := 0; w_ext := () |}.

(** The report "r1" of the library "lib1" is uploaded; the library has no
    document. *)
Definition orphan_report : document :=
  {[ "status" := JStr "Pending"; "pdfPath" := JStr "https://example/r1.pdf";
     "libraryId" := JStr "lib1"; "year" := JNum 2023 ]}.

Definition orphan_world : world unit :=
  set_reports {[ "r1" := orphan_report ]} empty_world.

(** *** Vocabulary for the paragraphs that [split] returns *)

(** No match of the separator starts at a code unit of [p] when [p] is
    followed by [rest]. *)
Definition separator_free (p rest : jsstring) : Prop :=
  ∀ t1 t2, p = t1 ++ t2 → t2 ≠ [] → match_separator (t2 ++ rest) = None.

(** The white space of a separator that ends just before [p] cannot go on
    into [p] followed by [rest]. *)
Definition starts_clean (p rest : jsstring) : Prop :=
  match_space_star_lf (p ++ rest) = None.

(** What [split] guarantees of the paragraphs it returns, from a paragraph
    on; [after_separator] says whether a separator comes before it.  A
    paragraph that is followed by a separator can be followed by anything
    without a separator starting in it; the last one is only known to hold
    no separator. *)
Fixpoint split_shape (after_separator : bool) (ps : list jsstring) : Prop :=
  match ps with
  | [] => True
  | p :: ps' =>
      match ps' with
      | [] =>
          separator_free p [] ∧ (after_separator = true → starts_clean p [])
      | _ :: _ =>
          (∀ rest, separator_free p rest)
          ∧ (after_separator = true → ∀ rest, starts_clean p rest)
          ∧ split_shape true ps'
      end
  end.

(** *** Vocabulary for one pass of the merger *)

(** The pass of the loop over [arrayProps] for the key [prop], started on
    the heap [hq]: the locals [items] and [nameMap], and the heap, when it
    ends. *)
Definition section_pass (prop : array_prop)
    (results : list PartialReportData) (hq : heap) : merge_acc * heap :=
  foldl (merge_array prop) ({| items := []; nameMap := ∅ |}, hq) results.

(** [names] with [name] added at the end unless it is there already. *)
Definition add_name (names : list (option json)) (name : option json)
  : list (option json) :=
  if decide (name ∈ names) then names else names ++ [name].

(** *** More sample worlds, and what a run may change *)

(** A parsed answer with every section: three scalar groups, one entry in
    each array, and findings; [JSON.parse] allocates the ten objects. *)
Definition complete_answer (h : heap) : parsed * heap :=
  let n := length h in
  (WellShaped
     {| libraryOverview := Some n;
        collectionOverview := Some (n + 1);
        usageStatistics := Some (n + 2);
        collectionData := Some [n + 3];
        circulationData := Some [n + 4];
        revenueData := Some [n + 5];
        expenseData := Some [n + 6];
        programData := Some [n + 7];
        venueData := Some [n + 8];
        summerReadingData := Some [n + 9];
        keyFindings :=
          Some {| strengths := Some ["Programs"];
                  areasForDevelopment := Some ["Outreach"] |} |},
   h ++ [{[ "populationServed" := Num (number_of_Z 16000) ]};
         {[ "totalItems" := Num (number_of_Z 52000) ]};
         {[ "physicalItemCirculation" := Num (number_of_Z 81000) ]};
         category "Adult Fiction" 10; category "Books" 7;
         category "Grants" 3; category "Staff" 2;
         category "Story time" 12; category "Main branch" 4;
         category "Children" 30]).

(** A world in which every service answers: the download gives a document
    of one paragraph, the API answers every request with a text that
    [JSON.parse] turns into [answer], and [key] is the value of
    [CLAUDE_API_KEY]. *)
Definition answering_externals (key : option string)
    (answer : heap → parsed * heap) : externals unit :=
  {| env := λ name, if decide (name = "CLAUDE_API_KEY") then key else None;
     firestore_fault := λ _ e, (None, e);
     fetch_get := λ _ e,
       (Normal {| ok := true; status := 200; statusText := "OK";
                  body := [] |}, e);
     response_arrayBuffer := λ response e, (Normal (body response), e);
     pdfParse := λ _ e, (Normal (js "Annual report"), e);
     fetch_post := λ _ e,
       (Normal {| ok := true; status := 200; statusText := "OK";
                  body := [] |}, e);
     response_text := λ _ e, (Normal "{}", e);
     response_json := λ _ e, (Normal {| content := Some ["{}"] |}, e);
     extract_json := λ s, s;
     JSON_parse := λ _ h, Normal (answer h);
     type_error_null :=
       "Cannot read properties of null (reading 'libraryOverview')";
     merge_ill_shaped := λ _ _, Throw "arr is not iterable" |}.

(** The API answers with a complete record. *)
Definition online_externals (key : option string) : externals unit :=
  answering_externals key complete_answer.


(** The report "r1" of the library "lib1", both with their documents. *)
Definition library_world : world unit :=
  {| w_heap := []; w_log := [];
     w_reports := {[ "r1" := orphan_report ]};
     w_libraries := {[ "lib1" := {[ "name" := JStr "Morristown" ]} ]};
     w_reportData := ∅; w_clock := 0; w_ext := () |}.

(** What a run for the report [reportId] may change in the world [w]: the
    collection [libraries] is as it was, the log has only grown, and the
    documents of the other reports and their data are as they were. *)
Definition own_records_only {E} (reportId : string) (w w' : world E)
  : Prop :=
  w_libraries w' = w_libraries w
  ∧ w_log w `prefix_of` w_log w'
  ∧ ∀ id, id ≠ reportId →
      w_reports w' !! id = w_reports w !! id
      ∧ w_reportData w' !! id = w_reportData w !! id.

(** A computation that changes nothing else, in any world. *)
Definition touches_only {E A} (reportId : string) (m : M E A) : Prop :=
  ∀ w, own_records_only reportId w (m w).2.

(** ** The API route that processes a report
    ([src/components/layout/Footer.tsx], lines 117-140) *)

(** A request, as far as the route reads it: the method and the body.  The
    body is [None] when [req.body] is [undefined] or [null], of which no
    property can be read; for any other body it is the property [reportId]
    of the body, [None] when it has none (an object without it, a string, a
    number, a boolean), and a string when it is there. *)
Record NextApiRequest := {
  req_method : string;
  req_body : option (option string) }.

(** The JSON bodies that the route sends: [{ error }] and [{ success }]. *)
Inductive response_json_body :=
  | ErrorBody (error : string)
  | SuccessBody (success : bool).

(** [res.status(code).json(body)] *)
Record NextApiResponse := {
  res_status : Z;
  res_json : response_json_body }.

Section process_report_route.
Context {E : Type} (X : externals E).

(** Lines 117-140.  Reading [reportId] off a body that is [undefined] or
    [null] throws before the [try] is entered; the empty string is
    falsy. *)
Definition handler (req : NextApiRequest) : M E NextApiResponse :=
  if decide (req_method req ≠ "POST") then
    mret {| res_status := 405; res_json := ErrorBody "Method not allowed" |}
  else
    reportId ← match req_body req with
                | Some reportId => mret reportId
                | None =>
                    throw "Cannot destructure property 'reportId' of 'req.body'"
                end;
    match reportId with
    | Some (String _ _ as reportId) =>
        try_catch
          (success ← processReportWithAI X reportId;
           mret {| res_status := 200; res_json := SuccessBody success |})
          (λ error,
             console ("Error processing report: " +:+ error);;
             mret {| res_status := 500;
                     res_json :=
                       ErrorBody (if decide (error = EmptyString)
                                  then "Failed to process report"
                                  else error) |})
    | _ =>
        mret {| res_status := 400;
                res_json := ErrorBody "Report ID is required" |}
    end.
End process_report_route.

(** * Properties *)

(** ** The paragraph split *)

Section chunker_properties.
Local Open Scope Z_scope.

Lemma split_loop_cons piece c s' :
  split_loop piece (c :: s') =
  match match_separator (c :: s') with
  | Some r => piece :: split_loop [] r
  | None => split_loop (piece ++ [c]) s'
  end.
Proof.
  rewrite split_loop_equation_2.
  destruct (inspect (match_separator (c :: s'))) as [[r|] E];
    unfold split_loop_unfold_clause_2; by rewrite E.
Qed.

Lemma split_separators_cons c s' :
  split_separators (c :: s') =
  match match_separator (c :: s') with
  | Some r => take (length (c :: s') - length r) (c :: s') :: split_separators r
  | None => split_separators s'
  end.
Proof.
  rewrite split_separators_equation_2.
  destruct (inspect (match_separator (c :: s'))) as [[r|] E];
    unfold split_separators_unfold_clause_2; by rewrite E.
Qed.

Lemma is_line_feed_true c : is_line_feed c = true → c = LF.
Proof. unfold is_line_feed. by intros ?%bool_decide_eq_true. Qed.

Lemma match_space_star_lf_inv s r :
  match_space_star_lf s = Some r →
  ∃ w, s = w ++ LF :: r ∧ Forall (λ c, is_js_space c = true) w.
Proof.
  revert r. induction s as [|c s IH]; intros r; simpl; [done|].
  destruct (is_js_space c) eqn:Hc.
  - destruct (match_space_star_lf s) as [r'|].
    + intros [= <-]. destruct (IH _ eq_refl) as (w & -> & Hw).
      exists (c :: w). split; [done|]. by constructor.
    + destruct (is_line_feed c) eqn:Hlf; intros [= <-].
      apply is_line_feed_true in Hlf as ->. by exists [].
  - destruct (is_line_feed c) eqn:Hlf; intros [= <-].
    apply is_line_feed_true in Hlf as ->. by exists [].
Qed.

Lemma match_separator_inv s r :
  match_separator s = Some r →
  ∃ w, s = (LF :: w ++ [LF]) ++ r ∧ Forall (λ c, is_js_space c = true) w.
Proof.
  destruct s as [|c s]; simpl; [done|].
  destruct (is_line_feed c) eqn:Hlf; [|done].
  apply is_line_feed_true in Hlf as ->.
  intros (w & -> & Hw)%match_space_star_lf_inv. exists w. split; [|done].
  simpl. by rewrite <- app_assoc.
Qed.

Lemma split_weave_aux n : ∀ s piece, (length s ≤ n)%nat →
  weave (split_loop piece s) (split_separators s) = piece ++ s
  ∧ length (split_loop piece s) = S (length (split_separators s))
  ∧ Forall is_separator (split_separators s).
Proof.
  induction n as [|n IH]; intros [|c s'] piece Hn; simpl in Hn; try lia.
  - simp split_loop split_separators. simpl. by rewrite !app_nil_r.
  - simp split_loop split_separators. simpl. by rewrite !app_nil_r.
  - rewrite split_loop_cons, split_separators_cons.
    destruct (match_separator (c :: s')) as [r|] eqn:E.
    + destruct (match_separator_inv _ _ E) as (w & Hs & Hw).
      assert (length r ≤ n)%nat as Hr.
      { apply (f_equal length) in Hs. rewrite length_app in Hs.
        simpl in Hs. lia. }
      destruct (IH r [] Hr) as (IH1 & IH2 & IH3).
      rewrite Hs. rewrite take_app_length' by (rewrite length_app; lia).
      split_and!.
      * simpl. rewrite IH1. simpl. by rewrite <- !app_assoc.
      * simpl. by rewrite IH2.
      * constructor; [by exists w|done].
    + destruct (IH s' (piece ++ [c])) as (IH1 & IH2 & IH3); [lia|].
      split_and!; [|done..]. by rewrite IH1, <- app_assoc.
Qed.

(** The paragraphs and the separators between them make up the text. *)
Lemma split_paragraphs_weave text :
  weave (split_paragraphs text) (split_separators text) = text
  ∧ length (split_paragraphs text) = S (length (split_separators text))
  ∧ Forall is_separator (split_separators text).
Proof. exact (split_weave_aux (length text) text [] (le_n _)). Qed.

(** ** The chunker *)

Lemma truthy_string_true s : truthy_string s = true ↔ s ≠ [].
Proof. by destruct s. Qed.

Lemma truthy_string_false s : truthy_string s = false ↔ s = [].
Proof. by destruct s. Qed.

Lemma string_length_pos s : string_length s > 0 ↔ s ≠ [].
Proof.
  unfold string_length. destruct s; simpl; [|split; [done|lia]].
  split; [lia|done].
Qed.

Lemma chunk_step_push maxChars chunks cur p :
  string_length cur + string_length p > maxChars → cur ≠ [] →
  chunk_step maxChars (chunks, cur) p = (chunks ++ [cur], p).
Proof.
  intros H1 H2%string_length_pos. unfold chunk_step.
  by rewrite !bool_decide_eq_true_2.
Qed.

Lemma chunk_step_first maxChars chunks p :
  chunk_step maxChars (chunks, []) p = (chunks, p).
Proof.
  unfold chunk_step. rewrite (bool_decide_eq_false_2 (string_length [] > 0))
    by (unfold string_length; simpl; lia).
  by rewrite andb_false_r.
Qed.

Lemma chunk_step_cases maxChars chunks cur p :
  (cur ≠ [] ∧ string_length cur + string_length p > maxChars
     ∧ chunk_step maxChars (chunks, cur) p = (chunks ++ [cur], p))
  ∨ (cur ≠ [] ∧ chunk_step maxChars (chunks, cur) p
                 = (chunks, cur ++ blank_line ++ p))
  ∨ (cur = [] ∧ chunk_step maxChars (chunks, cur) p = (chunks, p)).
Proof.
  destruct (decide (cur = [])) as [->|Hne].
  { right; right. split; [done|]. apply chunk_step_first. }
  destruct (decide (string_length cur + string_length p > maxChars))
    as [Hgt|Hle].
  { left. split_and!; [done..|]. by apply chunk_step_push. }
  right; left. split; [done|]. unfold chunk_step.
  rewrite (bool_decide_eq_false_2 _ Hle). simpl.
  by apply truthy_string_true in Hne as ->.
Qed.

Lemma weave_snoc ps js p j :
  S (length js) = length ps →
  weave (ps ++ [p]) (js ++ [j]) = weave ps js ++ j ++ p.
Proof.
  revert js. induction ps as [|a ps IH]; intros js Hlen; simpl in *; [lia|].
  destruct js as [|j0 js]; simpl in *.
  - destruct ps; [|done]. simpl. by rewrite !app_nil_r, <- ?app_assoc.
  - rewrite IH by lia. by rewrite <- ?app_assoc.
Qed.

(** Invariant of the loop for the round trip: the chunks pushed so far
    followed by the current chunk are the paragraphs seen so far, woven
    with joiners. *)
Lemma chunk_loop_weave maxChars ps :
  ps ≠ [] →
  ∃ js, S (length js) = length ps ∧ Forall is_joiner js
    ∧ concat (foldl (chunk_step maxChars) ([], []) ps).1
        ++ (foldl (chunk_step maxChars) ([], []) ps).2 = weave ps js.
Proof.
  induction ps as [|p ps IH] using rev_ind; [done|]. intros _.
  rewrite foldl_app. cbn [foldl].
  destruct (decide (ps = [])) as [->|Hps].
  { exists []. cbn [foldl]. rewrite chunk_step_first. simpl.
    by rewrite app_nil_r. }
  destruct (IH Hps) as (js & Hlen & Hjs & Hw).
  destruct (foldl (chunk_step maxChars) ([], []) ps) as [chunks cur].
  simpl in Hw.
  destruct (chunk_step_cases maxChars chunks cur p)
    as [(_ & _ & ->)|[(_ & ->)|(-> & ->)]]; cbn [fst snd].
  - exists (js ++ [[]]). rewrite length_app, (weave_snoc _ _ _ _ Hlen), <- Hw.
    split_and!; [simpl; rewrite length_app; simpl; lia| |].
    + apply Forall_app. split; [done|]. constructor; [by right|done].
    + rewrite concat_app. simpl. by rewrite !app_nil_r, <- !app_assoc.
  - exists (js ++ [blank_line]).
    rewrite length_app, (weave_snoc _ _ _ _ Hlen), <- Hw.
    split_and!; [simpl; rewrite length_app; simpl; lia| |].
    + apply Forall_app. split; [done|]. constructor; [by left|done].
    + by rewrite <- !app_assoc.
  - exists (js ++ [[]]). rewrite length_app, (weave_snoc _ _ _ _ Hlen), <- Hw.
    split_and!; [simpl; rewrite length_app; simpl; lia| |].
    + apply Forall_app. split; [done|]. constructor; [by right|done].
    + by rewrite !app_nil_r.
Qed.

Lemma combine_paragraphs_concat maxChars ps :
  concat (combine_paragraphs maxChars ps)
  = concat (foldl (chunk_step maxChars) ([], []) ps).1
      ++ (foldl (chunk_step maxChars) ([], []) ps).2.
Proof.
  unfold combine_paragraphs.
  destruct (foldl (chunk_step maxChars) ([], []) ps) as [chunks cur]. simpl.
  destruct cur as [|c cur]; simpl; [by rewrite app_nil_r|].
  rewrite concat_app. simpl. by rewrite app_nil_r.
Qed.

Lemma join_paragraphs_nil g : join_paragraphs g = [] → nonblank g = [].
Proof.
  destruct g as [|p [|q g]]; simpl; [done| |].
  - by intros ->.
  - intros [-> H]%app_eq_nil. done.
Qed.

Lemma join_paragraphs_snoc g p :
  g ≠ [] →
  join_paragraphs (g ++ [p]) = join_paragraphs g ++ blank_line ++ p.
Proof.
  induction g as [|a g IH]; [done|]. intros _.
  destruct g as [|b g]; [done|].
  change (a ++ blank_line ++ join_paragraphs ((b :: g) ++ [p])
          = (a ++ blank_line ++ join_paragraphs (b :: g)) ++ blank_line ++ p).
  rewrite IH by done. by rewrite <- !app_assoc.
Qed.

(** Invariant of the loop for paragraph preservation: the pushed chunks and
    the current chunk are joins of consecutive groups of the paragraphs seen
    so far, from which only empty paragraphs have been left out. *)
Lemma chunk_loop_groups maxChars ps :
  ∃ groups g,
    (foldl (chunk_step maxChars) ([], []) ps).1 = join_paragraphs <$> groups
    ∧ (foldl (chunk_step maxChars) ([], []) ps).2 = join_paragraphs g
    ∧ Forall (λ g, join_paragraphs g ≠ []) groups
    ∧ concat groups ++ g `sublist_of` ps
    ∧ nonblank (concat groups ++ g) = nonblank ps.
Proof.
  induction ps as [|p ps IH] using rev_ind.
  { exists [], []. by split_and!. }
  destruct IH as (groups & g & Hch & Hcur & Hne & Hsub & Hnb).
  rewrite foldl_app. cbn [foldl].
  destruct (foldl (chunk_step maxChars) ([], []) ps) as [chunks cur].
  simpl in Hch, Hcur. subst chunks cur. unfold nonblank in *.
  destruct (chunk_step_cases maxChars (join_paragraphs <$> groups)
              (join_paragraphs g) p)
    as [(Hg & _ & ->)|[(Hg & ->)|(Hg & ->)]]; cbn [fst snd].
  - exists (groups ++ [g]), [p]. split_and!.
    + by rewrite fmap_app.
    + done.
    + apply Forall_app. split; [done|]. by constructor.
    + rewrite concat_app. simpl. rewrite app_nil_r.
      by apply sublist_app.
    + rewrite concat_app. simpl. rewrite app_nil_r.
      by rewrite !(filter_app _ _ [p]), Hnb.
  - exists groups, (g ++ [p]). split_and!; [done| |done| |].
    + rewrite join_paragraphs_snoc; [done|]. by intros ->.
    + rewrite app_assoc. by apply sublist_app.
    + rewrite app_assoc. by rewrite !(filter_app _ _ [p]), Hnb.
  - exists groups, [p]. split_and!; [done..| |].
    + apply sublist_app; [|done].
      etrans; [|exact Hsub]. apply sublist_inserts_r. done.
    + rewrite !(filter_app _ _ [p]), <- Hnb. f_equal.
      apply join_paragraphs_nil in Hg. unfold nonblank in Hg.
      by rewrite filter_app, Hg, app_nil_r.
Qed.

Lemma combine_paragraphs_groups maxChars ps :
  ∃ groups,
    combine_paragraphs maxChars ps = join_paragraphs <$> groups
    ∧ Forall (λ g, join_paragraphs g ≠ []) groups
    ∧ concat groups `sublist_of` ps
    ∧ nonblank (concat groups) = nonblank ps.
Proof.
  destruct (chunk_loop_groups maxChars ps)
    as (groups & g & Hch & Hcur & Hne & Hsub & Hnb).
  unfold combine_paragraphs.
  destruct (foldl (chunk_step maxChars) ([], []) ps) as [chunks cur].
  simpl in Hch, Hcur. subst chunks cur.
  destruct (truthy_string (join_paragraphs g)) eqn:Ht.
  - apply truthy_string_true in Ht. exists (groups ++ [g]). split_and!.
    + by rewrite fmap_app.
    + apply Forall_app. split; [done|]. by constructor.
    + rewrite concat_app. simpl. by rewrite app_nil_r.
    + rewrite concat_app. simpl. by rewrite app_nil_r.
  - apply truthy_string_false, join_paragraphs_nil in Ht.
    exists groups. split_and!; [done..| |].
    + etrans; [|exact Hsub]. by apply sublist_inserts_r.
    + rewrite <- Hnb. unfold nonblank in *.
      by rewrite filter_app, Ht, app_nil_r.
Qed.

(** Chunks accumulate by appending: the chunks already pushed do not
    influence the rest of the loop. *)
Lemma chunk_step_prefix maxChars pre chunks cur p :
  chunk_step maxChars (pre ++ chunks, cur) p
  = (pre ++ (chunk_step maxChars (chunks, cur) p).1,
     (chunk_step maxChars (chunks, cur) p).2).
Proof.
  unfold chunk_step.
  destruct (bool_decide _ && bool_decide _); simpl; [|done].
  by rewrite app_assoc.
Qed.

Lemma chunk_loop_prefix maxChars pre chunks cur ps :
  foldl (chunk_step maxChars) (pre ++ chunks, cur) ps
  = (pre ++ (foldl (chunk_step maxChars) (chunks, cur) ps).1,
     (foldl (chunk_step maxChars) (chunks, cur) ps).2).
Proof.
  revert chunks cur. induction ps as [|p ps IH]; intros chunks cur; [done|].
  cbn [foldl]. rewrite chunk_step_prefix.
  destruct (chunk_step maxChars (chunks, cur) p) as [chunks' cur'].
  apply IH.
Qed.

Lemma combine_paragraphs_from maxChars chunks p ps :
  p ≠ [] →
  (let '(c, cur) := foldl (chunk_step maxChars) (chunks, p) ps in
   if truthy_string cur then c ++ [cur] else c)
  = chunks ++ combine_paragraphs maxChars (p :: ps).
Proof.
  intros Hp. unfold combine_paragraphs. cbn [foldl].
  rewrite chunk_step_first.
  rewrite <- (app_nil_r chunks) at 1. rewrite chunk_loop_prefix.
  destruct (foldl (chunk_step maxChars) ([], p) ps) as [c cur]. simpl.
  destruct (truthy_string cur); [|done]. by rewrite <- app_assoc.
Qed.

(** A paragraph longer than the budget is a chunk of its own. *)
Lemma combine_paragraphs_oversized maxChars before p after :
  0 ≤ maxChars → string_length p > maxChars →
  combine_paragraphs maxChars (before ++ p :: after)
  = combine_paragraphs maxChars before
      ++ p :: combine_paragraphs maxChars after.
Proof.
  intros H0 Hp.
  assert (p ≠ []) as Hne by (apply string_length_pos; lia).
  assert (∀ chunks, (let '(c, cur) :=
            foldl (chunk_step maxChars) (chunks, p) after in
            if truthy_string cur then c ++ [cur] else c)
          = chunks ++ p :: combine_paragraphs maxChars after) as Hafter.
  { intros chunks. destruct after as [|q after].
    - simpl. by apply truthy_string_true in Hne as ->.
    - cbn [foldl].
      rewrite chunk_step_push; [|unfold string_length in *; lia|done].
      destruct (decide (q = [])) as [->|Hq].
      + (* an empty paragraph after the oversized one is dropped *)
        unfold combine_paragraphs. cbn [foldl]. rewrite chunk_step_first.
        rewrite <- (app_nil_r (chunks ++ [p])) at 1.
        rewrite chunk_loop_prefix.
        destruct (foldl (chunk_step maxChars) ([], []) after) as [c cur].
        simpl. destruct (truthy_string cur); by rewrite <- !app_assoc.
      + rewrite combine_paragraphs_from by done. by rewrite <- app_assoc. }
  unfold combine_paragraphs at 1. rewrite foldl_app. cbn [foldl].
  unfold combine_paragraphs at 1.
  destruct (foldl (chunk_step maxChars) ([], []) before) as [chunks cur].
  destruct (chunk_step_cases maxChars chunks cur p)
    as [(Hc & _ & ->)|[(Hc & E)|(-> & ->)]].
  - rewrite Hafter. by apply truthy_string_true in Hc as ->.
  - exfalso.
    rewrite chunk_step_push in E; [|unfold string_length in *; lia|done].
    injection E as E1 E2. apply (f_equal length) in E1.
    rewrite length_app in E1. simpl in E1. lia.
  - rewrite Hafter. done.
Qed.

Lemma chunk_loop_nonempty maxChars ps :
  Forall (λ c, c ≠ []) (foldl (chunk_step maxChars) ([], []) ps).1
  ∧ ((foldl (chunk_step maxChars) ([], []) ps).1 ≠ []
      ∨ (foldl (chunk_step maxChars) ([], []) ps).2 ≠ []
     ↔ ∃ p, p ∈ ps ∧ p ≠ []).
Proof.
  induction ps as [|p ps IH] using rev_ind.
  { simpl. split; [done|]. split; [by intros [?|?]|].
    by intros (p & ?%elem_of_nil & _). }
  rewrite foldl_app. cbn [foldl].
  destruct (foldl (chunk_step maxChars) ([], []) ps) as [chunks cur].
  simpl in IH. destruct IH as [IH1 IH2].
  setoid_rewrite elem_of_app. setoid_rewrite list_elem_of_singleton.
  destruct (chunk_step_cases maxChars chunks cur p)
    as [(Hc & _ & ->)|[(Hc & ->)|(-> & ->)]]; cbn [fst snd].
  - split; [apply Forall_app; split; [done|by constructor]|].
    split; [|intros _; left; by destruct chunks].
    intros _. destruct IH2 as [IH2 _].
    destruct IH2 as (q & ? & ?); [by right|]. exists q. by split; [left|].
  - split; [done|]. split; [|intros _; right; by destruct cur].
    intros _. destruct IH2 as [IH2 _].
    destruct IH2 as (q & ? & ?); [by right|]. exists q. by split; [left|].
  - split; [done|]. split.
    + intros [H|H].
      * destruct IH2 as [IH2 _]. destruct IH2 as (q & ? & ?); [by left|].
        exists q. by split; [left|].
      * exists p. by split; [right|].
    + intros (q & [Hq| ->] & Hne); [|by right].
      destruct IH2 as [_ IH2].
      destruct IH2 as [?|?]; [by exists q|by left|done].
Qed.

(** Under a budget that is zero or negative no two paragraphs share a
    chunk: every non-empty paragraph is a chunk. *)
Lemma chunk_loop_nonpositive maxChars ps :
  maxChars ≤ 0 →
  (foldl (chunk_step maxChars) ([], []) ps).1
    ++ nonblank [(foldl (chunk_step maxChars) ([], []) ps).2]
  = nonblank ps.
Proof.
  intros Hmax. induction ps as [|p ps IH] using rev_ind; [done|].
  rewrite foldl_app. cbn [foldl]. unfold nonblank in *.
  rewrite filter_app, <- IH.
  destruct (foldl (chunk_step maxChars) ([], []) ps) as [chunks cur].
  cbn [fst snd].
  destruct (chunk_step_cases maxChars chunks cur p)
    as [(Hc & _ & ->)|[(Hc & E)|(-> & ->)]]; cbn [fst snd].
  - by rewrite (filter_cons_True _ cur) by done.
  - exfalso. rewrite chunk_step_push in E; [| |done].
    + injection E as E1 E2. apply (f_equal length) in E1.
      rewrite length_app in E1. simpl in E1. lia.
    + apply string_length_pos in Hc. unfold string_length in *. lia.
  - by rewrite (filter_cons_False _ []), app_nil_r by (by intros H).
Qed.

Lemma combine_paragraphs_nonpositive maxChars ps :
  maxChars ≤ 0 → combine_paragraphs maxChars ps = nonblank ps.
Proof.
  intros Hmax. rewrite <- (chunk_loop_nonpositive maxChars ps Hmax).
  unfold combine_paragraphs, nonblank.
  destruct (foldl (chunk_step maxChars) ([], []) ps) as [chunks cur].
  cbn [fst snd]. destruct cur as [|c cur]; simpl.
  - by rewrite app_nil_r.
  - done.
Qed.

(** Every chunk is non-empty, and there is a chunk exactly when some
    paragraph is non-empty. *)
Lemma combine_paragraphs_nonempty maxChars ps :
  Forall (λ c, c ≠ []) (combine_paragraphs maxChars ps)
  ∧ (combine_paragraphs maxChars ps ≠ [] ↔ ∃ p, p ∈ ps ∧ p ≠ []).
Proof.
  destruct (chunk_loop_nonempty maxChars ps) as [H1 H2].
  unfold combine_paragraphs.
  destruct (foldl (chunk_step maxChars) ([], []) ps) as [chunks cur].
  simpl in *. destruct (truthy_string cur) eqn:Ht.
  - apply truthy_string_true in Ht.
    split; [apply Forall_app; split; [done|by constructor]|].
    rewrite <- H2. split; [by right|]. intros _. by destruct chunks.
  - apply truthy_string_false in Ht as ->. split; [done|].
    rewrite <- H2. split; [by left|]. by intros [?|?].
Qed.

(** The split on a few texts: a separator may hold white space, a text that
    begins or ends with a separator has an empty first or last paragraph,
    and a single line feed is no separator. *)
Example split_paragraphs_spaced :
  split_paragraphs (js "a" ++ [LF; 32%N; 9%N; LF; LF] ++ js "b")
  = [js "a"; js "b"].
Proof. reflexivity. Qed.

Example split_paragraphs_edges :
  split_paragraphs ([LF; LF] ++ js "a" ++ [LF] ++ js "b" ++ [LF; LF])
  = [[]; js "a" ++ [LF] ++ js "b"; []].
Proof. reflexivity. Qed.

Example split_paragraphs_empty : split_paragraphs [] = [[]].
Proof. reflexivity. Qed.

(** Under the default budget a short text is one chunk, its paragraphs
    joined by blank lines. *)
Example splitTextIntoChunks_short :
  splitTextIntoChunks (js "a" ++ [LF; LF] ++ js "b") 50000
  = [js "a" ++ [LF; LF] ++ js "b"].
Proof. reflexivity. Qed.

(** C1, as stated, fails: with a budget of one token (four characters) the
    text ["aaa\n\nbbb"] is cut into ["aaa"] and ["bbb"], whose concatenation
    has lost the blank line; and under the default budget the separator of
    ["a\n \nb"] comes back as ["\n\n"]. *)
Lemma chunk_round_trip_counterexample :
  0 < 1
  ∧ splitTextIntoChunks (js "aaa" ++ [LF; LF] ++ js "bbb") 1
    = [js "aaa"; js "bbb"]
  ∧ concat (splitTextIntoChunks (js "aaa" ++ [LF; LF] ++ js "bbb") 1)
    ≠ js "aaa" ++ [LF; LF] ++ js "bbb"
  ∧ concat (splitTextIntoChunks (js "a" ++ [LF; 32%N; LF] ++ js "b") 50000)
    ≠ js "a" ++ [LF; 32%N; LF] ++ js "b".
Proof.
  split; [lia|]. split; [reflexivity|]. split; vm_compute; discriminate.
Qed.

(** A text without a separator comes back as it is. *)
Corollary chunks_reproduce_unseparated_text text maxTokens :
  split_separators text = [] →
  concat (splitTextIntoChunks text maxTokens) = text.
Proof.
  intros Hnone.
  destruct (split_paragraphs_weave text) as (Hw & Hlen & _).
  unfold splitTextIntoChunks. rewrite combine_paragraphs_concat.
  destruct (chunk_loop_weave (maxTokens * charsPerToken)
              (split_paragraphs text)) as (js & Hjs & _ & ->).
  { intros E. rewrite E in Hlen. done. }
  rewrite Hnone in Hw, Hlen. simpl in Hlen.
  destruct js; [done|]. simpl in Hjs. lia.
Qed.

(** C8: for every text and positive budget, the chunks are the joins of
    consecutive groups of whole paragraphs: the groups, laid end to end, are
    the paragraphs of the text in order, from which only empty paragraphs may
    be missing.  And a paragraph longer than the budget is a chunk of its
    own: the chunks are those of the paragraphs before it, then the
    paragraph itself, then those of the paragraphs after it. *)
Theorem chunks_are_whole_paragraphs text maxTokens :
  0 < maxTokens →
  let paragraphs := split_paragraphs text in
  let chunks := splitTextIntoChunks text maxTokens in
  (∃ groups, chunks = join_paragraphs <$> groups
      ∧ Forall (λ g, g ≠ []) groups
      ∧ concat groups `sublist_of` paragraphs
      ∧ nonblank (concat groups) = nonblank paragraphs)
  ∧ (∀ before p after, paragraphs = before ++ p :: after →
       string_length p > maxTokens * charsPerToken →
       chunks = combine_paragraphs (maxTokens * charsPerToken) before
                ++ p :: combine_paragraphs (maxTokens * charsPerToken) after).
Proof.
  intros Hpos paragraphs chunks. split.
  - destruct (combine_paragraphs_groups (maxTokens * charsPerToken) paragraphs)
      as (groups & Hch & Hne & Hsub & Hnb).
    exists groups. split_and!; [done| |done..].
    eapply Forall_impl; [exact Hne|]. by intros [|??].
  - intros before p after Hps Hp. unfold chunks, splitTextIntoChunks.
    fold paragraphs. rewrite Hps.
    apply combine_paragraphs_oversized; [unfold charsPerToken; lia|done].
Qed.

Lemma chunks_are_whole_paragraphs_witness :
  0 < 1
  ∧ splitTextIntoChunks
      (js "aa" ++ [LF; LF] ++ js "bbbbbbbb" ++ [LF; 32%N; LF] ++ js "cc") 1
    = [js "aa"; js "bbbbbbbb"; js "cc"].
Proof.
  split; [lia|].
  exact (proj2 (chunks_are_whole_paragraphs
                  (js "aa" ++ [LF; LF] ++ js "bbbbbbbb" ++ [LF; 32%N; LF]
                     ++ js "cc") 1 eq_refl)
           [js "aa"] (js "bbbbbbbb") [js "cc"] eq_refl eq_refl).
Defined.

(** C9, as stated, fails twice: nothing rejects a budget (at budget 0 the
    chunker returns one chunk per paragraph), and a positive budget does not
    guarantee a chunk (the empty text has none). *)
Lemma chunker_budget_counterexample :
  splitTextIntoChunks (js "a" ++ [LF; LF] ++ js "b") 0 = [js "a"; js "b"]
  ∧ 0 < 50000
  ∧ splitTextIntoChunks [] 50000 = [].
Proof. split; [reflexivity|]. split; [lia|reflexivity]. Qed.

(** C9 (amended): the chunker is a total function of the text and the budget
    with no failure mode at all, also for a budget that is zero or negative;
    for every budget and text it returns an ordered sequence of non-empty
    chunks, and this sequence is non-empty exactly when the text has a
    non-empty paragraph.  A budget that is zero or negative is not rejected:
    it makes a chunk of every non-empty paragraph. *)
Theorem chunker_total_with_nonempty_chunks text maxTokens :
  Forall (λ chunk, chunk ≠ []) (splitTextIntoChunks text maxTokens)
  ∧ (splitTextIntoChunks text maxTokens ≠ []
     ↔ ∃ p, p ∈ split_paragraphs text ∧ p ≠ [])
  ∧ (maxTokens ≤ 0 →
     splitTextIntoChunks text maxTokens = nonblank (split_paragraphs text)).
Proof.
  destruct (combine_paragraphs_nonempty (maxTokens * charsPerToken)
              (split_paragraphs text)) as [H1 H2].
  split_and!; [done..|]. intros Hmax.
  apply combine_paragraphs_nonpositive. unfold charsPerToken. lia.
Qed.

Lemma chunker_total_with_nonempty_chunks_witness :
  -1 ≤ 0
  ∧ splitTextIntoChunks
      ([LF; LF] ++ js "a" ++ [LF; LF] ++ js "b" ++ [LF; LF]) (-1)
    = [js "a"; js "b"].
Proof.
  split; [lia|].
  exact (proj2 (proj2 (chunker_total_with_nonempty_chunks
    ([LF; LF] ++ js "a" ++ [LF; LF] ++ js "b" ++ [LF; LF]) (-1)))
    ltac:(lia)).
Defined.

End chunker_properties.

(** ** The merger *)

Lemma arrayProps_complete q : q ∈ arrayProps.
Proof. unfold arrayProps. destruct q; set_solver. Qed.

(** *** Reading and writing the heap *)

Lemma deref_lookup (h h' : heap) l :
  h !! l = h' !! l → deref h l = deref h' l.
Proof. unfold deref. rewrite !list_lookup_total_alt. by intros ->. Qed.

Lemma deref_app_l (h : heap) o l :
  l < length h → deref (h ++ [o]) l = deref h l.
Proof. intros. unfold deref. by apply lookup_total_app_l. Qed.

Lemma deref_app_new (h : heap) o : deref (h ++ [o]) (length h) = o.
Proof.
  unfold deref. apply list_lookup_total_correct, list_lookup_middle. done.
Qed.

Lemma deref_insert_eq (h : heap) l o :
  l < length h → deref (<[l:=o]> h) l = o.
Proof. intros. unfold deref. by apply list_lookup_total_insert_eq. Qed.

Lemma deref_insert_ne (h : heap) l l' o :
  l ≠ l' → deref (<[l:=o]> h) l' = deref h l'.
Proof. intros. unfold deref. by apply list_lookup_total_insert_ne. Qed.

Lemma entries_frame (h h' : heap) arr :
  (∀ l, l ∈ arr → h' !! l = h !! l) → entries h' arr = entries h arr.
Proof.
  intros H. unfold entries. apply list_fmap_ext. intros i l Hl.
  apply deref_lookup, H. by eapply list_elem_of_lookup_2.
Qed.

Lemma entries_insert (h : heap) arr i l o :
  NoDup arr → arr !! i = Some l → l < length h →
  entries (<[l:=o]> h) arr = <[i:=o]> (entries h arr).
Proof.
  intros Hnd Hi Hl. apply list_eq. intros j. unfold entries.
  destruct (decide (i = j)) as [<-|Hne].
  - rewrite list_lookup_insert_eq
      by (rewrite length_fmap; by eapply lookup_lt_Some).
    rewrite list_lookup_fmap, Hi. simpl. by rewrite deref_insert_eq.
  - rewrite list_lookup_insert_ne by done. rewrite !list_lookup_fmap.
    destruct (arr !! j) as [l'|] eqn:Hj; [|done]. simpl. f_equal.
    apply deref_insert_ne. intros <-. apply Hne.
    by eapply NoDup_lookup.
Qed.

(** *** The loop over the keys of an entry *)

Lemma js_get_lookup (o o' : jsobject) key :
  o !! key = o' !! key → js_get o key = js_get o' key.
Proof. unfold js_get. by intros ->. Qed.

Lemma js_set_lookup_eq (o : jsobject) key v :
  js_set o key v !! key
  = if decide (key = "__proto__" ∧ o !! key = None) then None else Some v.
Proof.
  unfold js_set. case_decide as Hproto.
  - by destruct Hproto as [_ ->].
  - by rewrite lookup_insert_eq.
Qed.

Lemma js_set_lookup_ne (o : jsobject) key key' v :
  key ≠ key' → js_set o key v !! key' = o !! key'.
Proof.
  intros Hne. unfold js_set. case_decide; [done|].
  by rewrite lookup_insert_ne.
Qed.

(** What the loop leaves under each key of [existingItem]. *)
Lemma merge_numeric_properties_lookup item existing key :
  merge_numeric_properties item existing !! key =
  match item !! key with
  | Some (Num n) =>
      if decide (key ≠ "name")
      then js_set existing key
             (js_plus_number (js_or_zero (js_get existing key)) n) !! key
      else existing !! key
  | _ => existing !! key
  end.
Proof.
  unfold merge_numeric_properties. revert key.
  apply (map_fold_weak_ind (λ r (m : jsobject), ∀ key,
    r !! key = match m !! key with
               | Some (Num n) =>
                   if decide (key ≠ "name")
                   then js_set existing key
                          (js_plus_number (js_or_zero (js_get existing key)) n)
                        !! key
                   else existing !! key
               | _ => existing !! key
               end)).
  - intros key. by rewrite lookup_empty.
  - intros i x m r Hi IH key. destruct (decide (i = key)) as [->|Hne].
    + rewrite lookup_insert_eq. pose proof (IH key) as Hkey.
      rewrite Hi in Hkey.
      destruct x as [n|s|hd ns]; [|done..].
      destruct (decide (key ≠ "name")); [|done].
      rewrite (js_get_lookup r existing) by done.
      by rewrite !js_set_lookup_eq, Hkey.
    + rewrite lookup_insert_ne by done. rewrite <- IH.
      destruct x as [n|s|hd ns]; [|done..].
      destruct (decide (i ≠ "name")); [|done].
      by rewrite js_set_lookup_ne.
Qed.

Lemma merge_numeric_properties_name item existing :
  entry_name (merge_numeric_properties item existing) = entry_name existing.
Proof.
  unfold entry_name. rewrite merge_numeric_properties_lookup.
  destruct (item !! "name") as [[n|s|hd ns]|]; [|done..].
  by destruct (decide ("name" ≠ "name")).
Qed.

(** On entries that are typed, have plain numbers and no key of
    [Object.prototype], the loop is the aggregation rule of the
    specification. *)
Lemma merge_numeric_properties_add existing item :
  numeric_fields existing → plain_fields existing → own_keys item →
  merge_numeric_properties item existing
  = spec_add_numeric_fields existing item.
Proof.
  intros Hty Hplain Hown. apply map_eq. intros key.
  rewrite merge_numeric_properties_lookup. unfold spec_add_numeric_fields.
  rewrite lookup_merge. destruct (decide (key = "name")) as [->|Hne].
  - rewrite lookup_delete_eq.
    destruct (item !! "name") as [[n|s|hd ns]|], (existing !! "name");
      try done.
  - rewrite lookup_delete_ne by done.
    destruct (item !! key) as [[n|s|hd ns]|] eqn:Hi; simpl;
      [|by destruct (existing !! key)..].
    rewrite decide_True by done. rewrite js_set_lookup_eq.
    pose proof (Hown _ _ Hi) as Hkey. unfold inherited_keys in Hkey.
    apply not_elem_of_cons in Hkey as [Hproto Hmethod].
    rewrite decide_False by (by intros [? _]).
    unfold js_get.
    destruct (existing !! key) as [v|] eqn:He; simpl.
    + pose proof (Hty _ _ He Hne) as Hnum. destruct v as [m| |]; [|done..].
      pose proof (Hplain _ _ He Hne) as [Hnan Hneg]. simpl.
      destruct m as [[]| | |]; done.
    + by rewrite !decide_False by done.
Qed.

Lemma spec_add_numeric_fields_name existing item :
  entry_name (spec_add_numeric_fields existing item) = entry_name existing.
Proof.
  unfold entry_name, spec_add_numeric_fields.
  rewrite lookup_merge, lookup_delete_eq. by destruct (existing !! "name").
Qed.

Lemma spec_add_numeric_fields_typed existing item :
  numeric_fields existing →
  numeric_fields (spec_add_numeric_fields existing item).
Proof.
  intros Hty key v Hv Hne. unfold spec_add_numeric_fields in Hv.
  rewrite lookup_merge, lookup_delete_ne in Hv by done.
  destruct (item !! key) as [[n|s|hd ns]|], (existing !! key) as [e|] eqn:He;
    simpl in Hv; simplify_eq; try done; by apply (Hty key).
Qed.

(** *** The invariant of the loops that fill [items] and [nameMap] *)

Lemma merge_inv_init h : merge_inv h {| items := []; nameMap := ∅ |} h.
Proof.
  split; simpl; [done|done| |constructor|].
  - by intros l ?%elem_of_nil.
  - intros name i. rewrite lookup_empty. split; [done|].
    by intros (l & ? & _).
Qed.

Lemma merge_item_inv h0 acc h l :
  merge_inv h0 acc h →
  merge_inv h0 (merge_item (acc, h) l).1 (merge_item (acc, h) l).2.
Proof.
  intros [Hlen Hframe Hfresh Hnd Hnames]. unfold merge_item.
  destruct (nameMap acc !! entry_name (deref h l)) as [index|] eqn:Hname.
  - destruct (items acc !! index) as [e|] eqn:He; simpl; [|by split].
    assert (e ∈ items acc) as Hin by by eapply list_elem_of_lookup_2.
    pose proof (Hfresh _ Hin) as He'.
    split; simpl.
    + by rewrite length_insert.
    + intros l' Hl'. rewrite list_lookup_insert_ne by lia. by apply Hframe.
    + intros l' Hl'. rewrite length_insert. by apply Hfresh.
    + done.
    + intros name i. rewrite Hnames. apply exist_proper. intros l'.
      destruct (decide (e = l')) as [<-|Hne].
      * rewrite deref_insert_eq by lia.
        by rewrite merge_numeric_properties_name.
      * by rewrite deref_insert_ne.
  - simpl. split; simpl.
    + rewrite length_app. lia.
    + intros l' Hl'. rewrite lookup_app_l by lia. by apply Hframe.
    + intros l' [Hl'| ->%list_elem_of_singleton]%elem_of_app;
        rewrite length_app; simpl; [apply Hfresh in Hl'|]; lia.
    + apply NoDup_app. split_and!; [done| |apply NoDup_singleton].
      intros l' Hl' ->%list_elem_of_singleton. apply Hfresh in Hl'. lia.
    + intros name i. fold (entry_name (deref h l)) in *.
      destruct (decide (i = length (items acc))) as [->|Hi].
      * rewrite list_lookup_middle by done. split.
        -- intros Hl. exists (length h). split; [done|].
           rewrite deref_app_new.
           destruct (decide (entry_name (deref h l) = name)) as [|Hne]; [done|].
           rewrite lookup_insert_ne in Hl by done.
           apply Hnames in Hl as (l' & Hl' & _).
           apply lookup_lt_Some in Hl'. lia.
        -- intros (l' & [= <-] & Hl'). rewrite deref_app_new in Hl'.
           rewrite Hl'. apply lookup_insert_eq.
      * split.
        -- intros Hl.
           destruct (decide (entry_name (deref h l) = name)) as [<-|Hne].
           { rewrite lookup_insert_eq in Hl. by simplify_eq. }
           rewrite lookup_insert_ne in Hl by done.
           apply Hnames in Hl as (l' & Hl' & Hn). exists l'.
           rewrite lookup_app_l by by eapply lookup_lt_Some.
           split; [done|]. rewrite deref_app_l; [done|].
           apply list_elem_of_lookup_2, Hfresh in Hl'. lia.
        -- intros (l' & Hl' & Hn).
           assert (i < length (items acc)) as Hlt.
           { apply lookup_lt_Some in Hl'. rewrite length_app in Hl'.
             simpl in Hl'. lia. }
           rewrite lookup_app_l in Hl' by done.
           rewrite deref_app_l in Hn
             by (apply list_elem_of_lookup_2, Hfresh in Hl'; lia).
           assert (nameMap acc !! name = Some i) as Hmap
             by (apply Hnames; eauto).
           rewrite lookup_insert_ne; [done|]. intros E. rewrite E in Hname.
           by rewrite Hname in Hmap.
Qed.

Lemma merge_items_inv h0 arr : ∀ acc h,
  merge_inv h0 acc h →
  merge_inv h0 (foldl merge_item (acc, h) arr).1
               (foldl merge_item (acc, h) arr).2.
Proof.
  induction arr as [|l arr IH]; intros acc h Hinv; [done|].
  cbn [foldl]. pose proof (merge_item_inv _ _ _ l Hinv) as Hinv'.
  destruct (merge_item (acc, h) l) as [acc' h']. by apply IH.
Qed.

Lemma merge_array_inv h0 prop result acc h :
  merge_inv h0 acc h →
  merge_inv h0 (merge_array prop (acc, h) result).1
               (merge_array prop (acc, h) result).2.
Proof.
  intros Hinv. unfold merge_array.
  destruct (get_array prop result); [by apply merge_items_inv|done].
Qed.

Lemma merge_arrays_inv h0 prop results : ∀ acc h,
  merge_inv h0 acc h →
  merge_inv h0 (foldl (merge_array prop) (acc, h) results).1
               (foldl (merge_array prop) (acc, h) results).2.
Proof.
  induction results as [|r results IH]; intros acc h Hinv; [done|].
  cbn [foldl]. pose proof (merge_array_inv _ prop r _ _ Hinv) as Hinv'.
  destruct (merge_array prop (acc, h) r) as [acc' h']. by apply IH.
Qed.

(** The names of the entries of [items] are pairwise distinct. *)
Lemma merge_inv_names_nodup h0 acc h :
  merge_inv h0 acc h → NoDup (entry_name <$> entries h (items acc)).
Proof.
  intros [_ _ _ _ Hnames]. apply NoDup_alt. intros i j name Hi Hj.
  unfold entries in *. rewrite !list_lookup_fmap in Hi, Hj.
  destruct (items acc !! i) as [li|] eqn:Eli; [|done].
  destruct (items acc !! j) as [lj|] eqn:Elj; [|done].
  simpl in Hi, Hj. simplify_eq.
  assert (nameMap acc !! entry_name (deref h li) = Some i) as H1
    by (apply Hnames; eauto).
  assert (nameMap acc !! entry_name (deref h li) = Some j) as H2
    by (apply Hnames; eauto).
  congruence.
Qed.

(** *** The loops refine the aggregation rule *)

Lemma array_entries_get r prop arr l :
  get_array prop r = Some arr → l ∈ arr → l ∈ array_entries r.
Proof.
  intros Harr Hl. unfold array_entries. apply list_elem_of_bind.
  exists prop. rewrite Harr. split; [done|apply arrayProps_complete].
Qed.

Lemma spec_add_entry_new item seen :
  (∀ e, e ∈ seen → entry_name e ≠ entry_name item) →
  spec_add_entry item seen = seen ++ [item].
Proof.
  induction seen as [|e seen IH]; intros Hnew; simpl; [done|].
  rewrite decide_False by (apply Hnew; left).
  rewrite IH; [done|]. intros e' He'. apply Hnew. by right.
Qed.

Lemma spec_add_entry_seen item seen i e :
  NoDup (entry_name <$> seen) → seen !! i = Some e →
  entry_name e = entry_name item →
  spec_add_entry item seen = <[i := spec_add_numeric_fields e item]> seen.
Proof.
  revert i. induction seen as [|e0 seen IH]; intros i Hnd Hi Hname; [done|].
  rewrite fmap_cons in Hnd. apply NoDup_cons in Hnd as [Hnotin Hnd].
  destruct i as [|i]; simpl in *.
  - simplify_eq. by rewrite decide_True.
  - rewrite decide_False.
    + f_equal. by apply IH.
    + intros E. apply Hnotin. rewrite E, <- Hname.
      apply list_elem_of_fmap. exists e. split; [done|].
      by eapply list_elem_of_lookup_2.
Qed.

Lemma spec_add_entry_typed item seen :
  numeric_fields item → Forall numeric_fields seen →
  Forall numeric_fields (spec_add_entry item seen).
Proof.
  intros Hitem. induction 1 as [|e seen He Hseen IH]; simpl.
  - by constructor.
  - case_decide; constructor; auto using spec_add_numeric_fields_typed.
Qed.

(** One entry of an input array: the heap after the step holds, at
    [items], what the rule makes of the entries held before. *)
Lemma merge_item_refines h0 acc h l :
  merge_inv h0 acc h →
  Forall numeric_fields (entries h (items acc)) →
  Forall plain_fields (entries h (items acc)) →
  own_keys (deref h l) →
  entries (merge_item (acc, h) l).2 (items (merge_item (acc, h) l).1)
  = spec_add_entry (deref h l) (entries h (items acc)).
Proof.
  intros Hinv Hty Hplain Hown.
  pose proof (merge_inv_names_nodup _ _ _ Hinv) as Hnd.
  destruct Hinv as [Hlen Hframe Hfresh Hndi Hnames]. unfold merge_item.
  destruct (nameMap acc !! entry_name (deref h l)) as [index|] eqn:Hname.
  - apply Hnames in Hname as (e & He & Hn). rewrite He. simpl.
    assert (entries h (items acc) !! index = Some (deref h e)) as Hseen.
    { unfold entries. by rewrite list_lookup_fmap, He. }
    rewrite (spec_add_entry_seen _ _ _ _ Hnd Hseen Hn).
    rewrite (entries_insert _ _ index) by
      (try done; apply list_elem_of_lookup_2, Hfresh in He; lia).
    f_equal. apply merge_numeric_properties_add; [| |done].
    + eapply Forall_lookup_1; [exact Hty|exact Hseen].
    + eapply Forall_lookup_1; [exact Hplain|exact Hseen].
  - simpl. rewrite spec_add_entry_new.
    + unfold entries. rewrite fmap_app. simpl. rewrite deref_app_new.
      f_equal. apply list_fmap_ext. intros i l' Hl'.
      apply deref_app_l. apply list_elem_of_lookup_2, Hfresh in Hl'. lia.
    + intros e He Hn. unfold entries in He.
      apply list_elem_of_fmap in He as (l' & -> & Hl').
      apply list_elem_of_lookup_1 in Hl' as [i Hi].
      assert (nameMap acc !! entry_name (deref h l) = Some i) as Hmap
        by (apply Hnames; eauto).
      by rewrite Hname in Hmap.
Qed.

Lemma merge_items_refines h0 arr : ∀ acc h,
  merge_inv h0 acc h →
  Forall numeric_fields (entries h (items acc)) →
  (∀ l, l ∈ arr →
     l < length h0 ∧ numeric_fields (deref h0 l) ∧ own_keys (deref h0 l)) →
  ∀ rest, plain_run (entries h (items acc)) (entries h0 arr ++ rest) →
  entries (foldl merge_item (acc, h) arr).2
          (items (foldl merge_item (acc, h) arr).1)
  = foldl (λ seen item, spec_add_entry item seen) (entries h (items acc))
      (entries h0 arr)
  ∧ Forall numeric_fields
      (entries (foldl merge_item (acc, h) arr).2
               (items (foldl merge_item (acc, h) arr).1))
  ∧ plain_run
      (entries (foldl merge_item (acc, h) arr).2
               (items (foldl merge_item (acc, h) arr).1)) rest.
Proof.
  induction arr as [|l arr IH]; intros acc h Hinv Hty Harr rest Hrun; [done|].
  change (entries h0 (l :: arr)) with (deref h0 l :: entries h0 arr) in *.
  cbn [foldl]. destruct Hrun as [Hplain Hrun].
  pose proof (merge_item_inv _ _ _ l Hinv) as Hinv'.
  destruct (Harr l) as (Hl & Hlty & Hlown); [by left|].
  assert (deref h l = deref h0 l) as Hd
    by (apply deref_lookup, (inv_frame _ _ _ Hinv); done).
  pose proof (merge_item_refines _ _ _ l Hinv Hty Hplain) as Href.
  rewrite Hd in Href. specialize (Href Hlown).
  destruct (merge_item (acc, h) l) as [acc' h']. simpl in *.
  rewrite <- Href in Hrun |- *. apply IH; [done| | |done].
  - rewrite Href. by apply spec_add_entry_typed.
  - intros l' Hl'. apply Harr. by right.
Qed.

(** The pass over one key, started on a heap [hq] that extends the
    original heap [h]. *)
Lemma merge_arrays_refines h prop hq results : ∀ acc hc,
  length h ≤ length hq → (∀ l, l < length h → hq !! l = h !! l) →
  valid_results h results → typed_results h results →
  own_keys_results h results →
  merge_inv hq acc hc →
  Forall numeric_fields (entries hc (items acc)) →
  plain_run (entries hc (items acc))
    (concat (section_input h prop results)) →
  entries (foldl (merge_array prop) (acc, hc) results).2
          (items (foldl (merge_array prop) (acc, hc) results).1)
  = foldl (λ seen item, spec_add_entry item seen) (entries hc (items acc))
      (concat (section_input h prop results)).
Proof.
  intros acc hc Hlen Hagree. revert acc hc.
  induction results as [|r results IH];
    intros acc hc Hval Htyp Hown Hinv Hty Hrun; [done|].
  apply Forall_cons in Hval as [Hr Hval'].
  apply Forall_cons in Htyp as [Hrt Htyp'].
  apply Forall_cons in Hown as [Hro Hown'].
  cbn [foldl]. unfold section_input in *. cbn [omap list_omap] in *.
  unfold merge_array at 2 4.
  destruct (get_array prop r) as [arr|] eqn:Harr; simpl in *.
  - assert (entries h arr = entries hq arr) as Hentries.
    { symmetry. apply entries_frame. intros l Hl. apply Hagree.
      pose proof (array_entries_get _ _ _ _ Harr Hl) as Hin.
      apply (proj1 (Forall_forall _ _) Hr _ Hin). }
    rewrite Hentries in Hrun |- *.
    destruct (merge_items_refines hq arr acc hc Hinv Hty)
      with (rest := concat (entries h <$> omap (get_array prop) results))
      as (Href & Hty' & Hrun'); [|done|].
    { intros l Hl. pose proof (array_entries_get _ _ _ _ Harr Hl) as Hin.
      pose proof (proj1 (Forall_forall _ _) Hr _ Hin) as Hv.
      pose proof (proj1 (Forall_forall _ _) Hrt _ Hin) as Ht.
      pose proof (proj1 (Forall_forall _ _) Hro _ Hin) as Ho.
      simpl in Hv, Ht, Ho.
      replace (deref hq l) with (deref h l)
        by (symmetry; by apply deref_lookup, Hagree).
      split_and!; [lia|done..]. }
    pose proof (merge_items_inv hq arr _ _ Hinv) as Hinv'.
    destruct (foldl merge_item (acc, hc) arr) as [acc' hc']. simpl in *.
    rewrite foldl_app. rewrite <- Href. by apply IH.
  - by apply IH.
Qed.

(** *** The loop over [arrayProps] *)

Lemma heap_extends_refl h : heap_extends h h.
Proof. by split. Qed.

Lemma heap_extends_trans h1 h2 h3 :
  heap_extends h1 h2 → heap_extends h2 h3 → heap_extends h1 h3.
Proof.
  intros [H1 H2] [H3 H4]. split; [lia|]. intros l Hl.
  rewrite H4 by lia. by apply H2.
Qed.

Lemma section_ok_mono h results prop section h1 h2 :
  length h ≤ length h1 →
  section_ok h results prop section h1 → heap_extends h1 h2 →
  section_ok h results prop section h2.
Proof.
  intros Hlen Hok [H1 H2]. destruct section as [arr|]; [|done].
  destruct Hok as (Hne & Hfresh & Hnd & Href).
  assert (entries h2 arr = entries h1 arr) as E.
  { apply entries_frame. intros l Hl. apply H2. apply Hfresh in Hl. lia. }
  simpl. rewrite E. split_and!; [done| |done..].
  intros l Hl. apply Hfresh in Hl. lia.
Qed.

Lemma get_array_set_array q p arr r :
  get_array q (set_array p arr r)
  = if decide (q = p) then Some arr else get_array q r.
Proof. by destruct q, p. Qed.

Lemma merge_prop_spec h results merged hq prop :
  heap_extends h hq →
  heap_extends hq (merge_prop results (merged, hq) prop).2
  ∧ same_sections (merge_prop results (merged, hq) prop).1 merged
  ∧ (∀ q, q ≠ prop →
       get_array q (merge_prop results (merged, hq) prop).1
       = get_array q merged)
  ∧ (get_array prop merged = None →
     section_ok h results prop
       (get_array prop (merge_prop results (merged, hq) prop).1)
       (merge_prop results (merged, hq) prop).2).
Proof.
  intros [Hlen Hagree]. unfold merge_prop.
  pose proof (merge_arrays_inv hq prop results _ _ (merge_inv_init hq)) as Hinv.
  pose proof (merge_arrays_refines h prop hq results
                {| items := []; nameMap := ∅ |} hq Hlen Hagree) as Href.
  destruct (foldl (merge_array prop) _ results) as [acc h'] eqn:E.
  simpl in *.
  assert (valid_results h results → summable h prop results →
    entries h' (items acc)
    = spec_merge_section (section_input h prop results)) as Href'.
  { intros Hval (Htyp & Hown & Hrun).
    apply Href; [done..|apply merge_inv_init|constructor|done]. }
  clear Href. split_and!.
  - split; [apply Hinv|]. apply Hinv.
  - by case_bool_decide.
  - intros q Hq. case_bool_decide; [|done].
    by rewrite get_array_set_array, decide_False.
  - intros Hnone. case_bool_decide as Hitems.
    + rewrite get_array_set_array, decide_True by done. split_and!.
      * intros E'. rewrite E' in Hitems. simpl in Hitems. lia.
      * intros l Hl. apply (inv_fresh _ _ _ Hinv) in Hl. lia.
      * by eapply merge_inv_names_nodup.
      * done.
    + rewrite Hnone. intros Hval Hsum.
      rewrite <- Href' by done.
      destruct (items acc); [done|]. simpl in Hitems. lia.
Qed.

Lemma merge_props_spec h results ps : ∀ merged hq,
  NoDup ps → heap_extends h hq →
  (∀ q, q ∈ ps → get_array q merged = None) →
  heap_extends hq (foldl (merge_prop results) (merged, hq) ps).2
  ∧ same_sections (foldl (merge_prop results) (merged, hq) ps).1 merged
  ∧ (∀ q, q ∉ ps →
       get_array q (foldl (merge_prop results) (merged, hq) ps).1
       = get_array q merged)
  ∧ (∀ q, q ∈ ps →
       section_ok h results q
         (get_array q (foldl (merge_prop results) (merged, hq) ps).1)
         (foldl (merge_prop results) (merged, hq) ps).2).
Proof.
  induction ps as [|p ps IH]; intros merged hq Hnd Hext Hnone.
  { simpl. split_and!; [apply heap_extends_refl|done|done|].
    by intros q ?%elem_of_nil. }
  apply NoDup_cons in Hnd as [Hp Hnd]. cbn [foldl].
  destruct (merge_prop_spec h results merged hq p Hext)
    as (Hext1 & Hsame1 & Hother1 & Hok1).
  destruct (merge_prop results (merged, hq) p) as [m1 h1]. simpl in *.
  destruct (IH m1 h1 Hnd) as (Hext2 & Hsame2 & Hother2 & Hok2).
  { by eapply heap_extends_trans. }
  { intros q Hq. rewrite Hother1; [apply Hnone; by right|]. by intros ->. }
  split_and!.
  - by eapply heap_extends_trans.
  - destruct Hsame1 as (?&?&?&?), Hsame2 as (?&?&?&?).
    split_and!; congruence.
  - intros q Hq. rewrite Hother2, Hother1; [done| |].
    + intros ->. apply Hq. by left.
    + intros Hq'. apply Hq. by right.
  - intros q [->|Hq]%elem_of_cons; [|by apply Hok2].
    rewrite Hother2 by done.
    eapply section_ok_mono; [|apply Hok1; apply Hnone; by left|done].
    destruct Hext, Hext1. lia.
Qed.

Lemma merge_scalars_arrays results : ∀ merged q,
  get_array q (foldl merge_scalars merged results) = get_array q merged
  ∧ keyFindings (foldl merge_scalars merged results) = keyFindings merged.
Proof.
  induction results as [|r results IH]; intros merged q; [done|].
  cbn [foldl]. destruct (IH (merge_scalars merged r) q) as [-> ->].
  unfold merge_scalars.
  destruct merged as [lo co us ? ? ? ? ? ? ? ?],
    r as [lo' co' us' ? ? ? ? ? ? ? ?]; simpl.
  destruct lo, lo', co, co', us, us'; by destruct q.
Qed.

Lemma merge_findings_sections results merged :
  (∀ q, get_array q (merge_findings results merged) = get_array q merged)
  ∧ libraryOverview (merge_findings results merged) = libraryOverview merged
  ∧ collectionOverview (merge_findings results merged)
    = collectionOverview merged
  ∧ usageStatistics (merge_findings results merged) = usageStatistics merged.
Proof.
  unfold merge_findings. destruct (existsb _ results); [|done].
  destruct (foldl collect_findings _ results). split_and!; [|done..].
  by intros [].
Qed.

Lemma arrayProps_nodup : NoDup arrayProps.
Proof. unfold arrayProps. apply (bool_decide_unpack _). by vm_compute. Qed.

(** The merger only extends the heap, and every section of the merged
    record is as [section_ok] says. *)
Lemma mergeResults_spec results h :
  heap_extends h (mergeResults results h).2
  ∧ (∀ prop, section_ok h results prop
       (get_array prop (mergeResults results h).1)
       (mergeResults results h).2)
  ∧ libraryOverview (mergeResults results h).1
    = libraryOverview (foldl merge_scalars empty_record results)
  ∧ collectionOverview (mergeResults results h).1
    = collectionOverview (foldl merge_scalars empty_record results)
  ∧ usageStatistics (mergeResults results h).1
    = usageStatistics (foldl merge_scalars empty_record results)
  ∧ keyFindings (mergeResults results h).1
    = keyFindings (merge_findings results empty_record).
Proof.
  unfold mergeResults.
  destruct (merge_props_spec h results arrayProps
              (foldl merge_scalars empty_record results) h
              arrayProps_nodup (heap_extends_refl h))
    as (Hext & (Hs1 & Hs2 & Hs3 & Hs4) & _ & Hok).
  { intros q _. rewrite (proj1 (merge_scalars_arrays results _ q)).
    by destruct q. }
  destruct (foldl (merge_prop results) _ arrayProps) as [merged h'].
  simpl in *.
  destruct (merge_findings_sections results merged) as (Hf1 & Hf2 & Hf3 & Hf4).
  split_and!; [done| |congruence..|].
  - intros prop. rewrite Hf1. apply Hok, arrayProps_complete.
  - rewrite (proj2 (merge_scalars_arrays results _ CollectionData)) in Hs4.
    unfold merge_findings. destruct (existsb _ results); [|done].
    by destruct (foldl collect_findings _ results).
Qed.

(** The heap after the merge begins with the heap before it: no object that
    existed is written, new objects are appended. *)
Lemma mergeResults_frame results h :
  take (length h) (mergeResults results h).2 = h.
Proof.
  destruct (mergeResults_spec results h) as ((Hlen & Hagree) & _).
  apply list_eq. intros l. destruct (decide (l < length h)) as [Hl|Hl].
  - rewrite lookup_take_lt by done. by apply Hagree.
  - rewrite lookup_take_ge by lia. symmetry. apply lookup_ge_None. lia.
Qed.

(** *** Scalar-group sections *)

Lemma merge_scalars_step merged r :
  libraryOverview (merge_scalars merged r)
  = from_option Some (libraryOverview r) (libraryOverview merged)
  ∧ collectionOverview (merge_scalars merged r)
    = from_option Some (collectionOverview r) (collectionOverview merged)
  ∧ usageStatistics (merge_scalars merged r)
    = from_option Some (usageStatistics r) (usageStatistics merged).
Proof.
  unfold merge_scalars.
  destruct merged as [lo co us ? ? ? ? ? ? ? ?],
    r as [lo' co' us' ? ? ? ? ? ? ? ?]; simpl.
  by destruct lo, lo', co, co', us, us'.
Qed.

Lemma merge_scalars_first results : ∀ merged,
  libraryOverview (foldl merge_scalars merged results)
  = from_option Some (head (omap libraryOverview results))
      (libraryOverview merged)
  ∧ collectionOverview (foldl merge_scalars merged results)
    = from_option Some (head (omap collectionOverview results))
        (collectionOverview merged)
  ∧ usageStatistics (foldl merge_scalars merged results)
    = from_option Some (head (omap usageStatistics results))
        (usageStatistics merged).
Proof.
  induction results as [|r results IH]; intros merged.
  { simpl. by destruct (libraryOverview merged),
      (collectionOverview merged), (usageStatistics merged). }
  cbn [foldl omap list_omap].
  destruct (IH (merge_scalars merged r)) as (-> & -> & ->).
  destruct (merge_scalars_step merged r) as (-> & -> & ->).
  by destruct (libraryOverview merged), (collectionOverview merged),
    (usageStatistics merged), (libraryOverview r), (collectionOverview r),
    (usageStatistics r).
Qed.

(** C2: for every sequence of partial records, each scalar-group section of
    the merged record is the section of the first record that has one ([head]
    of the sections present, in sequence order), whatever the later records
    hold; it is that record's own object, and no object of the heap is
    changed by the merge, so nothing is merged into it field by field. *)
Theorem scalar_sections_first_wins results h :
  libraryOverview (mergeResults results h).1
  = head (omap libraryOverview results)
  ∧ collectionOverview (mergeResults results h).1
    = head (omap collectionOverview results)
  ∧ usageStatistics (mergeResults results h).1
    = head (omap usageStatistics results)
  ∧ take (length h) (mergeResults results h).2 = h.
Proof.
  destruct (mergeResults_spec results h) as (_ & _ & -> & -> & -> & _).
  destruct (merge_scalars_first results empty_record) as (-> & -> & ->).
  split_and!; [done..|apply mergeResults_frame].
Qed.

(** Of two records with a library overview, the first one's is kept. *)
Example scalar_precedence (h : heap) :
  libraryOverview (mergeResults [overview_record 0; overview_record 1] h).1
  = Some 0.
Proof. reflexivity. Qed.

(** *** Category-breakdown sections *)


(** Why the running sums must not be [-0]: the code reads an existing [-0]
    as 0 ([existingItem[key] || 0]), so two entries of value [-0] merge
    into the value 0, where the sum of the rule is [-0]. *)
Example category_aggregate_negative_zero :
  let minus_zero : jsobject :=
    {[ "name" := Str "Adult Fiction"; "value" := Num (S754_zero true) ]} in
  let h := [minus_zero; minus_zero] in
  let results := [collection_record [0]; collection_record [1]] in
  typed_results h results ∧ own_keys_results h results
  ∧ section_entries (mergeResults results h).2 CollectionData
      (mergeResults results h).1
    = [category "Adult Fiction" 0]
  ∧ spec_merge_section (section_input h CollectionData results)
    = [minus_zero].
Proof.
  intros minus_zero h results.
  split_and!; [by apply (bool_decide_unpack _); vm_compute..| |];
    by vm_compute.
Qed.



(** C5: for every sequence of partial records and every category-breakdown
    section, the names of the entries of the merged section, read in the
    heap after the merge, are pairwise distinct. *)
Theorem merged_names_unique results h prop :
  NoDup (entry_name
           <$> section_entries (mergeResults results h).2 prop
                 (mergeResults results h).1).
Proof.
  destruct (mergeResults_spec results h) as (_ & Hok & _).
  specialize (Hok prop). unfold section_entries.
  destruct (get_array prop (mergeResults results h).1) as [arr|]; simpl in *.
  - apply Hok.
  - constructor.
Qed.

(** C10: the merge changes none of its inputs.  The records, their arrays
    and their findings are values that no statement of [mergeResults]
    assigns to; the objects they refer to are in the heap, and the heap after
    the merge begins with the heap before it, object for object; the entries
    of the merged arrays are all new objects, allocated past the end of the
    input heap, and the in-place sums are written to them alone. *)
Theorem mergeResults_preserves_input results h :
  take (length h) (mergeResults results h).2 = h
  ∧ Forall (λ l, length h ≤ l < length (mergeResults results h).2)
      (array_entries (mergeResults results h).1).
Proof.
  split; [apply mergeResults_frame|].
  destruct (mergeResults_spec results h) as (_ & Hok & _).
  apply Forall_forall. intros l Hl. unfold array_entries in Hl.
  apply list_elem_of_bind in Hl as (prop & Hl & _).
  specialize (Hok prop).
  destruct (get_array prop (mergeResults results h).1) as [arr|];
    simpl in *; [|by apply elem_of_nil in Hl].
  by apply Hok.
Qed.

(** *** The findings section *)

Lemma first_occurrences_filter (P : string → Prop)
    `{!∀ x, Decision (P x)} l :
  first_occurrences (filter P l) = filter P (first_occurrences l).
Proof.
  induction l as [|y l IH]; [done|]. simpl. rewrite !filter_cons.
  destruct (decide (P y)) as [Hy|Hy]; simpl.
  - rewrite IH, !list_filter_filter. f_equal.
    apply list_filter_iff. naive_solver.
  - rewrite IH, list_filter_filter. apply list_filter_iff.
    intros z. split; [|tauto]. intros Hz. split; [done|]. by intros ->.
Qed.

(** A JavaScript [Set] filled from a list holds the first occurrences of the
    elements it did not have. *)
Lemma foldl_set_add l : ∀ s,
  foldl set_add s l = s ++ first_occurrences (filter (λ x, x ∉ s) l).
Proof.
  induction l as [|x l IH]; intros s; simpl; [by rewrite app_nil_r|].
  rewrite IH, filter_cons. unfold set_add.
  destruct (decide (x ∈ s)) as [Hx|Hx].
  - by rewrite decide_False by tauto.
  - rewrite decide_True by done. simpl. rewrite <- app_assoc. simpl.
    do 2 f_equal. rewrite <- first_occurrences_filter, list_filter_filter.
    f_equal. apply list_filter_iff. intros z.
    rewrite elem_of_app, list_elem_of_singleton. tauto.
Qed.

Lemma filter_not_in_nil (l : list string) : filter (λ x, x ∉ []) l = l.
Proof.
  induction l as [|x l IH]; [done|].
  rewrite filter_cons_True by apply not_elem_of_nil. by rewrite IH.
Qed.

Lemma foldl_set_add_app s l1 l2 :
  foldl set_add s (l1 ++ l2) = foldl set_add (foldl set_add s l1) l2.
Proof. apply foldl_app. Qed.

Lemma collect_findings_all results : ∀ strengthSet areaSet,
  foldl collect_findings (strengthSet, areaSet) results
  = (foldl set_add strengthSet (all_strengths results),
     foldl set_add areaSet (all_areas results)).
Proof.
  induction results as [|r results IH]; intros strengthSet areaSet; [done|].
  cbn [foldl]. unfold all_strengths, all_areas. rewrite !bind_cons.
  rewrite !foldl_set_add_app. unfold collect_findings at 2.
  rewrite IH. destruct (keyFindings r) as [[[s|] [a|]]|]; done.
Qed.

Lemma first_occurrences_elem_of l x : x ∈ first_occurrences l ↔ x ∈ l.
Proof.
  induction l as [|y l IH]; [done|]. simpl.
  rewrite !elem_of_cons, list_elem_of_filter, IH.
  destruct (decide (x = y)); naive_solver.
Qed.

Lemma first_occurrences_nodup l : NoDup (first_occurrences l).
Proof.
  induction l as [|y l IH]; simpl; constructor.
  - rewrite list_elem_of_filter. naive_solver.
  - by apply NoDup_filter.
Qed.

(** The number of distinct elements. *)
Lemma first_occurrences_length l :
  length (first_occurrences l) = size (list_to_set l : gset string).
Proof.
  rewrite <- (size_list_to_set (C:=gset string))
    by apply first_occurrences_nodup.
  f_equal. apply set_eq. intros x.
  by rewrite !elem_of_list_to_set, first_occurrences_elem_of.
Qed.

Lemma all_strengths_findings results :
  all_strengths results ≠ [] →
  existsb (λ r, bool_decide (is_Some (keyFindings r))) results = true.
Proof.
  induction results as [|r results IH]; [done|].
  unfold all_strengths. rewrite bind_cons. simpl.
  destruct (keyFindings r) as [kf|]; [done|]. simpl. apply IH.
Qed.

(** C4: for every sequence of partial records, when some record has a
    findings section the merged findings are the first five of the distinct
    strengths, and the first five of the distinct areas for development,
    contributed by the records, each in the order of first appearance
    (strings are compared exactly); when no record has one, the merged record
    has none.  In particular seven distinct strengths leave exactly five. *)
Theorem findings_union_capped results h :
  keyFindings (mergeResults results h).1
  = (if existsb (λ r, bool_decide (is_Some (keyFindings r))) results
     then Some {| strengths :=
                    Some (take 5 (first_occurrences (all_strengths results)));
                  areasForDevelopment :=
                    Some (take 5 (first_occurrences (all_areas results))) |}
     else None)
  ∧ (size (list_to_set (all_strengths results) : gset string) = 7 →
     ∃ kf l, keyFindings (mergeResults results h).1 = Some kf
       ∧ strengths kf = Some l ∧ length l = 5).
Proof.
  destruct (mergeResults_spec results h) as (_ & _ & _ & _ & _ & ->).
  assert (keyFindings (merge_findings results empty_record)
    = if existsb (λ r, bool_decide (is_Some (keyFindings r))) results
      then Some {| strengths :=
                     Some (take 5 (first_occurrences (all_strengths results)));
                   areasForDevelopment :=
                     Some (take 5 (first_occurrences (all_areas results))) |}
      else None) as E.
  { unfold merge_findings. destruct (existsb _ results); [|done].
    rewrite collect_findings_all, !foldl_set_add. simpl.
    by rewrite !filter_not_in_nil. }
  split; [done|]. intros Hsize. rewrite E.
  rewrite <- first_occurrences_length in Hsize.
  rewrite all_strengths_findings.
  - eexists _, _. split_and!; [done..|]. rewrite length_take. lia.
  - intros Hnil. rewrite Hnil in Hsize. done.
Qed.

(** Three records contributing seven distinct strengths, two of them
    twice. *)
Lemma findings_union_capped_witness :
  let results :=
    [strengths_record ["s1"; "s2"; "s3"];
     strengths_record ["s2"; "s4"; "s5"; "s1"];
     strengths_record ["s6"; "s7"]] in
  size (list_to_set (all_strengths results) : gset string) = 7
  ∧ keyFindings (mergeResults results []).1
    = Some {| strengths := Some ["s1"; "s2"; "s3"; "s4"; "s5"];
              areasForDevelopment := Some [] |}.
Proof.
  intros results.
  assert (size (list_to_set (all_strengths results) : gset string) = 7)
    as Hsize by (vm_compute; reflexivity).
  split; [done|].
  rewrite (proj1 (findings_union_capped results [])). reflexivity.
Defined.

(** ** The pipeline *)

Section pipeline_properties.
Context {E : Type} (X : externals E).

End pipeline_properties.

(** *** Empty records do not count in a merge *)






(** *** Computations that cannot throw *)

Section never_throws.
Context {E : Type}.

Lemma never_throws_ret {A} (a : A) : never_throws (E:=E) (mret a).
Proof. intros w. by eexists _, _. Qed.

Lemma never_throws_console line : never_throws (E:=E) (console line).
Proof. intros w. by eexists _, _. Qed.

Lemma never_throws_bind {A B} (m : M E A) (k : A → M E B) :
  never_throws m → (∀ a, never_throws (k a)) → never_throws (m ≫= k).
Proof.
  intros Hm Hk w. unfold mbind, M_bind, bind.
  destruct (Hm w) as (a & w' & ->). apply Hk.
Qed.

Lemma never_throws_try_catch {A} (m : M E A) handler :
  (∀ error, never_throws (handler error)) →
  never_throws (try_catch m handler).
Proof.
  intros Hh w. unfold try_catch.
  destruct (m w) as [[a|e] w']; [by eexists _, _|apply Hh].
Qed.
End never_throws.

(** *** What a run writes to the report record *)

Section keeps_reports.
Context {E : Type} (X : externals E).

Lemma same_but_status_refl r : same_but_status r r.
Proof. by intros id key _ _. Qed.

Lemma same_but_status_trans r1 r2 r3 :
  same_but_status r1 r2 → same_but_status r2 r3 → same_but_status r1 r3.
Proof. intros H1 H2 id key Hs Hu. by rewrite H2, H1. Qed.

Lemma same_but_status_update r id d now st :
  r !! id = Some d →
  same_but_status r (<[id := status_update st now ∪ d]> r).
Proof.
  intros Hd id' key Hs Hu. destruct (decide (id = id')) as [<-|Hne].
  - rewrite lookup_insert_eq, Hd. simpl. unfold status_update.
    rewrite lookup_union_r; [done|].
    by rewrite lookup_insert_ne, lookup_singleton_ne.
  - by rewrite lookup_insert_ne.
Qed.

Lemma keeps_ret {A} (a : A) : keeps_reports (E:=E) (mret a).
Proof. intros w. apply same_but_status_refl. Qed.

Lemma keeps_throw {A} e : keeps_reports (E:=E) (throw (A:=A) e).
Proof. intros w. apply same_but_status_refl. Qed.

Lemma keeps_gets {A} (f : world E → A) : keeps_reports (gets f).
Proof. intros w. apply same_but_status_refl. Qed.

Lemma keeps_console line : keeps_reports (E:=E) (console line).
Proof. intros w. apply same_but_status_refl. Qed.

Lemma keeps_new_Date : keeps_reports (E:=E) new_Date.
Proof. intros w. apply same_but_status_refl. Qed.

Lemma keeps_await {A} (call : E → completion A * E) :
  keeps_reports (await call).
Proof.
  intros w. unfold await. destruct (call (w_ext w)).
  apply same_but_status_refl.
Qed.

Lemma keeps_bind {A B} (m : M E A) (k : A → M E B) :
  keeps_reports m → (∀ a, keeps_reports (k a)) → keeps_reports (m ≫= k).
Proof.
  intros Hm Hk w. unfold mbind, M_bind, bind. specialize (Hm w).
  destruct (m w) as [[a|e] w']; simpl in *; [|done].
  eapply same_but_status_trans; [exact Hm|apply Hk].
Qed.

Lemma keeps_try_catch {A} (m : M E A) handler :
  keeps_reports m → (∀ error, keeps_reports (handler error)) →
  keeps_reports (try_catch m handler).
Proof.
  intros Hm Hh w. unfold try_catch. specialize (Hm w).
  destruct (m w) as [[a|e] w']; simpl in *; [done|].
  eapply same_but_status_trans; [exact Hm|apply Hh].
Qed.

Lemma keeps_firestore_call op : keeps_reports (firestore_call X op).
Proof.
  intros w. unfold firestore_call.
  destruct (firestore_fault X op (w_ext w)) as [[e|] ext];
    apply same_but_status_refl.
Qed.

Lemma keeps_updateDoc_reports id st now :
  keeps_reports (updateDoc_reports X id (status_update st now)).
Proof.
  unfold updateDoc_reports.
  apply keeps_bind; [apply keeps_firestore_call|]. intros _ w.
  unfold mbind, M_bind, bind, gets. simpl.
  destruct (w_reports w !! id) as [d|] eqn:Hd; simpl.
  - by apply same_but_status_update.
  - apply same_but_status_refl.
Qed.

Lemma keeps_setDoc_reportData id data :
  keeps_reports (setDoc_reportData X id data).
Proof.
  unfold setDoc_reportData.
  destruct (undefined_field data); [apply keeps_throw|].
  apply keeps_bind; [apply keeps_firestore_call|]. intros _ w.
  apply same_but_status_refl.
Qed.

Lemma keeps_parse_json text : keeps_reports (parse_json X text).
Proof.
  intros w. unfold parse_json.
  destruct (JSON_parse X text (w_heap w)) as [[r h]|e];
    apply same_but_status_refl.
Qed.

Lemma keeps_merge_in_heap results :
  keeps_reports (merge_in_heap X results).
Proof.
  intros w. unfold merge_in_heap.
  case_bool_decide; [apply same_but_status_refl|].
  destruct (well_shaped results) as [records|].
  - destruct (mergeResults records (w_heap w)). apply same_but_status_refl.
  - destruct (merge_ill_shaped X results (w_heap w)) as [[merged h]|e];
      apply same_but_status_refl.
Qed.

(** The steps of a computation, one combinator at a time. *)
Ltac keeps_step :=
  lazymatch goal with
  | |- keeps_reports (updateDoc_reports _ _ _) =>
      apply keeps_updateDoc_reports
  | |- keeps_reports (setDoc_reportData _ _ _) =>
      apply keeps_setDoc_reportData
  | |- keeps_reports (firestore_call _ _) => apply keeps_firestore_call
  | |- keeps_reports (parse_json _ _) => apply keeps_parse_json
  | |- keeps_reports (merge_in_heap _ _) => apply keeps_merge_in_heap
  | |- keeps_reports (console _) => apply keeps_console
  | |- keeps_reports (mret _) => apply keeps_ret
  | |- keeps_reports (throw _) => apply keeps_throw
  | |- keeps_reports (gets _) => apply keeps_gets
  | |- keeps_reports new_Date => apply keeps_new_Date
  | |- keeps_reports (await _) => apply keeps_await
  | |- keeps_reports (mbind _ _) => apply keeps_bind; [|intros ?]
  | |- keeps_reports (try_catch _ _) => apply keeps_try_catch; [|intros ?]
  | |- keeps_reports (if ?b then _ else _) => destruct b
  | |- keeps_reports (match ?x with _ => _ end) => destruct x
  end.

Lemma keeps_callClaudeAPI sys user : keeps_reports (callClaudeAPI X sys user).
Proof. unfold callClaudeAPI. repeat keeps_step. Qed.

Lemma keeps_process_chunks sys year lib count chunks : ∀ i results,
  keeps_reports (process_chunks X sys year lib count i chunks results).
Proof.
  induction chunks as [|chunk chunks IH]; intros i results;
    cbn [process_chunks]; [apply keeps_ret|].
  apply keeps_bind; [apply keeps_console|]. intros _.
  apply keeps_bind; [|intros results'; apply IH].
  apply keeps_try_catch; [|intros ?; repeat keeps_step].
  apply keeps_bind; [apply keeps_callClaudeAPI|]. intros ?. apply keeps_ret.
Qed.

Lemma keeps_processLargePdfWithClaudeAI text year lib :
  keeps_reports (processLargePdfWithClaudeAI X text year lib).
Proof.
  unfold processLargePdfWithClaudeAI.
  apply keeps_try_catch; [|intros ?; repeat keeps_step].
  apply keeps_bind; [apply keeps_process_chunks|]. intros ?.
  apply keeps_merge_in_heap.
Qed.

Lemma keeps_downloadAndExtractPdfText url :
  keeps_reports (downloadAndExtractPdfText X url).
Proof. unfold downloadAndExtractPdfText. repeat keeps_step. Qed.

Lemma keeps_getDoc_reports id : keeps_reports (getDoc_reports X id).
Proof. unfold getDoc_reports. repeat keeps_step. Qed.

Lemma keeps_getDoc_libraries id : keeps_reports (getDoc_libraries X id).
Proof. unfold getDoc_libraries. repeat keeps_step. Qed.

(** Whatever happens in a run, the orchestrator writes to the report
    records nothing but [status] and [updatedAt]: no error message. *)
Lemma processReportWithAI_keeps_reports reportId :
  keeps_reports (processReportWithAI X reportId).
Proof.
  unfold processReportWithAI.
  apply keeps_try_catch; [|intros ?; repeat keeps_step].
  apply keeps_bind; [apply keeps_new_Date|]. intros ?.
  apply keeps_bind; [apply keeps_updateDoc_reports|]. intros _.
  apply keeps_bind; [apply keeps_getDoc_reports|]. intros reportDoc.
  apply keeps_bind; [destruct reportDoc; repeat keeps_step|].
  intros reportData.
  apply keeps_bind; [apply keeps_getDoc_libraries|]. intros libraryDoc.
  apply keeps_bind; [destruct libraryDoc; repeat keeps_step|].
  intros libraryData.
  apply keeps_bind; [apply keeps_downloadAndExtractPdfText|]. intros ?.
  apply keeps_bind; [apply keeps_processLargePdfWithClaudeAI|]. intros ?.
  repeat keeps_step.
Qed.
End keeps_reports.

(** ** The pipeline, continued *)

Section pipeline_claims.
Context {E : Type} (X : externals E).




(** The orchestrator never throws. *)
Lemma processReportWithAI_never_throws reportId :
  never_throws (processReportWithAI X reportId).
Proof.
  unfold processReportWithAI. apply never_throws_try_catch. intros error.
  apply never_throws_bind; [apply never_throws_console|]. intros _.
  apply never_throws_bind; [|intros _; apply never_throws_ret].
  apply never_throws_try_catch. intros updateError.
  apply never_throws_console.
Qed.
End pipeline_claims.



(** C7 at a report whose library has no document: the run throws
    "Library not found", the handler writes the status [Failed] and the
    time, and the call returns [false]; no field of the report holds the
    message, which is only logged. *)
Theorem failed_status_without_message :
  let run := processReportWithAI offline_externals "r1" orphan_world in
  run.1 = Normal false
  ∧ w_reports run.2 !! "r1"
    = Some (<["status" := JStr "Failed"]>
              (<["updatedAt" := JNum 1]> orphan_report))
  ∧ (w_reports run.2 !! "r1") ≫= (λ d, d !! "errorMessage") = None
  ∧ w_log run.2 = ["Error processing report: Library not found"].
Proof. split_and!; vm_compute; reflexivity. Qed.

(** * Further properties *)

(** ** The sizes of the chunks *)

Section chunk_sizes.
Local Open Scope Z_scope.

Lemma chunk_loop_bound maxChars ps :
  Forall (λ c, c ∈ ps ∨ string_length c ≤ maxChars + 2)
    (foldl (chunk_step maxChars) ([], []) ps).1
  ∧ ((foldl (chunk_step maxChars) ([], []) ps).2 = []
     ∨ (foldl (chunk_step maxChars) ([], []) ps).2 ∈ ps
     ∨ string_length (foldl (chunk_step maxChars) ([], []) ps).2
       ≤ maxChars + 2).
Proof.
  induction ps as [|p ps IH] using rev_ind; [by split; [constructor|left]|].
  rewrite foldl_app. cbn [foldl].
  destruct (foldl (chunk_step maxChars) ([], []) ps) as [chunks cur].
  cbn [fst snd] in IH. destruct IH as [IH1 IH2].
  assert (Forall (λ c, c ∈ ps ++ [p] ∨ string_length c ≤ maxChars + 2) chunks)
    as IH1'.
  { eapply Forall_impl; [exact IH1|]. intros c [Hc|Hc]; [left|by right].
    apply elem_of_app. by left. }
  assert (p ∈ ps ++ [p]) as Hp by (apply elem_of_app; right; by left).
  destruct (chunk_step_cases maxChars chunks cur p)
    as [(Hc & _ & ->)|[(Hc & E)|(-> & ->)]]; cbn [fst snd].
  - split; [|by right; left]. apply Forall_app. split; [done|].
    constructor; [|done]. destruct IH2 as [?|[?|?]]; [done| |by right].
    left. apply elem_of_app. by left.
  - destruct (decide (string_length cur + string_length p > maxChars))
      as [Hgt|Hle].
    { rewrite chunk_step_push in E by done. injection E as E1 E2.
      apply (f_equal length) in E1. rewrite length_app in E1.
      simpl in E1. lia. }
    rewrite E. cbn [fst snd]. split; [done|]. right; right.
    unfold string_length in *. rewrite !length_app. simpl. lia.
  - split; [done|]. by right; left.
Qed.

(** X1: a chunk is a paragraph of the text, whatever its length, or is
    at most two code units longer than the budget of [maxTokens *
    charsPerToken] code units: the loop checks the budget without the
    ['\n\n'] that it adds. *)
Theorem chunk_size_bound text maxTokens :
  Forall (λ chunk,
      chunk ∈ split_paragraphs text
      ∨ string_length chunk ≤ maxTokens * charsPerToken + 2)
    (splitTextIntoChunks text maxTokens).
Proof.
  unfold splitTextIntoChunks, combine_paragraphs.
  destruct (chunk_loop_bound (maxTokens * charsPerToken)
              (split_paragraphs text)) as [H1 H2].
  destruct (foldl _ _ (split_paragraphs text)) as [chunks cur].
  cbn [fst snd] in *. destruct (truthy_string cur) eqn:Ht; [|done].
  apply truthy_string_true in Ht. apply Forall_app. split; [done|].
  constructor; [|done]. by destruct H2 as [?|[?|?]]; [|left|right].
Qed.

(** A separator is at least two code units long. *)
Lemma is_separator_length sep : is_separator sep → (2 ≤ length sep)%nat.
Proof.
  intros (w & -> & _). simpl. rewrite length_app. simpl. lia.
Qed.

Lemma chunk_loop_fits maxChars : ∀ ps seps,
  S (length seps) = length ps →
  Forall (λ s : jsstring, (2 ≤ length s)%nat) seps →
  string_length (weave ps seps) ≤ maxChars →
  (foldl (chunk_step maxChars) ([], []) ps).1 = []
  ∧ string_length (foldl (chunk_step maxChars) ([], []) ps).2
    ≤ string_length (weave ps seps).
Proof.
  induction ps as [|p ps IH] using rev_ind; intros seps Hlen Hseps Hfit;
    [simpl in Hlen; lia|].
  rewrite foldl_app. cbn [foldl].
  destruct (decide (ps = [])) as [->|Hps].
  { cbn [foldl]. rewrite chunk_step_first. cbn [fst snd]. split; [done|].
    destruct seps; [|simpl in Hlen; lia]. simpl. rewrite app_nil_r. lia. }
  destruct seps as [|s seps _] using rev_ind.
  { rewrite length_app in Hlen. simpl in Hlen. destruct ps; [done|].
    simpl in Hlen. lia. }
  rewrite !length_app in Hlen. simpl in Hlen.
  apply Forall_app in Hseps as [Hseps Hs]. rewrite Forall_singleton in Hs.
  rewrite weave_snoc in * by lia.
  unfold string_length in *. rewrite !length_app in *.
  destruct (IH seps) as [IH1 IH2]; [lia|done|lia|].
  destruct (foldl (chunk_step maxChars) ([], []) ps) as [chunks cur].
  cbn [fst snd] in *. subst chunks.
  destruct (chunk_step_cases maxChars [] cur p)
    as [(Hc & Hgt & _)|[(Hc & ->)|(-> & ->)]]; cbn [fst snd].
  - unfold string_length in Hgt. lia.
  - split; [done|]. rewrite !length_app. simpl. lia.
  - split; [done|]. lia.
Qed.

(** X2: a text that fits the budget is not split: it gives at most one
    chunk. *)
Theorem text_within_budget_is_one_chunk text maxTokens :
  string_length text ≤ maxTokens * charsPerToken →
  (length (splitTextIntoChunks text maxTokens) ≤ 1)%nat.
Proof.
  intros Hfit. destruct (split_paragraphs_weave text) as (Hw & Hlen & Hsep).
  destruct (chunk_loop_fits (maxTokens * charsPerToken)
              (split_paragraphs text) (split_separators text)) as [H1 _].
  - lia.
  - eapply Forall_impl; [exact Hsep|]. intros sep. apply is_separator_length.
  - by rewrite Hw.
  - unfold splitTextIntoChunks, combine_paragraphs.
    destruct (foldl _ _ (split_paragraphs text)) as [chunks cur].
    cbn [fst snd] in H1. subst chunks.
    destruct (truthy_string cur); simpl; lia.
Qed.

Lemma text_within_budget_is_one_chunk_witness :
  string_length (js "a" ++ [LF; 32%N; LF] ++ js "b") ≤ 2 * charsPerToken
  ∧ (length (splitTextIntoChunks (js "a" ++ [LF; 32%N; LF] ++ js "b") 2)
     ≤ 1)%nat.
Proof.
  split; [by vm_compute|].
  apply text_within_budget_is_one_chunk. by vm_compute.
Defined.
End chunk_sizes.

(** ** Splitting the chunks again *)

Section chunker_round_trip.
Local Open Scope Z_scope.

Lemma split_loop_nil piece : split_loop piece [] = [piece].
Proof. by simp split_loop. Qed.

(** The greedy star leaves nothing that it could have taken. *)
Lemma is_line_feed_space c : is_line_feed c = true → is_js_space c = true.
Proof. by intros ->%is_line_feed_true. Qed.

Lemma match_space_star_lf_greedy s r :
  match_space_star_lf s = Some r → match_space_star_lf r = None.
Proof.
  revert r. induction s as [|c s IH]; intros r; simpl; [done|].
  destruct (is_line_feed c) eqn:Hc.
  - rewrite (is_line_feed_space c Hc).
    destruct (match_space_star_lf s) as [r'|] eqn:Hs.
    + intros [= <-]. by apply IH.
    + by intros [= <-].
  - destruct (is_js_space c); [|done].
    destruct (match_space_star_lf s) as [r'|] eqn:Hs; [|done].
    intros [= <-]. by apply IH.
Qed.

Lemma is_js_space_LF : is_js_space LF = true.
Proof. done. Qed.

(** What does not match before a line feed matches before nothing. *)
Lemma match_space_star_lf_rest u y y' :
  match_space_star_lf (u ++ LF :: y) = None →
  match_space_star_lf (u ++ y') = None.
Proof.
  induction u as [|c u IH]; simpl.
  - change (match_space_star_lf (LF :: y))
      with (match match_space_star_lf y with
            | Some r => Some r
            | None => Some y
            end).
    by destruct (match_space_star_lf y).
  - destruct (match_space_star_lf (u ++ LF :: y)) as [r|] eqn:Hu.
    + destruct (is_js_space c); [done|].
      destruct (is_line_feed c) eqn:Hc; [done|]. intros _.
      by destruct (match_space_star_lf (u ++ y')).
    + rewrite IH by done. by destruct (is_js_space c), (is_line_feed c).
Qed.

Lemma match_separator_rest t y y' :
  t ≠ [] → match_separator (t ++ LF :: y) = None →
  match_separator (t ++ y') = None.
Proof.
  destruct t as [|c t]; [done|]. intros _. simpl.
  destruct (is_line_feed c); [|done]. apply match_space_star_lf_rest.
Qed.

Lemma match_separator_head s r :
  match_separator s = Some r → ∃ s', s = LF :: s'.
Proof.
  destruct s as [|c s]; [done|]. simpl.
  destruct (is_line_feed c) eqn:Hc; [|done].
  apply is_line_feed_true in Hc as ->. by eauto.
Qed.

Lemma match_separator_blank_line rest :
  match_space_star_lf rest = None →
  match_separator (blank_line ++ rest) = Some rest.
Proof.
  intros Hrest.
  change (match_separator (blank_line ++ rest))
    with (match match_space_star_lf rest with
          | Some r => Some r
          | None => Some rest
          end).
  by rewrite Hrest.
Qed.

Lemma separator_free_snoc piece c s :
  separator_free piece (c :: s) → match_separator (c :: s) = None →
  separator_free (piece ++ [c]) s.
Proof.
  intros Hfree Hc t1 t2 Heq Hne.
  destruct (exists_last Hne) as (t2' & d & ->).
  rewrite app_assoc in Heq. apply app_inj_tail in Heq as [-> ->].
  rewrite <- app_assoc. simpl.
  destruct t2' as [|e t2']; [done|]. by apply (Hfree t1).
Qed.

Lemma split_loop_shape n : ∀ s piece (b : bool), (length s ≤ n)%nat →
  separator_free piece s → (b = true → starts_clean piece s) →
  split_shape b (split_loop piece s).
Proof.
  induction n as [|n IH]; intros s piece b Hn Hfree Hclean.
  { destruct s; [|simpl in Hn; lia]. rewrite split_loop_nil. by split. }
  destruct s as [|c s]; [rewrite split_loop_nil; by split|].
  rewrite split_loop_cons.
  destruct (match_separator (c :: s)) as [r|] eqn:Hm.
  - assert (length r < length (c :: s))%nat as Hr.
    { apply match_separator_inv in Hm as (w & -> & _).
      rewrite length_app. simpl. lia. }
    destruct (match_separator_head _ _ Hm) as (s' & [= -> ->]).
    assert (split_shape true (split_loop [] r)) as Hrec.
    { apply IH.
      - simpl in *. lia.
      - intros t1 t2 Heq Hne. by destruct t1, t2.
      - intros _. change (match_space_star_lf s' = Some r) in Hm.
        by apply match_space_star_lf_greedy in Hm. }
    assert (split_loop [] r ≠ []) as Hne.
    { destruct (split_weave_aux (length r) r [] (le_n _)) as (_ & Hlen & _).
      by destruct (split_loop [] r). }
    simpl. destruct (split_loop [] r) as [|q qs]; [done|].
    split_and!; [| |done].
    + intros rest t1 t2 Heq Hne'.
      eapply match_separator_rest; [done|]. by apply (Hfree t1).
    + intros Hb rest. eapply match_space_star_lf_rest. by apply Hclean.
  - apply IH.
    + simpl in Hn. lia.
    + by apply separator_free_snoc.
    + intros Hb. unfold starts_clean. rewrite <- app_assoc. by apply Hclean.
Qed.

Lemma split_paragraphs_shape text :
  split_shape false (split_paragraphs text).
Proof.
  apply (split_loop_shape (length text)); [done| |done].
  intros t1 t2 Heq Hne. by destruct t1, t2.
Qed.

Lemma split_shape_separator_free b ps :
  split_shape b ps → Forall (λ p, separator_free p []) ps.
Proof.
  revert b. induction ps as [|p ps IH]; intros b Hps; [constructor|].
  destruct ps as [|q ps]; simpl in Hps.
  - destruct Hps as [Hp _]. by repeat constructor.
  - destruct Hps as (Hp & _ & Hps). constructor; [apply Hp|by eapply IH].
Qed.

Lemma split_shape_app_r b pre l :
  split_shape b (pre ++ l) → ∃ b', split_shape b' l.
Proof.
  revert b. induction pre as [|p pre IH]; intros b Hps; [by eauto|].
  destruct (pre ++ l) as [|q ql] eqn:Heq.
  - apply app_eq_nil in Heq as [_ ->]. by exists b.
  - simpl in Hps. rewrite Heq in Hps. destruct Hps as (_ & _ & Hps).
    by apply (IH true).
Qed.

Lemma split_shape_app_l l : ∀ b post,
  split_shape b (l ++ post) → split_shape b l.
Proof.
  induction l as [|p l IH]; intros b post Hps; [done|].
  destruct l as [|q l].
  - destruct post as [|q post]; [done|]. simpl in Hps.
    destruct Hps as (Hp & Hclean & _). split; [apply Hp|].
    intros Hb. by apply Hclean.
  - simpl in Hps. destruct Hps as (Hp & Hclean & Hps).
    split_and!; [done..|]. by apply (IH true post).
Qed.

(** A paragraph that holds no separator is passed over by the loop. *)
Lemma split_loop_advance p : ∀ piece rest,
  separator_free p rest →
  split_loop piece (p ++ rest) = split_loop (piece ++ p) rest.
Proof.
  induction p as [|c p IH]; intros piece rest Hfree.
  { by rewrite app_nil_r. }
  pose proof (Hfree [] (c :: p) eq_refl) as Hc.
  change ((c :: p) ++ rest) with (c :: p ++ rest) in *.
  rewrite split_loop_cons, Hc by done.
  rewrite IH; [by rewrite <- app_assoc|].
  intros t1 t2 -> Hne. by apply (Hfree (c :: t1)).
Qed.

Lemma split_paragraphs_separator_free p :
  separator_free p [] → split_paragraphs p = [p].
Proof.
  intros Hfree. unfold split_paragraphs.
  rewrite <- (app_nil_r p) at 1. rewrite split_loop_advance by done.
  by rewrite split_loop_nil.
Qed.

Lemma split_shape_starts_clean g :
  split_shape true g → g ≠ [] →
  match_space_star_lf (join_paragraphs g) = None.
Proof.
  destruct g as [|p [|q g]]; [done| |]; intros Hg _.
  - destruct Hg as [_ Hclean]. specialize (Hclean eq_refl).
    unfold starts_clean in Hclean. by rewrite app_nil_r in Hclean.
  - destruct Hg as (_ & Hclean & _). apply (Hclean eq_refl).
Qed.

(** Splitting the join of a run of paragraphs gives the run back. *)
Lemma split_join_paragraphs g : ∀ b,
  split_shape b g → g ≠ [] → split_paragraphs (join_paragraphs g) = g.
Proof.
  induction g as [|p g IH]; intros b Hg Hne; [done|].
  destruct g as [|q g].
  - destruct Hg as [Hp _]. by apply split_paragraphs_separator_free.
  - destruct Hg as (Hp & _ & Hg).
    change (join_paragraphs (p :: q :: g))
      with (p ++ blank_line ++ join_paragraphs (q :: g)).
    unfold split_paragraphs. rewrite split_loop_advance by apply Hp.
    change (blank_line ++ join_paragraphs (q :: g))
      with (LF :: LF :: join_paragraphs (q :: g)).
    rewrite split_loop_cons.
    change (LF :: LF :: join_paragraphs (q :: g))
      with (blank_line ++ join_paragraphs (q :: g)).
    rewrite match_separator_blank_line
      by (by apply split_shape_starts_clean).
    simpl. f_equal. by apply (IH true).
Qed.

(** The loop of the chunker keeps, with every chunk, a run of consecutive
    paragraphs of which the chunk is the join. *)
Lemma chunk_loop_runs maxChars ps : ∀ done todo,
  ps = done ++ todo →
  ∃ groups g,
    (foldl (chunk_step maxChars) ([], []) done).1 = join_paragraphs <$> groups
    ∧ (foldl (chunk_step maxChars) ([], []) done).2 = join_paragraphs g
    ∧ Forall (λ g, g ≠ [] ∧ ∃ pre post, ps = pre ++ g ++ post) groups
    ∧ (∃ pre, done = pre ++ g)
    ∧ nonblank (concat groups ++ g) = nonblank done.
Proof.
  induction done as [|p done IH] using rev_ind; intros todo Hps.
  { exists [], []. split_and!; [done..|by exists []|done]. }
  rewrite <- app_assoc in Hps.
  destruct (IH _ Hps) as (groups & g & Hchunks & Hcur & Hruns & [pre Hpre]
                          & Hnb).
  rewrite foldl_app. cbn [foldl].
  destruct (foldl (chunk_step maxChars) ([], []) done) as [chunks cur].
  simpl in Hchunks, Hcur. subst chunks cur.
  destruct (chunk_step_cases maxChars (join_paragraphs <$> groups)
              (join_paragraphs g) p)
    as [(Hne & _ & ->)|[(Hne & ->)|(Hnil & ->)]]; cbn [fst snd].
  - exists (groups ++ [g]), [p]. split_and!.
    + by rewrite fmap_app.
    + done.
    + apply Forall_app. split; [done|]. apply Forall_singleton. split.
      * by intros ->.
      * exists pre, (p :: todo). by rewrite Hps, Hpre, <- app_assoc.
    + by exists done.
    + rewrite concat_app. simpl. rewrite app_nil_r.
      unfold nonblank in *. by rewrite !filter_app, <- Hnb, filter_app.
  - exists groups, (g ++ [p]). split_and!.
    + done.
    + rewrite join_paragraphs_snoc; [done|]. by intros ->.
    + done.
    + exists pre. by rewrite Hpre, <- app_assoc.
    + unfold nonblank in *. by rewrite app_assoc, !filter_app, <- Hnb,
        filter_app.
  - exists groups, [p]. split_and!; [done..|by exists done|].
    apply join_paragraphs_nil in Hnil.
    unfold nonblank in *. rewrite !filter_app in *.
    by rewrite <- Hnb, Hnil, app_nil_r.
Qed.

(** X3: splitting the chunks again gives the paragraphs of the text back: the
    chunks, split at the separator and taken together in order, are the
    paragraphs of the text, empty ones apart. *)
Theorem chunks_split_into_the_paragraphs text maxTokens :
  nonblank (splitTextIntoChunks text maxTokens ≫= split_paragraphs)
  = nonblank (split_paragraphs text).
Proof.
  unfold splitTextIntoChunks, combine_paragraphs.
  destruct (chunk_loop_runs (maxTokens * charsPerToken)
              (split_paragraphs text) (split_paragraphs text) [])
    as (groups & g & Hchunks & Hcur & Hruns & [pre Hpre] & Hnb);
    [by rewrite app_nil_r|].
  destruct (foldl _ _ (split_paragraphs text)) as [chunks cur].
  simpl in Hchunks, Hcur. subst chunks cur.
  assert (∀ g, g ≠ [] → (∃ pre post, split_paragraphs text = pre ++ g ++ post)
               → split_paragraphs (join_paragraphs g) = g) as Hsplit.
  { intros g' Hne (pre' & post' & Heq).
    pose proof (split_paragraphs_shape text) as Hshape.
    rewrite Heq in Hshape.
    apply split_shape_app_r in Hshape as [b Hshape].
    apply split_shape_app_l in Hshape. by eapply split_join_paragraphs. }
  assert ((join_paragraphs <$> groups) ≫= split_paragraphs = concat groups)
    as Hgroups.
  { clear Hnb. induction Hruns as [|g' groups' [Hne Hrun] _ IH]; [done|].
    rewrite fmap_cons, bind_cons, IH. simpl. f_equal. by apply Hsplit. }
  rewrite <- Hnb.
  destruct (truthy_string (join_paragraphs g)) eqn:Htruthy.
  - apply truthy_string_true in Htruthy.
    rewrite bind_app, Hgroups. simpl. rewrite app_nil_r.
    rewrite Hsplit; [done|by intros ->|].
    exists pre, []. by rewrite app_nil_r.
  - apply truthy_string_false, join_paragraphs_nil in Htruthy.
    rewrite Hgroups. unfold nonblank in *.
    by rewrite filter_app, Htruthy, app_nil_r.
Qed.

(** X4: no paragraph of the split holds a separator: splitting it again
    leaves it whole. *)
Theorem paragraphs_are_not_split_again text :
  Forall (λ p, split_paragraphs p = [p]) (split_paragraphs text).
Proof.
  eapply Forall_impl;
    [exact (split_shape_separator_free _ _ (split_paragraphs_shape text))|].
  intros p. apply split_paragraphs_separator_free.
Qed.

(** *** What becomes of the separators *)

Lemma split_shape_after b pre l :
  split_shape b (pre ++ l) → pre ≠ [] → split_shape true l.
Proof.
  revert b. induction pre as [|p pre IH]; intros b Hps Hpre; [done|].
  destruct l as [|q l]; [done|].
  change ((p :: pre) ++ q :: l) with (p :: (pre ++ q :: l)) in Hps.
  destruct (pre ++ q :: l) as [|r rl] eqn:Heq.
  { by destruct pre. }
  assert (split_shape true (r :: rl)) as Hps' by apply Hps.
  destruct pre as [|p' pre]; [by injection Heq as -> ->|].
  by apply (IH true).
Qed.

(** Only the first and the last paragraph of a split can be empty. *)
Lemma split_paragraphs_middle text pre p post :
  split_paragraphs text = pre ++ p :: post → pre ≠ [] → post ≠ [] → p ≠ [].
Proof.
  intros Heq Hpre Hpost ->.
  pose proof (split_paragraphs_shape text) as Hshape. rewrite Heq in Hshape.
  apply split_shape_after in Hshape; [|done].
  destruct post as [|q post]; [done|]. simpl in Hshape.
  destruct Hshape as (_ & Hclean & _).
  by specialize (Hclean eq_refl [LF]).
Qed.

(** The loop of the chunker cuts the paragraphs into consecutive groups, of
    which the chunks are the joins; it leaves out empty paragraphs only, at
    the front, and one at the very end. *)
Lemma chunk_loop_partition maxChars ps :
  (∀ pre p post, ps = pre ++ p :: post → pre ≠ [] → post ≠ [] → p ≠ []) →
  ∀ done todo, ps = done ++ todo →
  ∃ front groups g,
    (foldl (chunk_step maxChars) ([], []) done).1 = join_paragraphs <$> groups
    ∧ (foldl (chunk_step maxChars) ([], []) done).2 = join_paragraphs g
    ∧ Forall (λ g, join_paragraphs g ≠ []) groups
    ∧ done = front ++ concat groups ++ g
    ∧ Forall (λ p, p = []) front
    ∧ (join_paragraphs g ≠ []
       ∨ (g = [] ∧ groups = [])
       ∨ (g = [[]] ∧ todo = [])).
Proof.
  intros Hmiddle.
  induction done as [|p done IH] using rev_ind; intros todo Hps.
  { exists [], [], []. split_and!; [done..|]. right. by left. }
  rewrite <- app_assoc in Hps.
  destruct (IH _ Hps) as (front & groups & g & Hchunks & Hcur & Hne & Hdone
                          & Hfront & Hstate).
  rewrite foldl_app. cbn [foldl].
  destruct (foldl (chunk_step maxChars) ([], []) done) as [chunks cur].
  simpl in Hchunks, Hcur. subst chunks cur.
  destruct (chunk_step_cases maxChars (join_paragraphs <$> groups)
              (join_paragraphs g) p)
    as [(Hg & _ & ->)|[(Hg & ->)|(Hnil & ->)]]; cbn [fst snd].
  - exists front, (groups ++ [g]), [p]. split_and!.
    + by rewrite fmap_app.
    + done.
    + apply Forall_app. split; [done|]. by apply Forall_singleton.
    + rewrite Hdone, concat_app. simpl. by rewrite app_nil_r, <- !app_assoc.
    + done.
    + destruct (decide (p = [])) as [->|Hp]; [|by left].
      right. right. split; [done|].
      destruct todo as [|q todo]; [done|]. exfalso.
      apply (Hmiddle done [] (q :: todo)); [done| |done..].
      intros ->. symmetry in Hdone.
      apply app_eq_nil in Hdone as [_ [_ ->]%app_eq_nil]. done.
  - exists front, groups, (g ++ [p]). split_and!; [done| |done| |done|].
    + rewrite join_paragraphs_snoc; [done|]. by intros ->.
    + by rewrite Hdone, <- !app_assoc.
    + left. rewrite join_paragraphs_snoc by (by intros ->).
      by destruct (join_paragraphs g).
  - destruct Hstate as [?|[[-> ->]|[_ ?]]]; [done| |done].
    simpl in Hdone. rewrite app_nil_r in Hdone. subst done.
    destruct (decide (p = [])) as [->|Hp].
    + exists (front ++ [[]]), [], []. split_and!; [done..| | |].
      * simpl. by rewrite app_nil_r.
      * apply Forall_app. split; [done|]. by apply Forall_singleton.
      * right. by left.
    + exists front, [], [p]. split_and!; [done..|]. by left.
Qed.

(** C1 (amended): for every text and budget, the text is its paragraphs woven
    with the separators that [split] matched (each a line feed, white space,
    a line feed), and the concatenation of the chunks is the same paragraphs,
    in the same order, woven with joiners instead, each ["\n\n"] or nothing.
    Which is which: the paragraphs are cut into consecutive groups, every
    chunk is the join of one group with ["\n\n"], so that a separator
    between two paragraphs of one chunk has become exactly ["\n\n"], and
    nothing stands between two chunks; the paragraphs left out, before the
    first group and after the last, are empty, and only the first and the
    last paragraph of a text can be empty.  No character of a paragraph is
    lost, added or moved. *)
Theorem chunks_reproduce_text_up_to_separators text maxTokens :
  let paragraphs := split_paragraphs text in
  let separators := split_separators text in
  weave paragraphs separators = text
  ∧ Forall is_separator separators
  ∧ (∃ joiners, length joiners = length separators
       ∧ Forall is_joiner joiners
       ∧ concat (splitTextIntoChunks text maxTokens)
         = weave paragraphs joiners)
  ∧ (∃ front groups back,
       splitTextIntoChunks text maxTokens = join_paragraphs <$> groups
       ∧ paragraphs = front ++ concat groups ++ back
       ∧ Forall (λ g, join_paragraphs g ≠ []) groups
       ∧ Forall (λ p, p = []) front
       ∧ Forall (λ p, p = []) back)
  ∧ (∀ before p after,
       paragraphs = before ++ p :: after →
       p = [] → before = [] ∨ after = []).
Proof.
  intros paragraphs separators.
  destruct (split_paragraphs_weave text) as (Hw & Hlen & Hsep).
  split_and!; [done..| | |].
  - unfold splitTextIntoChunks.
    rewrite combine_paragraphs_concat. fold paragraphs.
    destruct (chunk_loop_weave (maxTokens * charsPerToken) paragraphs)
      as (js & Hjs & Hj & Hc).
    { intros E. unfold paragraphs in E. rewrite E in Hlen. done. }
    exists js. split_and!; [|done..].
    fold paragraphs separators in Hlen. lia.
  - unfold splitTextIntoChunks, combine_paragraphs. fold paragraphs.
    destruct (chunk_loop_partition (maxTokens * charsPerToken) paragraphs
                (split_paragraphs_middle text) paragraphs [])
      as (front & groups & g & Hchunks & Hcur & Hne & Hdone & Hfront & Hstate);
      [by rewrite app_nil_r|].
    destruct (foldl _ _ paragraphs) as [chunks cur].
    simpl in Hchunks, Hcur. subst chunks cur.
    destruct (truthy_string (join_paragraphs g)) eqn:Htruthy.
    + apply truthy_string_true in Htruthy.
      exists front, (groups ++ [g]), []. split_and!; [|..|done|done].
      * by rewrite fmap_app.
      * rewrite concat_app. simpl. by rewrite !app_nil_r.
      * apply Forall_app. split; [done|]. by apply Forall_singleton.
    + apply truthy_string_false in Htruthy.
      destruct Hstate as [?|[[-> ->]|[-> _]]]; [done| |].
      * exists front, [], []. by split_and!.
      * exists front, groups, [[]]. split_and!; [done..|].
        by apply Forall_singleton.
  - intros before p after Heq ->.
    destruct before as [|b before]; [by left|]. right.
    destruct after as [|a after]; [done|]. exfalso.
    by apply (split_paragraphs_middle text (b :: before) [] (a :: after)).
Qed.
End chunker_round_trip.

(** ** The merged sections *)

Lemma section_pass_in_mergeResults_aux results h prop ps : ∀ merged hq,
  NoDup ps → prop ∈ ps → heap_extends h hq →
  (∀ q, q ∈ ps → get_array q merged = None) →
  ∃ hp, heap_extends h hp
    ∧ heap_extends (section_pass prop results hp).2
        (foldl (merge_prop results) (merged, hq) ps).2
    ∧ get_array prop (foldl (merge_prop results) (merged, hq) ps).1
      = (if bool_decide (0 < length (items (section_pass prop results hp).1))
         then Some (items (section_pass prop results hp).1) else None).
Proof.
  induction ps as [|p ps IH]; intros merged hq Hnd Hin Hext Hnone.
  { by apply elem_of_nil in Hin. }
  apply NoDup_cons in Hnd as [Hp Hnd]. cbn [foldl].
  destruct (merge_prop_spec h results merged hq p Hext)
    as (Hext1 & _ & Hother1 & _).
  destruct (decide (prop = p)) as [->|Hne].
  - exists hq. split; [done|].
    destruct (merge_props_spec h results ps
                (merge_prop results (merged, hq) p).1
                (merge_prop results (merged, hq) p).2 Hnd)
      as (Hext2 & _ & Hother2 & _).
    { by eapply heap_extends_trans. }
    { intros q Hq. rewrite Hother1; [apply Hnone; by right|]. by intros ->. }
    destruct (merge_prop results (merged, hq) p) as [m1 h1] eqn:E.
    cbn [fst snd] in *. rewrite Hother2 by done.
    unfold merge_prop in E. fold (section_pass p results hq) in E.
    destruct (section_pass p results hq) as [acc h'].
    injection E as <- <-. cbn [fst snd]. split; [done|].
    case_bool_decide; [|apply Hnone; by left].
    by rewrite get_array_set_array, decide_True.
  - apply elem_of_cons in Hin as [?|Hin]; [done|].
    destruct (merge_prop results (merged, hq) p) as [m1 h1].
    cbn [fst snd] in *. apply IH; [done..| |].
    + by eapply heap_extends_trans.
    + intros q Hq. rewrite Hother1; [apply Hnone; by right|]. by intros ->.
Qed.

(** Each section of the merged record is what one pass leaves in [items],
    and the heap after the merge extends the heap after that pass. *)
Lemma section_pass_in_mergeResults results h prop :
  ∃ hp, heap_extends h hp
    ∧ heap_extends (section_pass prop results hp).2 (mergeResults results h).2
    ∧ get_array prop (mergeResults results h).1
      = (if bool_decide (0 < length (items (section_pass prop results hp).1))
         then Some (items (section_pass prop results hp).1) else None).
Proof.
  destruct (section_pass_in_mergeResults_aux results h prop arrayProps
              (foldl merge_scalars empty_record results) h
              arrayProps_nodup (arrayProps_complete prop)
              (heap_extends_refl h)) as (hp & H1 & H2 & H3).
  { intros q _. rewrite (proj1 (merge_scalars_arrays results _ q)).
    by destruct q. }
  exists hp. unfold mergeResults.
  destruct (foldl (merge_prop results) _ arrayProps) as [merged h'].
  cbn [fst snd] in *. split_and!; [done..|].
  by rewrite (proj1 (merge_findings_sections results merged)).
Qed.

(** The entries of a merged section, read after the merge, are the entries
    of [items] read when the pass ended. *)
Lemma section_entries_pass results h prop :
  ∃ hp, heap_extends h hp
    ∧ section_entries (mergeResults results h).2 prop (mergeResults results h).1
      = entries (section_pass prop results hp).2
          (items (section_pass prop results hp).1).
Proof.
  destruct (section_pass_in_mergeResults results h prop)
    as (hp & Hext & [Hlen Hagree] & Hget).
  exists hp. split; [done|]. unfold section_entries. rewrite Hget.
  pose proof (merge_arrays_inv hp prop results _ _ (merge_inv_init hp)) as Hinv.
  fold (section_pass prop results hp) in Hinv.
  case_bool_decide as Hitems; simpl.
  - apply entries_frame. intros l Hl. apply Hagree.
    apply (inv_fresh _ _ _ Hinv) in Hl. lia.
  - destruct (items (section_pass prop results hp).1); [done|].
    simpl in Hitems. lia.
Qed.

(** *** The names of a merged section *)

Lemma merge_item_names h0 acc h l :
  merge_inv h0 acc h →
  entry_name <$> entries (merge_item (acc, h) l).2
                   (items (merge_item (acc, h) l).1)
  = add_name (entry_name <$> entries h (items acc)) (entry_name (deref h l)).
Proof.
  intros [Hlen Hframe Hfresh Hndi Hnames]. unfold merge_item, add_name.
  fold (entry_name (deref h l)).
  destruct (nameMap acc !! entry_name (deref h l)) as [index|] eqn:Hname.
  - apply Hnames in Hname as (e & He & Hn). rewrite He. simpl.
    rewrite decide_True.
    + rewrite (entries_insert _ _ index) by
        (try done; apply list_elem_of_lookup_2, Hfresh in He; lia).
      rewrite list_fmap_insert, merge_numeric_properties_name.
      apply list_insert_id. unfold entries.
      by rewrite !list_lookup_fmap, He.
    + rewrite <- Hn. apply list_elem_of_fmap. exists (deref h e).
      split; [done|]. apply list_elem_of_fmap. exists e.
      split; [done|]. by eapply list_elem_of_lookup_2.
  - simpl. rewrite decide_False.
    + unfold entries. rewrite !fmap_app. simpl. rewrite deref_app_new.
      f_equal. f_equal. apply list_fmap_ext. intros i l' Hl'.
      apply deref_app_l. apply list_elem_of_lookup_2, Hfresh in Hl'. lia.
    + intros (e & Hn & He)%list_elem_of_fmap. unfold entries in He.
      apply list_elem_of_fmap in He as (l' & -> & Hl').
      apply list_elem_of_lookup_1 in Hl' as [i Hi].
      assert (nameMap acc !! entry_name (deref h l) = Some i) as Hmap
        by (apply Hnames; eauto).
      by rewrite Hname in Hmap.
Qed.

Lemma merge_items_names h0 arr : ∀ acc h,
  merge_inv h0 acc h → (∀ l, l ∈ arr → l < length h0) →
  entry_name <$> entries (foldl merge_item (acc, h) arr).2
                   (items (foldl merge_item (acc, h) arr).1)
  = foldl add_name (entry_name <$> entries h (items acc))
      (entry_name <$> entries h0 arr).
Proof.
  induction arr as [|l arr IH]; intros acc h Hinv Harr; [done|].
  change (entries h0 (l :: arr)) with (deref h0 l :: entries h0 arr).
  cbn [foldl fmap list_fmap].
  pose proof (merge_item_inv _ _ _ l Hinv) as Hinv'.
  pose proof (merge_item_names _ _ _ l Hinv) as Href.
  assert (deref h l = deref h0 l) as Hd.
  { apply deref_lookup, (inv_frame _ _ _ Hinv), Harr. by left. }
  rewrite Hd in Href.
  destruct (merge_item (acc, h) l) as [acc' h']. simpl in *.
  rewrite <- Href. apply IH; [done|]. intros l' Hl'. apply Harr. by right.
Qed.

Lemma merge_arrays_names h prop hq results : ∀ acc hc,
  heap_extends h hq → valid_results h results → merge_inv hq acc hc →
  entry_name <$> entries (foldl (merge_array prop) (acc, hc) results).2
                   (items (foldl (merge_array prop) (acc, hc) results).1)
  = foldl add_name (entry_name <$> entries hc (items acc))
      (entry_name <$> concat (section_input h prop results)).
Proof.
  intros acc hc [Hlen Hagree]. revert acc hc.
  induction results as [|r results IH]; intros acc hc Hval Hinv; [done|].
  apply Forall_cons in Hval as [Hr Hval'].
  cbn [foldl]. unfold section_input. cbn [omap list_omap].
  unfold merge_array at 2 4.
  destruct (get_array prop r) as [arr|] eqn:Harr; simpl; [|by apply IH].
  assert (∀ l, l ∈ arr → l < length h) as Hin.
  { intros l Hl. pose proof (array_entries_get _ _ _ _ Harr Hl) as Hl'.
    apply (proj1 (Forall_forall _ _) Hr _ Hl'). }
  pose proof (merge_items_names hq arr acc hc Hinv) as Href.
  pose proof (merge_items_inv hq arr _ _ Hinv) as Hinv'.
  destruct (foldl merge_item (acc, hc) arr) as [acc' hc']. simpl in *.
  rewrite fmap_app, foldl_app.
  replace (entries h arr) with (entries hq arr)
    by (apply entries_frame; intros l Hl; apply Hagree; auto).
  rewrite <- Href by (intros l Hl; specialize (Hin l Hl); lia).
  by apply IH.
Qed.

(** X5: the names of a merged section are the names of the entries that
    the records contribute to it, each once, in the order in which they
    first appear; the types of the fields do not matter. *)
Theorem merged_names_in_first_seen_order results h prop :
  valid_results h results →
  entry_name <$> section_entries (mergeResults results h).2 prop
                   (mergeResults results h).1
  = foldl add_name [] (entry_name <$> concat (section_input h prop results)).
Proof.
  intros Hval.
  destruct (section_entries_pass results h prop) as (hp & Hext & ->).
  unfold section_pass.
  by rewrite (merge_arrays_names h prop hp results _ _ Hext Hval
                (merge_inv_init hp)).
Qed.

Lemma merged_names_in_first_seen_order_witness :
  valid_results [category "Adult Fiction" 10; category "DVDs" 3;
                 category "Adult Fiction" 5]
    [collection_record [0; 1]; collection_record [2]]
  ∧ entry_name <$> section_entries
      (mergeResults [collection_record [0; 1]; collection_record [2]]
         [category "Adult Fiction" 10; category "DVDs" 3;
          category "Adult Fiction" 5]).2 CollectionData
      (mergeResults [collection_record [0; 1]; collection_record [2]]
         [category "Adult Fiction" 10; category "DVDs" 3;
          category "Adult Fiction" 5]).1
    = foldl add_name []
        (entry_name <$> concat (section_input
           [category "Adult Fiction" 10; category "DVDs" 3;
            category "Adult Fiction" 5] CollectionData
           [collection_record [0; 1]; collection_record [2]])).
Proof.
  split; [by apply (bool_decide_unpack _); vm_compute|].
  apply merged_names_in_first_seen_order.
  by apply (bool_decide_unpack _); vm_compute.
Defined.

(** *** Sections whose names are all different *)

Lemma merge_item_new h0 acc h l :
  merge_inv h0 acc h →
  entry_name (deref h l) ∉ entry_name <$> entries h (items acc) →
  entries (merge_item (acc, h) l).2 (items (merge_item (acc, h) l).1)
  = entries h (items acc) ++ [deref h l].
Proof.
  intros [Hlen Hframe Hfresh Hndi Hnames] Hnew. unfold merge_item.
  fold (entry_name (deref h l)).
  destruct (nameMap acc !! entry_name (deref h l)) as [index|] eqn:Hname.
  - apply Hnames in Hname as (e & He & Hn). destruct Hnew.
    rewrite <- Hn. apply list_elem_of_fmap. exists (deref h e).
    split; [done|]. apply list_elem_of_fmap. exists e.
    split; [done|]. by eapply list_elem_of_lookup_2.
  - simpl. unfold entries. rewrite fmap_app. simpl. rewrite deref_app_new.
    f_equal. apply list_fmap_ext. intros i l' Hl'.
    apply deref_app_l. apply list_elem_of_lookup_2, Hfresh in Hl'. lia.
Qed.

Lemma merge_items_new h0 arr : ∀ acc h,
  merge_inv h0 acc h → (∀ l, l ∈ arr → l < length h0) →
  NoDup (entry_name <$> (entries h (items acc) ++ entries h0 arr)) →
  entries (foldl merge_item (acc, h) arr).2
          (items (foldl merge_item (acc, h) arr).1)
  = entries h (items acc) ++ entries h0 arr.
Proof.
  induction arr as [|l arr IH]; intros acc h Hinv Harr Hnd.
  { simpl. by rewrite app_nil_r. }
  change (entries h0 (l :: arr)) with (deref h0 l :: entries h0 arr) in *.
  cbn [foldl].
  pose proof (merge_item_inv _ _ _ l Hinv) as Hinv'.
  pose proof (merge_item_new _ _ _ l Hinv) as Href.
  assert (deref h l = deref h0 l) as Hd.
  { apply deref_lookup, (inv_frame _ _ _ Hinv), Harr. by left. }
  rewrite Hd in Href.
  rewrite cons_middle, app_assoc in Hnd |- *.
  destruct (merge_item (acc, h) l) as [acc' h']. simpl in *.
  rewrite <- Href.
  - apply IH; [done| |].
    + intros l' Hl'. apply Harr. by right.
    + rewrite Href; [done|]. rewrite fmap_app in Hnd.
      apply NoDup_app in Hnd as [Hnd _]. rewrite fmap_app in Hnd.
      apply NoDup_app in Hnd as (_ & Hnd & _). intros Hin.
      apply (Hnd _ Hin). simpl. by left.
  - rewrite fmap_app in Hnd.
    apply NoDup_app in Hnd as [Hnd _]. rewrite fmap_app in Hnd.
    apply NoDup_app in Hnd as (_ & Hnd & _). intros Hin.
    apply (Hnd _ Hin). simpl. by left.
Qed.

Lemma merge_arrays_new h prop hq results : ∀ acc hc,
  heap_extends h hq → valid_results h results → merge_inv hq acc hc →
  NoDup (entry_name <$> (entries hc (items acc)
                         ++ concat (section_input h prop results))) →
  entries (foldl (merge_array prop) (acc, hc) results).2
          (items (foldl (merge_array prop) (acc, hc) results).1)
  = entries hc (items acc) ++ concat (section_input h prop results).
Proof.
  intros acc hc [Hlen Hagree]. revert acc hc.
  induction results as [|r results IH]; intros acc hc Hval Hinv Hnd.
  { simpl. by rewrite app_nil_r. }
  apply Forall_cons in Hval as [Hr Hval'].
  cbn [foldl]. unfold section_input in *. cbn [omap list_omap] in *.
  unfold merge_array at 2 4.
  destruct (get_array prop r) as [arr|] eqn:Harr; simpl in *;
    [|by apply IH].
  assert (∀ l, l ∈ arr → l < length h) as Hin.
  { intros l Hl. pose proof (array_entries_get _ _ _ _ Harr Hl) as Hl'.
    apply (proj1 (Forall_forall _ _) Hr _ Hl'). }
  pose proof (merge_items_new hq arr acc hc Hinv) as Href.
  pose proof (merge_items_inv hq arr _ _ Hinv) as Hinv'.
  replace (entries h arr) with (entries hq arr) in *
    by (apply entries_frame; intros l Hl; apply Hagree; auto).
  rewrite app_assoc in Hnd |- *.
  destruct (foldl merge_item (acc, hc) arr) as [acc' hc']. simpl in *.
  rewrite <- Href.
  - apply IH; [done..|]. rewrite Href; [done| |].
    + intros l Hl; specialize (Hin l Hl); lia.
    + rewrite fmap_app in Hnd. by apply NoDup_app in Hnd as [Hnd _].
  - intros l Hl; specialize (Hin l Hl); lia.
  - rewrite fmap_app in Hnd. by apply NoDup_app in Hnd as [Hnd _].
Qed.

(** X6: when no name occurs twice among the entries that the records
    contribute to a section, the merged section is these entries, one
    after the other, whatever the types of their fields. *)
Theorem distinct_names_are_concatenated results h prop :
  valid_results h results →
  NoDup (entry_name <$> concat (section_input h prop results)) →
  section_entries (mergeResults results h).2 prop (mergeResults results h).1
  = concat (section_input h prop results).
Proof.
  intros Hval Hnd.
  destruct (section_entries_pass results h prop) as (hp & Hext & ->).
  unfold section_pass.
  by rewrite (merge_arrays_new h prop hp results _ _ Hext Hval
                (merge_inv_init hp)).
Qed.

Lemma distinct_names_are_concatenated_witness :
  valid_results [category "Books" 10; category "DVDs" 3; category "Maps" 5]
    [collection_record [0; 1]; collection_record [2]]
  ∧ NoDup (entry_name <$> concat (section_input
      [category "Books" 10; category "DVDs" 3; category "Maps" 5]
      CollectionData [collection_record [0; 1]; collection_record [2]]))
  ∧ section_entries
      (mergeResults [collection_record [0; 1]; collection_record [2]]
         [category "Books" 10; category "DVDs" 3; category "Maps" 5]).2
      CollectionData
      (mergeResults [collection_record [0; 1]; collection_record [2]]
         [category "Books" 10; category "DVDs" 3; category "Maps" 5]).1
    = concat (section_input
        [category "Books" 10; category "DVDs" 3; category "Maps" 5]
        CollectionData [collection_record [0; 1]; collection_record [2]]).
Proof.
  assert (NoDup (entry_name <$> concat (section_input
      [category "Books" 10; category "DVDs" 3; category "Maps" 5]
      CollectionData [collection_record [0; 1]; collection_record [2]])))
    as Hnd by (by apply (bool_decide_unpack _); vm_compute).
  split_and!; [by apply (bool_decide_unpack _); vm_compute|done|].
  apply distinct_names_are_concatenated; [|done].
  by apply (bool_decide_unpack _); vm_compute.
Defined.

(** *** Typing is kept *)

Lemma merge_numeric_properties_typed item existing :
  numeric_fields existing → own_keys item →
  numeric_fields (merge_numeric_properties item existing).
Proof.
  intros Hty Hown key v Hv Hne.
  rewrite merge_numeric_properties_lookup in Hv.
  destruct (item !! key) as [[n|s|hd ns]|] eqn:Hi;
    [|by apply (Hty key)..].
  rewrite decide_True in Hv by done. rewrite js_set_lookup_eq in Hv.
  pose proof (Hown _ _ Hi) as Hkey. unfold inherited_keys in Hkey.
  apply not_elem_of_cons in Hkey as [Hproto Hmethod].
  rewrite decide_False in Hv by (by intros [? _]).
  injection Hv as <-. unfold js_get.
  destruct (existing !! key) as [v|] eqn:He.
  - pose proof (Hty _ _ He Hne) as Hnum. destruct v as [m| |]; [|done..].
    simpl. by destruct (falsy_number m).
  - by rewrite !decide_False by done.
Qed.

Lemma merge_item_typed h0 acc h l :
  merge_inv h0 acc h →
  Forall numeric_fields (entries h (items acc)) →
  numeric_fields (deref h l) → own_keys (deref h l) →
  Forall numeric_fields
    (entries (merge_item (acc, h) l).2 (items (merge_item (acc, h) l).1)).
Proof.
  intros [Hlen Hframe Hfresh Hndi Hnames] Hty Hlty Hlown.
  unfold merge_item.
  destruct (nameMap acc !! entry_name (deref h l)) as [index|] eqn:Hname.
  - apply Hnames in Hname as (e & He & Hn). rewrite He. simpl.
    rewrite (entries_insert _ _ index) by
      (try done; apply list_elem_of_lookup_2, Hfresh in He; lia).
    apply Forall_insert; [done|].
    apply merge_numeric_properties_typed; [|done].
    eapply Forall_lookup_1; [exact Hty|].
    unfold entries. by rewrite list_lookup_fmap, He.
  - simpl. unfold entries. rewrite fmap_app. simpl. rewrite deref_app_new.
    apply Forall_app. split; [|by apply Forall_singleton].
    replace (deref (h ++ [deref h l]) <$> items acc)
      with (entries h (items acc)); [done|].
    apply list_fmap_ext. intros i l' Hl'. symmetry.
    apply deref_app_l. apply list_elem_of_lookup_2, Hfresh in Hl'. lia.
Qed.

Lemma merge_items_typed h0 arr : ∀ acc h,
  merge_inv h0 acc h →
  Forall numeric_fields (entries h (items acc)) →
  (∀ l, l ∈ arr →
     l < length h0 ∧ numeric_fields (deref h0 l) ∧ own_keys (deref h0 l)) →
  Forall numeric_fields
    (entries (foldl merge_item (acc, h) arr).2
             (items (foldl merge_item (acc, h) arr).1)).
Proof.
  induction arr as [|l arr IH]; intros acc h Hinv Hty Harr; [done|].
  cbn [foldl]. pose proof (merge_item_inv _ _ _ l Hinv) as Hinv'.
  destruct (Harr l) as (Hl & Hlty & Hlown); [by left|].
  assert (deref h l = deref h0 l) as Hd
    by (apply deref_lookup, (inv_frame _ _ _ Hinv); done).
  pose proof (merge_item_typed _ _ _ l Hinv Hty) as Hstep.
  rewrite Hd in Hstep. specialize (Hstep Hlty Hlown).
  destruct (merge_item (acc, h) l) as [acc' h']. simpl in *.
  apply IH; [done..|]. intros l' Hl'. apply Harr. by right.
Qed.

Lemma merge_arrays_typed h prop hq results : ∀ acc hc,
  heap_extends h hq → valid_results h results → typed_results h results →
  own_keys_results h results → merge_inv hq acc hc →
  Forall numeric_fields (entries hc (items acc)) →
  Forall numeric_fields
    (entries (foldl (merge_array prop) (acc, hc) results).2
             (items (foldl (merge_array prop) (acc, hc) results).1)).
Proof.
  intros acc hc [Hlen Hagree]. revert acc hc.
  induction results as [|r results IH];
    intros acc hc Hval Htyp Hown Hinv Hty; [done|].
  apply Forall_cons in Hval as [Hr Hval'].
  apply Forall_cons in Htyp as [Hrt Htyp'].
  apply Forall_cons in Hown as [Hro Hown'].
  cbn [foldl]. unfold merge_array at 2 4.
  destruct (get_array prop r) as [arr|] eqn:Harr; simpl; [|by apply IH].
  pose proof (merge_items_typed hq arr acc hc Hinv Hty) as Hstep.
  pose proof (merge_items_inv hq arr _ _ Hinv) as Hinv'.
  destruct (foldl merge_item (acc, hc) arr) as [acc' hc']. simpl in *.
  apply IH; [done..|]. apply Hstep.
  intros l Hl. pose proof (array_entries_get _ _ _ _ Harr Hl) as Hin.
  pose proof (proj1 (Forall_forall _ _) Hr _ Hin) as Hv.
  pose proof (proj1 (Forall_forall _ _) Hrt _ Hin) as Ht.
  pose proof (proj1 (Forall_forall _ _) Hro _ Hin) as Ho.
  simpl in Hv, Ht, Ho.
  replace (deref hq l) with (deref h l)
    by (symmetry; by apply deref_lookup, Hagree).
  split_and!; [lia|done..].
Qed.

(** X8: the merge of typed records is typed, as long as no entry has a
    property named like a property of [Object.prototype]: every field of a
    merged entry, its name apart, is a number. *)
Theorem merged_entries_are_typed results h prop :
  valid_results h results → typed_results h results →
  own_keys_results h results →
  Forall numeric_fields
    (section_entries (mergeResults results h).2 prop
       (mergeResults results h).1).
Proof.
  intros Hval Htyp Hown.
  destruct (section_entries_pass results h prop) as (hp & Hext & ->).
  unfold section_pass.
  apply (merge_arrays_typed h prop hp results); try done.
  apply merge_inv_init.
Qed.

Lemma merged_entries_are_typed_witness :
  valid_results [category "Adult Fiction" 10; category "Adult Fiction" 5]
    [collection_record [0]; collection_record [1]]
  ∧ typed_results [category "Adult Fiction" 10; category "Adult Fiction" 5]
      [collection_record [0]; collection_record [1]]
  ∧ own_keys_results
      [category "Adult Fiction" 10; category "Adult Fiction" 5]
      [collection_record [0]; collection_record [1]]
  ∧ Forall numeric_fields
      (section_entries
         (mergeResults [collection_record [0]; collection_record [1]]
            [category "Adult Fiction" 10; category "Adult Fiction" 5]).2
         CollectionData
         (mergeResults [collection_record [0]; collection_record [1]]
            [category "Adult Fiction" 10; category "Adult Fiction" 5]).1).
Proof.
  split_and!; [by apply (bool_decide_unpack _); vm_compute..|].
  apply merged_entries_are_typed; by apply (bool_decide_unpack _); vm_compute.
Defined.

(** *** Which sections the merged record has *)

Lemma merge_item_items h0 acc h l :
  merge_inv h0 acc h →
  items (merge_item (acc, h) l).1 ≠ []
  ∧ length (items acc) ≤ length (items (merge_item (acc, h) l).1).
Proof.
  intros [_ _ _ _ Hnames]. unfold merge_item.
  destruct (nameMap acc !! entry_name (deref h l)) as [index|] eqn:Hname.
  - apply Hnames in Hname as (e & He & _). rewrite He. simpl.
    split; [|done]. intros Hnil. by rewrite Hnil in He.
  - simpl. rewrite length_app. simpl. split; [|lia].
    by destruct (items acc).
Qed.

Lemma merge_items_items h0 arr : ∀ acc h,
  merge_inv h0 acc h →
  (arr ≠ [] → items (foldl merge_item (acc, h) arr).1 ≠ [])
  ∧ length (items acc) ≤ length (items (foldl merge_item (acc, h) arr).1).
Proof.
  induction arr as [|l arr IH]; intros acc h Hinv; [done|].
  cbn [foldl]. pose proof (merge_item_inv _ _ _ l Hinv) as Hinv'.
  destruct (merge_item_items _ _ _ l Hinv) as [Hne Hle].
  destruct (merge_item (acc, h) l) as [acc' h']. simpl in *.
  destruct (IH acc' h' Hinv') as [_ Hle']. split; [|lia].
  intros _ Hnil. rewrite Hnil in Hle'. destruct (items acc'); [done|].
  simpl in Hle'. lia.
Qed.

Lemma section_pass_items h0 prop results : ∀ acc h,
  merge_inv h0 acc h →
  items (foldl (merge_array prop) (acc, h) results).1 ≠ []
  ↔ items acc ≠ []
    ∨ ∃ r arr, r ∈ results ∧ get_array prop r = Some arr ∧ arr ≠ [].
Proof.
  induction results as [|r results IH]; intros acc h Hinv.
  { simpl. split; [by left|]. intros [?|(r & arr & []%elem_of_nil & _)].
    done. }
  cbn [foldl]. pose proof (merge_array_inv _ prop r _ _ Hinv) as Hinv'.
  assert (items (merge_array prop (acc, h) r).1 ≠ []
          ↔ items acc ≠ []
            ∨ ∃ arr, get_array prop r = Some arr ∧ arr ≠ []) as Hstep.
  { unfold merge_array. destruct (get_array prop r) as [arr|] eqn:Harr.
    - destruct (merge_items_items h0 arr acc h Hinv) as [Hne Hle]. split.
      + intros Hitems. destruct (decide (arr = [])) as [->|Harr'];
          [by left|right; eauto].
      + intros [Hacc|(arr' & [= <-] & Harr')]; [|by apply Hne].
        intros Hnil. rewrite Hnil in Hle. destruct (items acc); [done|].
        simpl in Hle. lia.
    - simpl. split; [by left|]. by intros [?|(arr & ? & _)]. }
  destruct (merge_array prop (acc, h) r) as [acc' h']. simpl in *.
  rewrite (IH acc' h' Hinv'), Hstep. split.
  - intros [[?|(arr & Harr & Hne)]|(r' & arr & Hr' & Harr & Hne)].
    + by left.
    + right. exists r, arr. split_and!; [by left|done..].
    + right. exists r', arr. split_and!; [by right|done..].
  - intros [?|(r' & arr & Hr' & Harr & Hne)]; [by left; left|].
    apply elem_of_cons in Hr' as [->|Hr'].
    + left. right. eauto.
    + right. eauto.
Qed.

(** X9: the merged record has a category-breakdown section exactly when
    some record contributes an entry to it, and never an empty one. *)
Theorem section_present_iff_contributed results h prop :
  (is_Some (get_array prop (mergeResults results h).1)
   ↔ ∃ r arr, r ∈ results ∧ get_array prop r = Some arr ∧ arr ≠ [])
  ∧ get_array prop (mergeResults results h).1 ≠ Some [].
Proof.
  destruct (section_pass_in_mergeResults results h prop)
    as (hp & _ & _ & ->).
  pose proof (section_pass_items hp prop results _ _ (merge_inv_init hp))
    as Hitems. fold (section_pass prop results hp) in Hitems.
  simpl in Hitems. split.
  - case_bool_decide as Hlen.
    + split; [|by eexists]. intros _.
      destruct (proj1 Hitems) as [?|?]; [|done..].
      intros Hnil. rewrite Hnil in Hlen. simpl in Hlen. lia.
    + split; [by intros [? ?]|]. intros Hex. destruct Hlen.
      assert (items (section_pass prop results hp).1 ≠ []) as Hne
        by (apply Hitems; by right).
      destruct (items (section_pass prop results hp).1); [done|]. simpl. lia.
  - case_bool_decide as Hlen; [|done]. intros [= Hnil].
    rewrite Hnil in Hlen. simpl in Hlen. lia.
Qed.

(** ** The outcome of a run *)

Section outcome.
Context {E : Type} (X : externals E).

Lemma bind_normal {A B} (m : M E A) (k : A → M E B) w b w' :
  (m ≫= k) w = (Normal b, w') →
  ∃ a w1, m w = (Normal a, w1) ∧ k a w1 = (Normal b, w').
Proof.
  unfold mbind, M_bind, bind. destruct (m w) as [[a|e] w1]; [eauto|done].
Qed.

Lemma try_catch_cases {A} (m : M E A) handler w :
  (∃ a w', m w = (Normal a, w') ∧ try_catch m handler w = (Normal a, w'))
  ∨ (∃ e w1, m w = (Throw e, w1) ∧ try_catch m handler w = handler e w1).
Proof.
  unfold try_catch. destruct (m w) as [[a|e] w1]; [left|right]; eauto.
Qed.

Lemma updateDoc_reports_log id fields w :
  w_log (updateDoc_reports X id fields w).2 = w_log w.
Proof.
  unfold updateDoc_reports, mbind, M_bind, bind, firestore_call, gets.
  destruct (firestore_fault X _ (w_ext w)) as [[e|] ext]; [done|]. simpl.
  by destruct (w_reports w !! id).
Qed.

Lemma updateDoc_reports_normal id fields w u w' :
  updateDoc_reports X id fields w = (Normal u, w') →
  ∃ d, w_reports w !! id = Some d
    ∧ w_reports w' = <[id := fields ∪ d]> (w_reports w)
    ∧ w_reportData w' = w_reportData w.
Proof.
  unfold updateDoc_reports, mbind, M_bind, bind, firestore_call, gets.
  destruct (firestore_fault X _ (w_ext w)) as [[e|] ext]; [done|]. simpl.
  destruct (w_reports w !! id) as [d|]; [|done].
  intros [= _ <-]. by exists d.
Qed.

Lemma setDoc_reportData_normal id data w u w' :
  setDoc_reportData X id data w = (Normal u, w') →
  undefined_field data = None
  ∧ w_reportData w' = <[id := data]> (w_reportData w).
Proof.
  unfold setDoc_reportData. destruct (undefined_field data); [done|].
  unfold mbind, M_bind, bind, firestore_call, modify.
  destruct (firestore_fault X _ (w_ext w)) as [[e|] ext]; [done|].
  by intros [= _ <-].
Qed.

Lemma status_update_status st now (d : document) :
  (status_update st now ∪ d) !! "status" = Some (JStr st).
Proof.
  apply lookup_union_Some_l. unfold status_update.
  apply lookup_insert_eq.
Qed.

(** The two ways in which a run ends. *)
Lemma processReportWithAI_cases reportId w :
  ((processReportWithAI X reportId w).1 = Normal true
   ∧ (w_reports (processReportWithAI X reportId w).2 !! reportId)
       ≫= (λ d, d !! "status") = Some (JStr "Completed")
   ∧ ∃ data pdfText year libraryName wa,
       w_reportData (processReportWithAI X reportId w).2 !! reportId
       = Some data
       ∧ rd_reportId data = reportId
       ∧ undefined_field data = None
       ∧ (processLargePdfWithClaudeAI X pdfText year libraryName wa).1
         = Normal (rd_sections data))
  ∨ ((processReportWithAI X reportId w).1 = Normal false
     ∧ ∃ error log,
         (w_log (processReportWithAI X reportId w).2
          = log ++ ["Error processing report: " +:+ error]
          ∧ (w_reports (processReportWithAI X reportId w).2 !! reportId)
              ≫= (λ d, d !! "status") = Some (JStr "Failed"))
         ∨ ∃ updateError,
             w_log (processReportWithAI X reportId w).2
             = log ++ ["Error processing report: " +:+ error;
                       "Error updating report status: " +:+ updateError]).
Proof.
  unfold processReportWithAI.
  match goal with
  | |- context [try_catch ?m ?h w] =>
      destruct (try_catch_cases m h w)
        as [(b & w' & Hm & ->)|(error & w1 & Hm & ->)]
  end.
  - left. simpl.
    apply bind_normal in Hm as (now & w2 & _ & Hm).
    apply bind_normal in Hm as (? & w3 & _ & Hm).
    apply bind_normal in Hm as (reportDoc & w4 & _ & Hm).
    apply bind_normal in Hm as (reportData & w5 & _ & Hm).
    apply bind_normal in Hm as (libraryDoc & w6 & _ & Hm).
    apply bind_normal in Hm as (libraryData & w7 & _ & Hm).
    apply bind_normal in Hm as (pdfText & w8 & _ & Hm).
    apply bind_normal in Hm as (processedData & w9 & Hlarge & Hm).
    apply bind_normal in Hm as (createdAt & w10 & _ & Hm).
    apply bind_normal in Hm as (updatedAt & w11 & _ & Hm).
    apply bind_normal in Hm as (objects & w12 & _ & Hm).
    apply bind_normal in Hm as (? & w13 & Hset & Hm).
    apply bind_normal in Hm as (now' & w14 & Hdate & Hm).
    apply bind_normal in Hm as (? & w15 & Hupd & Hm).
    injection Hm as <- <-.
    apply setDoc_reportData_normal in Hset as [Hcomplete Hset].
    injection Hdate as _ <-.
    apply updateDoc_reports_normal in Hupd as (d & Hd & Hreports & Hdata).
    split_and!; [done| |].
    + rewrite Hreports, lookup_insert_eq. simpl. apply status_update_status.
    + eexists _, pdfText, _, _, w8. rewrite Hdata. simpl. rewrite Hset.
      rewrite lookup_insert_eq. split_and!; [done..|]. simpl.
      by rewrite Hlarge.
  - right.
    cbv beta iota delta [mbind M_bind bind console modify try_catch new_Date
                         mret M_ret ret].
    match goal with
    | |- context [updateDoc_reports X ?i ?f ?w2] =>
        pose proof (updateDoc_reports_log i f w2) as Hlog;
        destruct (updateDoc_reports X i f w2) as [[u|updateError] w3] eqn:Hupd
    end; simpl in *.
    + split; [done|]. exists error, (w_log w1). left. split; [done|].
      apply updateDoc_reports_normal in Hupd as (d & Hd & -> & _).
      rewrite lookup_insert_eq. simpl. apply status_update_status.
    + split; [done|]. exists error, (w_log w1). right.
      exists updateError. rewrite Hlog. by rewrite <- app_assoc.
Qed.

(** X10: a run that returns [true] has stored the report data under the
    identifier of the report and has set the status of the report to
    [Completed]. *)
Theorem success_is_recorded reportId w :
  (processReportWithAI X reportId w).1 = Normal true →
  (w_reports (processReportWithAI X reportId w).2 !! reportId)
    ≫= (λ d, d !! "status") = Some (JStr "Completed")
  ∧ ∃ data,
      w_reportData (processReportWithAI X reportId w).2 !! reportId
      = Some data
      ∧ rd_reportId data = reportId.
Proof.
  intros Hrun.
  destruct (processReportWithAI_cases reportId w)
    as [(_ & Hstatus & data & _ & _ & _ & _ & Hdata & Hid & _ & _)
       |[Hfalse _]].
  - eauto.
  - rewrite Hrun in Hfalse. done.
Qed.

(** A document without a field that is [undefined] has a year and all the
    eleven sections. *)
Lemma undefined_field_None data :
  undefined_field data = None →
  is_Some (rd_year data)
  ∧ is_Some (libraryOverview (rd_sections data))
  ∧ is_Some (collectionOverview (rd_sections data))
  ∧ is_Some (usageStatistics (rd_sections data))
  ∧ (∀ prop, is_Some (get_array prop (rd_sections data)))
  ∧ is_Some (keyFindings (rd_sections data)).
Proof.
  unfold undefined_field. intros Hnone.
  repeat (cbn [omap list_omap fst snd head] in Hnone;
          case_bool_decide; [|done]).
  split_and!; try done. by intros [].
Qed.

(** X7: a run returns [true] only for a complete record: the document that
    it has stored has a year and every one of the eleven sections, since
    the SDK refuses a document with a field that is [undefined]. *)
Theorem success_needs_every_section reportId w :
  (processReportWithAI X reportId w).1 = Normal true →
  ∃ data,
    w_reportData (processReportWithAI X reportId w).2 !! reportId
    = Some data
    ∧ is_Some (rd_year data)
    ∧ is_Some (libraryOverview (rd_sections data))
    ∧ is_Some (collectionOverview (rd_sections data))
    ∧ is_Some (usageStatistics (rd_sections data))
    ∧ (∀ prop, is_Some (get_array prop (rd_sections data)))
    ∧ is_Some (keyFindings (rd_sections data)).
Proof.
  intros Hrun.
  destruct (processReportWithAI_cases reportId w)
    as [(_ & _ & data & _ & _ & _ & _ & Hdata & _ & Hcomplete & _)
       |[Hfalse _]].
  - exists data. split; [done|]. by apply undefined_field_None.
  - rewrite Hrun in Hfalse. done.
Qed.

(** X11: a run that returns [false] has logged the error that ended it, and
    either has set the status of the report to [Failed] or has logged, as
    its last line, why it could not. *)
Theorem failure_is_logged reportId w :
  (processReportWithAI X reportId w).1 = Normal false →
  ∃ error,
    "Error processing report: " +:+ error
      ∈ w_log (processReportWithAI X reportId w).2
    ∧ ((w_reports (processReportWithAI X reportId w).2 !! reportId)
         ≫= (λ d, d !! "status") = Some (JStr "Failed")
       ∨ ∃ updateError,
           last (w_log (processReportWithAI X reportId w).2)
           = Some ("Error updating report status: " +:+ updateError)).
Proof.
  intros Hrun.
  destruct (processReportWithAI_cases reportId w)
    as [[Htrue _]|(_ & error & log & [[Hlog Hst]|[updateError Hlog]])].
  - rewrite Hrun in Htrue. done.
  - exists error. rewrite Hlog. split; [|by left].
    apply elem_of_app. right. by left.
  - exists error. rewrite Hlog. split.
    + apply elem_of_app. right. by left.
    + right. exists updateError.
      by rewrite (last_app_cons log [_] _).
Qed.
End outcome.

Lemma success_is_recorded_witness :
  (processReportWithAI (online_externals (Some "sk-ant")) "r1"
     library_world).1 = Normal true
  ∧ (w_reports (processReportWithAI (online_externals (Some "sk-ant")) "r1"
                  library_world).2 !! "r1")
      ≫= (λ d, d !! "status") = Some (JStr "Completed").
Proof.
  split; [by vm_compute|].
  apply (success_is_recorded (online_externals (Some "sk-ant"))).
  by vm_compute.
Defined.

Lemma success_needs_every_section_witness :
  (processReportWithAI (online_externals (Some "sk-ant")) "r1"
     library_world).1 = Normal true
  ∧ ∃ data,
      w_reportData (processReportWithAI (online_externals (Some "sk-ant"))
                      "r1" library_world).2 !! "r1" = Some data
      ∧ is_Some (rd_year data)
      ∧ is_Some (libraryOverview (rd_sections data))
      ∧ is_Some (collectionOverview (rd_sections data))
      ∧ is_Some (usageStatistics (rd_sections data))
      ∧ (∀ prop, is_Some (get_array prop (rd_sections data)))
      ∧ is_Some (keyFindings (rd_sections data)).
Proof.
  split; [by vm_compute|].
  apply (success_needs_every_section (online_externals (Some "sk-ant"))).
  by vm_compute.
Defined.

Lemma failure_is_logged_witness :
  (processReportWithAI offline_externals "r1" orphan_world).1 = Normal false
  ∧ ∃ error,
      "Error processing report: " +:+ error
        ∈ w_log (processReportWithAI offline_externals "r1" orphan_world).2
      ∧ ((w_reports (processReportWithAI offline_externals "r1"
                       orphan_world).2 !! "r1")
           ≫= (λ d, d !! "status") = Some (JStr "Failed")
         ∨ ∃ updateError,
             last (w_log (processReportWithAI offline_externals "r1"
                            orphan_world).2)
             = Some ("Error updating report status: " +:+ updateError)).
Proof.
  split; [by vm_compute|].
  apply (failure_is_logged offline_externals). by vm_compute.
Defined.

Section edge_cases.
Context {E : Type} (X : externals E).

Lemma updateDoc_reports_missing id fields w :
  w_reports w !! id = None →
  ∃ error ext,
    updateDoc_reports X id fields w = (Throw error, set_ext ext w).
Proof.
  intros Hnone.
  unfold updateDoc_reports, mbind, M_bind, bind, firestore_call, gets.
  destruct (firestore_fault X _ (w_ext w)) as [[e|] ext]; [by eauto|].
  simpl. rewrite Hnone. by eauto.
Qed.

(** X12: a run for a report that has no document returns [false] after two log
    lines, the error and the failure to write the status; it writes nothing
    to any collection and allocates nothing. *)
Theorem missing_report_changes_nothing reportId w :
  w_reports w !! reportId = None →
  (processReportWithAI X reportId w).1 = Normal false
  ∧ w_reports (processReportWithAI X reportId w).2 = w_reports w
  ∧ w_reportData (processReportWithAI X reportId w).2 = w_reportData w
  ∧ w_libraries (processReportWithAI X reportId w).2 = w_libraries w
  ∧ w_heap (processReportWithAI X reportId w).2 = w_heap w
  ∧ ∃ error updateError,
      w_log (processReportWithAI X reportId w).2
      = w_log w ++ ["Error processing report: " +:+ error;
                    "Error updating report status: " +:+ updateError].
Proof.
  intros Hnone. unfold processReportWithAI.
  cbv beta iota delta [mbind M_bind bind console modify try_catch new_Date
                       mret M_ret ret].
  match goal with
  | |- context [updateDoc_reports X ?i ?f ?w1] =>
      destruct (updateDoc_reports_missing i f w1 Hnone)
        as (error & ext & ->)
  end.
  match goal with
  | |- context [updateDoc_reports X ?i ?f ?w1] =>
      destruct (updateDoc_reports_missing i f w1 Hnone)
        as (updateError & ext' & ->)
  end.
  simpl. split_and!; [done..|]. exists error, updateError.
  by rewrite <- app_assoc.
Qed.

(** X13: a text without a non-empty paragraph has no chunk: the extraction
    returns the empty record at once, without a call and without a line
    in the log. *)
Theorem blank_document_makes_no_call pdfText year libraryName w :
  nonblank (split_paragraphs pdfText) = [] →
  processLargePdfWithClaudeAI X pdfText year libraryName w
  = (Normal empty_record, w).
Proof.
  intros Hblank.
  assert (splitTextIntoChunks pdfText 50000 = []) as Hchunks.
  { unfold splitTextIntoChunks.
    destruct (combine_paragraphs_nonempty (50000 * charsPerToken)
                (split_paragraphs pdfText)) as [_ Hne].
    destruct (combine_paragraphs _ _) as [|c cs]; [done|].
    destruct Hne as [(p & Hp & Hp') _]; [done|].
    assert (p ∈ nonblank (split_paragraphs pdfText)) as Hin
      by by apply list_elem_of_filter.
    rewrite Hblank in Hin. by apply elem_of_nil in Hin. }
  unfold processLargePdfWithClaudeAI. rewrite Hchunks.
  by destruct w.
Qed.
End edge_cases.

Lemma blank_document_makes_no_call_witness :
  nonblank (split_paragraphs [10%N; 32%N; 10%N]) = []
  ∧ processLargePdfWithClaudeAI offline_externals [10%N; 32%N; 10%N]
      (Some (JNum 2023)) (JStr "Morristown") empty_world
    = (Normal empty_record, empty_world).
Proof.
  split; [by vm_compute|].
  apply (blank_document_makes_no_call offline_externals). by vm_compute.
Defined.

Lemma missing_report_changes_nothing_witness :
  w_reports empty_world !! "r1" = None
  ∧ (processReportWithAI offline_externals "r1" empty_world).1 = Normal false.
Proof.
  split; [done|].
  by apply (missing_report_changes_nothing offline_externals "r1" empty_world).
Defined.

Section without_credentials.
Context {E : Type} (X : externals E).

Lemma callClaudeAPI_without_key sys user w :
  claude_api_key X = None →
  callClaudeAPI X sys user w
  = (Throw "Claude API key not found",
     set_log (w_log w
              ++ ["Error calling Claude API: Claude API key not found"]) w).
Proof. intros no_key. unfold callClaudeAPI. by rewrite no_key. Qed.

Lemma process_chunks_without_key sys year lib count chunks :
  claude_api_key X = None →
  ∀ i results w, ∃ lines,
    process_chunks X sys year lib count i chunks results w
    = (Normal results, set_log (w_log w ++ lines) w)
    ∧ length lines = 3 * length chunks.
Proof.
  intros no_key.
  induction chunks as [|chunk chunks IH]; intros i results w.
  { exists []. rewrite app_nil_r. split; [|done]. by destruct w. }
  cbn [process_chunks].
  unfold mbind, M_bind, bind, try_catch, console, modify at 1.
  rewrite callClaudeAPI_without_key by done. simpl.
  match goal with
  | |- context [process_chunks X sys year lib count (S i) chunks results ?w1]
    => destruct (IH (S i) results w1) as (lines & -> & Hlen)
  end.
  eexists (_ :: _ :: _ :: lines). split; [|simpl; lia].
  unfold set_log. simpl. by rewrite <- !app_assoc.
Qed.

(** X14: without an API key the extraction sends nothing: whatever the
    text, it returns the empty record, and all it leaves in the world is
    three log lines for every chunk (the chunk is announced, its call
    fails, its failure is reported). *)
Theorem without_key_nothing_is_sent pdfText year libraryName w :
  claude_api_key X = None →
  ∃ lines,
    processLargePdfWithClaudeAI X pdfText year libraryName w
    = (Normal empty_record, set_log (w_log w ++ lines) w)
    ∧ length lines = 3 * length (splitTextIntoChunks pdfText 50000).
Proof.
  intros no_key. unfold processLargePdfWithClaudeAI.
  destruct (process_chunks_without_key
              {| sp_libraryName := libraryName; sp_year := year |}
              year libraryName
              (length (splitTextIntoChunks pdfText 50000))
              (splitTextIntoChunks pdfText 50000) no_key 0 [] w)
    as (lines & Hrun & Hlen).
  exists lines. split; [|done].
  unfold try_catch, mbind, M_bind, bind. by rewrite Hrun.
Qed.

(** X15: without an API key no run succeeds.  Every call fails, the merged
    record has no section, and the SDK refuses the document whose fields
    are [undefined]: the run returns [false]. *)
Theorem without_key_no_run_succeeds reportId w :
  claude_api_key X = None →
  (processReportWithAI X reportId w).1 = Normal false.
Proof.
  intros no_key.
  destruct (processReportWithAI_cases X reportId w)
    as [(_ & _ & data & text & year & lib & wa & _ & _ & Hcomplete & Hlarge)
       |[Hfalse _]]; [|done].
  destruct (process_chunks_without_key
              {| sp_libraryName := lib; sp_year := year |} year lib
              (length (splitTextIntoChunks text 50000))
              (splitTextIntoChunks text 50000) no_key 0 [] wa)
    as (lines & Hrun & _).
  unfold processLargePdfWithClaudeAI, try_catch, mbind, M_bind, bind
    in Hlarge.
  rewrite Hrun in Hlarge. simpl in Hlarge. injection Hlarge as Hsections.
  unfold undefined_field in Hcomplete. rewrite <- Hsections in Hcomplete.
  simpl in Hcomplete. by case_bool_decide.
Qed.
End without_credentials.

Lemma without_key_nothing_is_sent_witness :
  claude_api_key offline_externals = None
  ∧ ∃ lines,
      processLargePdfWithClaudeAI offline_externals (js "Annual report")
        (Some (JNum 2023)) (JStr "Morristown") empty_world
      = (Normal empty_record,
         set_log (w_log empty_world ++ lines) empty_world)
      ∧ length lines
        = 3 * length (splitTextIntoChunks (js "Annual report") 50000).
Proof.
  split; [done|]. by apply (without_key_nothing_is_sent offline_externals).
Defined.

Lemma without_key_no_run_succeeds_witness :
  claude_api_key (online_externals None) = None
  ∧ (processReportWithAI (online_externals None) "r1" library_world).1
    = Normal false.
Proof.
  split; [done|].
  by apply (without_key_no_run_succeeds (online_externals None)).
Defined.

(** *** What a run leaves alone *)

Section touches_only.
Context {E : Type} (X : externals E) (reportId : string).

Lemma own_records_only_refl (w : world E) : own_records_only reportId w w.
Proof. by split_and!. Qed.

Lemma own_records_only_trans (w1 w2 w3 : world E) :
  own_records_only reportId w1 w2 → own_records_only reportId w2 w3 →
  own_records_only reportId w1 w3.
Proof.
  intros (Hl1 & Hp1 & H1) (Hl2 & Hp2 & H2). split_and!.
  - by rewrite Hl2.
  - by etrans.
  - intros id Hid. destruct (H1 id Hid) as [<- <-]. by apply H2.
Qed.

Lemma touches_ret {A} (a : A) : touches_only (E:=E) reportId (mret a).
Proof. intros w. by split_and!. Qed.

Lemma touches_throw {A} e : touches_only (E:=E) reportId (throw (A:=A) e).
Proof. intros w. by split_and!. Qed.

Lemma touches_gets {A} (f : world E → A) : touches_only reportId (gets f).
Proof. intros w. by split_and!. Qed.

Lemma touches_console line : touches_only (E:=E) reportId (console line).
Proof. intros w. split_and!; [done|by apply prefix_app_r|done]. Qed.

Lemma touches_new_Date : touches_only (E:=E) reportId new_Date.
Proof. intros w. by split_and!. Qed.

Lemma touches_await {A} (call : E → completion A * E) :
  touches_only reportId (await call).
Proof.
  intros w. unfold await. destruct (call (w_ext w)).
  by split_and!.
Qed.

Lemma touches_bind {A B} (m : M E A) (k : A → M E B) :
  touches_only reportId m → (∀ a, touches_only reportId (k a)) →
  touches_only reportId (m ≫= k).
Proof.
  intros Hm Hk w. unfold mbind, M_bind, bind. specialize (Hm w).
  destruct (m w) as [[a|e] w']; simpl in *; [|done].
  eapply own_records_only_trans; [exact Hm|apply Hk].
Qed.

Lemma touches_try_catch {A} (m : M E A) handler :
  touches_only reportId m → (∀ error, touches_only reportId (handler error)) →
  touches_only reportId (try_catch m handler).
Proof.
  intros Hm Hh w. unfold try_catch. specialize (Hm w).
  destruct (m w) as [[a|e] w']; simpl in *; [done|].
  eapply own_records_only_trans; [exact Hm|apply Hh].
Qed.

Lemma touches_firestore_call op : touches_only reportId (firestore_call X op).
Proof.
  intros w. unfold firestore_call.
  destruct (firestore_fault X op (w_ext w)) as [[e|] ext];
    by split_and!.
Qed.

Lemma touches_updateDoc_reports fields :
  touches_only reportId (updateDoc_reports X reportId fields).
Proof.
  unfold updateDoc_reports.
  apply touches_bind; [apply touches_firestore_call|]. intros _ w.
  unfold mbind, M_bind, bind, gets. simpl.
  destruct (w_reports w !! reportId) as [d|] eqn:Hd; simpl.
  - split_and!; [done..|]. intros id Hid. simpl.
    by rewrite lookup_insert_ne.
  - by split_and!.
Qed.

Lemma touches_setDoc_reportData data :
  touches_only reportId (setDoc_reportData X reportId data).
Proof.
  unfold setDoc_reportData.
  destruct (undefined_field data); [apply touches_throw|].
  apply touches_bind; [apply touches_firestore_call|]. intros _ w.
  split_and!; [done..|]. intros id Hid. simpl. by rewrite lookup_insert_ne.
Qed.

Lemma touches_parse_json text : touches_only reportId (parse_json X text).
Proof.
  intros w. unfold parse_json.
  destruct (JSON_parse X text (w_heap w)) as [[r h]|e];
    by split_and!.
Qed.

Lemma touches_merge_in_heap results :
  touches_only reportId (merge_in_heap X results).
Proof.
  intros w. unfold merge_in_heap.
  case_bool_decide; [by split_and!|].
  destruct (well_shaped results) as [records|].
  - destruct (mergeResults records (w_heap w)). by split_and!.
  - destruct (merge_ill_shaped X results (w_heap w)) as [[merged h]|e];
      by split_and!.
Qed.

(** The steps of a computation, one combinator at a time. *)
Ltac touches_step :=
  lazymatch goal with
  | |- touches_only _ (updateDoc_reports _ _ _) =>
      apply touches_updateDoc_reports
  | |- touches_only _ (setDoc_reportData _ _ _) =>
      apply touches_setDoc_reportData
  | |- touches_only _ (firestore_call _ _) => apply touches_firestore_call
  | |- touches_only _ (parse_json _ _) => apply touches_parse_json
  | |- touches_only _ (merge_in_heap _ _) => apply touches_merge_in_heap
  | |- touches_only _ (console _) => apply touches_console
  | |- touches_only _ (mret _) => apply touches_ret
  | |- touches_only _ (throw _) => apply touches_throw
  | |- touches_only _ (gets _) => apply touches_gets
  | |- touches_only _ new_Date => apply touches_new_Date
  | |- touches_only _ (await _) => apply touches_await
  | |- touches_only _ (mbind _ _) => apply touches_bind; [|intros ?]
  | |- touches_only _ (try_catch _ _) => apply touches_try_catch; [|intros ?]
  | |- touches_only _ (if ?b then _ else _) => destruct b
  | |- touches_only _ (match ?x with _ => _ end) => destruct x
  end.

Lemma touches_callClaudeAPI sys user :
  touches_only reportId (callClaudeAPI X sys user).
Proof. unfold callClaudeAPI. repeat touches_step. Qed.

Lemma touches_process_chunks sys year lib count chunks : ∀ i results,
  touches_only reportId (process_chunks X sys year lib count i chunks results).
Proof.
  induction chunks as [|chunk chunks IH]; intros i results;
    cbn [process_chunks]; [apply touches_ret|].
  apply touches_bind; [apply touches_console|]. intros _.
  apply touches_bind; [|intros results'; apply IH].
  apply touches_try_catch; [|intros ?; repeat touches_step].
  apply touches_bind; [apply touches_callClaudeAPI|]. intros ?.
  apply touches_ret.
Qed.

Lemma touches_processLargePdfWithClaudeAI text year lib :
  touches_only reportId (processLargePdfWithClaudeAI X text year lib).
Proof.
  unfold processLargePdfWithClaudeAI.
  apply touches_try_catch; [|intros ?; repeat touches_step].
  apply touches_bind; [apply touches_process_chunks|]. intros ?.
  apply touches_merge_in_heap.
Qed.

Lemma touches_downloadAndExtractPdfText url :
  touches_only reportId (downloadAndExtractPdfText X url).
Proof. unfold downloadAndExtractPdfText. repeat touches_step. Qed.

Lemma touches_getDoc_reports id : touches_only reportId (getDoc_reports X id).
Proof. unfold getDoc_reports. repeat touches_step. Qed.

Lemma touches_getDoc_libraries id :
  touches_only reportId (getDoc_libraries X id).
Proof. unfold getDoc_libraries. repeat touches_step. Qed.

(** X16: whatever happens in a run for a report, the documents of the other
    reports, the data stored for them and the collection [libraries] are
    as they were before, and the log has only grown. *)
Theorem processReportWithAI_touches_only_its_report w :
  own_records_only reportId w (processReportWithAI X reportId w).2.
Proof.
  revert w. change (touches_only reportId (processReportWithAI X reportId)).
  unfold processReportWithAI.
  apply touches_try_catch; [|intros ?; repeat touches_step].
  apply touches_bind; [apply touches_new_Date|]. intros ?.
  apply touches_bind; [apply touches_updateDoc_reports|]. intros _.
  apply touches_bind; [apply touches_getDoc_reports|]. intros reportDoc.
  apply touches_bind; [destruct reportDoc; repeat touches_step|].
  intros reportData.
  apply touches_bind; [apply touches_getDoc_libraries|]. intros libraryDoc.
  apply touches_bind; [destruct libraryDoc; repeat touches_step|].
  intros libraryData.
  apply touches_bind; [apply touches_downloadAndExtractPdfText|]. intros ?.
  apply touches_bind; [apply touches_processLargePdfWithClaudeAI|]. intros ?.
  repeat touches_step.
Qed.
End touches_only.

(** ** The API route *)

Section process_report_route_properties.
Context {E : Type} (X : externals E).

(** X17: a request that is not a POST, or whose body is neither [undefined]
    nor [null], is always answered, and never with the status 500: an
    answer other than 200 is given without starting a run, and the answer
    200 carries the result of the run, also when the run failed. *)
Theorem handler_never_answers_500 req w :
  req_method req ≠ "POST" ∨ is_Some (req_body req) →
  ∃ res w',
    handler X req w = (Normal res, w')
    ∧ res_status res ≠ 500%Z
    ∧ (res_status res ≠ 200%Z → w' = w)
    ∧ (res_status res = 200%Z →
       ∃ reportId success,
         req_body req = Some (Some reportId)
         ∧ processReportWithAI X reportId w = (Normal success, w')
         ∧ res_json res = SuccessBody success).
Proof.
  intros Hreq. unfold handler.
  destruct (decide (req_method req ≠ "POST")) as [Hmethod|Hmethod].
  { eexists _, _. split_and!; [done..|]. by intros [=]. }
  destruct Hreq as [?|[reportId Hbody]]; [done|]. rewrite Hbody.
  unfold mbind at 1, M_bind, bind. simpl.
  destruct reportId as [[|c reportId]|].
  - eexists _, _. split_and!; [done..|]. by intros [=].
  - destruct (processReportWithAI_never_throws X (String c reportId) w)
      as (success & w' & Hrun).
    exists {| res_status := 200; res_json := SuccessBody success |}, w'.
    unfold try_catch, mbind, M_bind, bind. rewrite Hrun.
    split_and!; [done..|]. intros _. by exists (String c reportId), success.
  - eexists _, _. split_and!; [done..|]. by intros [=].
Qed.
End process_report_route_properties.

Lemma handler_never_answers_500_witness :
  (req_method {| req_method := "POST"; req_body := Some (Some "r1") |}
   ≠ "POST"
   ∨ is_Some (req_body {| req_method := "POST";
                          req_body := Some (Some "r1") |}))
  ∧ ∃ res w',
      handler offline_externals
        {| req_method := "POST"; req_body := Some (Some "r1") |} orphan_world
      = (Normal res, w')
      ∧ res_status res ≠ 500%Z.
Proof.
  assert (req_method {| req_method := "POST"; req_body := Some (Some "r1") |}
          ≠ "POST"
          ∨ is_Some (req_body {| req_method := "POST";
                                 req_body := Some (Some "r1") |})) as Hreq
    by (right; by eexists).
  split; [done|].
  destruct (handler_never_answers_500 offline_externals _ orphan_world Hreq)
    as (res & w' & Hrun & Hstatus & _).
  by exists res, w'.
Defined.
